(** * free-chat: the stream demultiplexer and the incremental content parser

    A shallow embedding of

    - [streamChat] (the OpenRouter service): the loop that reads the
      server-sent event stream and re-emits reasoning and answer deltas as
      one token stream, reasoning wrapped in <think> ... </think>;
    - the [useMemo] body of [MarkdownRenderer] (components/MarkdownRenderer.tsx):
      citation unwrapping, extraction of <think> blocks and of leaked tool
      calls, extraction of search actions, and the header status;
    - the rest of [MarkdownRenderer]: [formatDisplayUrl], what the component
      shows (the placeholder, the thought section, the body), the link
      renderer and the code renderer;
    - the request that [streamChat] builds before it reads the stream;
    - the application (App): the normalisation of the API key, the table of
      the sessions, [generateResponse] (the consumer of the stream) and the
      handlers that start a generation;
    - the model selector (components/ModelSelector.tsx).

    Text is a list of 8-bit characters.  White space is the ASCII white
    space of JavaScript's [\s] and [trim] (TAB, LF, VT, FF, CR, SPACE); the
    non-ASCII white space characters of JavaScript are not represented.

    Two functions of the platform are not part of the repository:
    [JSON.parse] and the [URL] constructor.  The definitions that call them
    take them as section variables, so every general theorem holds for any
    behaviour of the platform; the closed examples use the instances of
    the module [Platform].  The identifiers and the times that the
    application draws ([uuidv4()], [Date.now()]) are arguments of its
    functions. *)

From Stdlib Require Import Ascii String.
From stdpp Require Import base option list gmap strings pretty.

Abbreviation text := (list ascii).

(** ** Text *)

Definition lit (s : string) : text := list_ascii_of_string s.

Definition dquote : ascii := "034"%char.
Definition LF : ascii := "010"%char.

(** [q s] is [s] with every ['] standing for a double quote; it is only used
    to write down examples. *)
Definition q (s : string) : text :=
  map (λ c, if Ascii.eqb c "'" then dquote else c) (lit s).

Definition is_space (c : ascii) : bool :=
  let n := nat_of_ascii c in
  (Nat.leb 9 n && Nat.leb n 13) || Nat.eqb n 32.

Fixpoint drop_while (p : ascii → bool) (s : text) : text :=
  match s with
  | c :: s' => if p c then drop_while p s' else s
  | [] => []
  end.

Fixpoint take_while (p : ascii → bool) (s : text) : text :=
  match s with
  | c :: s' => if p c then c :: take_while p s' else []
  | [] => []
  end.

(** [starts_with p s] is the rest of [s] after the prefix [p], when [s]
    starts with [p]. *)
Fixpoint starts_with (p s : text) : option text :=
  match p, s with
  | [], _ => Some s
  | a :: p', b :: s' => if Ascii.eqb a b then starts_with p' s' else None
  | _ :: _, [] => None
  end.

(** The text before and after the first occurrence of [m] in [s]. *)
Fixpoint split_at_first (m s : text) : option (text * text) :=
  match starts_with m s with
  | Some rest => Some ([], rest)
  | None =>
      match s with
      | [] => None
      | c :: s' =>
          match split_at_first m s' with
          | Some (a, b) => Some (c :: a, b)
          | None => None
          end
      end
  end.

(** [String.prototype.includes] *)
Definition includes (m s : text) : bool :=
  match split_at_first m s with Some _ => true | None => false end.

(** [String.prototype.trim] *)
Definition trim_start (s : text) : text := drop_while is_space s.
Definition trim_end (s : text) : text := reverse (drop_while is_space (reverse s)).
Definition trim (s : text) : text := trim_end (trim_start s).

(** [Array.prototype.join] *)
Fixpoint join (sep : text) (l : list text) : text :=
  match l with
  | [] => []
  | [x] => x
  | x :: l' => x ++ sep ++ join sep l'
  end.

(** [m] occurs in [s] as a contiguous block. *)
Definition occurs (m s : text) : Prop := ∃ a b, s = a ++ m ++ b.

(** ** Global regular expressions

    A [matcher] is a regular expression anchored at the head of the text: it
    returns what the match captures and the text after the match.  Each
    pattern of the source is written as such a function; the patterns used
    here leave the engine no choice (see the comment at each one), so the
    greedy reading is the match JavaScript finds.

    [scan] is the iteration of a [/g] expression by [replace] and by
    [while (exec)]: the leftmost match is looked for from the current
    position, and the search resumes after it.  No pattern of the source
    matches the empty text, so the scan stops at the end of the text. *)

Definition matcher (A : Type) : Type := text → option (A * text).

Inductive piece (A : Type) : Type :=
  | Plain (c : ascii)
  | Match (a : A).
Arguments Plain {A} c.
Arguments Match {A} a.

Fixpoint scan_fuel {A} (M : matcher A) (fuel : nat) (s : text) : list (piece A) :=
  match fuel, s with
  | S fuel', c :: s' =>
      match M s with
      | Some (a, rest) => Match a :: scan_fuel M fuel' rest
      | None => Plain c :: scan_fuel M fuel' s'
      end
  | _, _ => []
  end.

Definition scan {A} (M : matcher A) (s : text) : list (piece A) :=
  scan_fuel M (length s) s.

(** the matches, in order: what a [while ((match = re.exec(s)) !== null)]
    loop sees *)
Definition exec_all {A} (M : matcher A) (s : text) : list A :=
  omap (λ p, match p with Match a => Some a | Plain _ => None end) (scan M s).

(** [s.replace(re, f)] *)
Definition replace_all {A} (M : matcher A) (f : A → text) (s : text) : text :=
  mjoin ((λ p, match p with Match a => f a | Plain c => [c] end) <$> scan M s).

(** a matcher that consumes at least one character *)
Definition progressive {A} (M : matcher A) : Prop :=
  ∀ s a rest, M s = Some (a, rest) → length rest < length s.

(** *** The patterns of MarkdownRenderer *)

Definition not_in (cs : text) (c : ascii) : bool :=
  negb (existsb (Ascii.eqb c) cs).

(** [https?:\/\/]: the matched text and the rest.  After http an s is taken
    when present; giving it back cannot help, the colon would have to match
    that s. *)
Definition scheme (s : text) : option (text * text) :=
  s1 ← starts_with (lit "http") s;
  match starts_with (lit "s") s1 with
  | Some s2 => r ← starts_with (lit "://") s2; Some (lit "https://", r)
  | None => r ← starts_with (lit "://") s1; Some (lit "http://", r)
  end.

(** [/\(\s*(https?:\/\/[^\s\)]+)\s*\)/]: the run [[^\s\)]+] stops at the
    first white space or closing parenthesis and must be followed by [\s*\)]; a shorter run
    is followed by a character of the run, which is neither. *)
Definition citationLinkRegex : matcher text := λ s,
  s1 ← starts_with (lit "(") s;
  '(sch, s2) ← scheme (drop_while is_space s1);
  let p := λ c, negb (is_space c) && not_in (lit ")") c in
  let run := take_while p s2 in
  if decide (run = []) then None else
  s3 ← starts_with (lit ")") (drop_while is_space (drop_while p s2));
  Some (sch ++ run, s3).

(** [/\(\s*(\[[^\]]+\]\([^\)]+\))\s*\)/] *)
Definition citationMarkdownRegex : matcher text := λ s,
  s1 ← starts_with (lit "(") s;
  s2 ← starts_with (lit "[") (drop_while is_space s1);
  let label := take_while (not_in (lit "]")) s2 in
  if decide (label = []) then None else
  s3 ← starts_with (lit "](") (drop_while (not_in (lit "]")) s2);
  let target := take_while (not_in (lit ")")) s3 in
  if decide (target = []) then None else
  s4 ← starts_with (lit ")") (drop_while (not_in (lit ")")) s3);
  s5 ← starts_with (lit ")") (drop_while is_space s4);
  Some (lit "[" ++ label ++ lit "](" ++ target ++ lit ")", s5).

(** [/<think>([\s\S]*?)(?:<\/think>|$)/]: the lazy body ends at the first
    closing tag, or at the end of the text when there is none (no [m] flag:
    [$] is the end of the text).  The capture is group 1. *)
Definition thoughtRegex : matcher text := λ s,
  s1 ← starts_with (lit "<think>") s;
  match split_at_first (lit "</think>") s1 with
  | Some (group1, rest) => Some (group1, rest)
  | None => Some (s1, [])
  end.

(** [/<\|start\|>[\s\S]*?(?:\n\n|$)/]: the capture is the whole match. *)
Definition leakageRegex : matcher text := λ s,
  s1 ← starts_with (lit "<|start|>") s;
  match split_at_first [LF; LF] s1 with
  | Some (body, rest) => Some (lit "<|start|>" ++ body ++ [LF; LF], rest)
  | None => Some (s, [])
  end.

(** [/\x22key\x22:\s*\x22([^\x22]+)\x22/] (\x22 is the double quote), which
    is [queryRegex] for the key query and [urlRegex] for the key url; the
    capture is group 1.  The value stops at the first double quote, which
    must close it; the white space before it cannot be given back to
    anything. *)
Definition keyValueRegex (key : text) : matcher text := λ s,
  s1 ← starts_with ([dquote] ++ key ++ [dquote] ++ lit ":") s;
  s2 ← starts_with [dquote] (drop_while is_space s1);
  let value := take_while (not_in [dquote]) s2 in
  if decide (value = []) then None else
  s3 ← starts_with [dquote] (drop_while (not_in [dquote]) s2);
  Some (value, s3).

Definition queryRegex : matcher text := keyValueRegex (lit "query").
Definition urlRegex : matcher text := keyValueRegex (lit "url").

(** [/(https?:\/\/[^\s<)\x22\x27]+)/] (\x22 and \x27 are the double and the
    single quote) *)
Definition httpRegex : matcher text := λ s,
  '(sch, s1) ← scheme s;
  let p := λ c, negb (is_space c) && not_in (lit "<)'" ++ [dquote]) c in
  let run := take_while p s1 in
  if decide (run = []) then None else Some (sch ++ run, drop_while p s1).

(** ** The content parser (MarkdownRenderer, the [useMemo] body) *)

Inductive action_type : Type := query | url.

Global Instance action_type_eq_dec : EqDecision action_type.
Proof. solve_decision. Defined.

Record SearchAction : Type := {
  type : action_type;
  content : text;
  id : text;
}.

(** the value of [useMemo] *)
Record parsed : Type := {
  thought : text;
  main : text;
  searchActions : list SearchAction;
  activeAction : text;
}.

(** the replacement [' $1 '] *)
Definition spaced (group1 : text) : text := lit " " ++ group1 ++ lit " ".

(** step 0: citation style links *)
Definition clean_citations (content : text) : text :=
  replace_all citationMarkdownRegex spaced
    (replace_all citationLinkRegex spaced content).

(** step 1: the <think> blocks; the callback pushes group 1 and returns the
    empty text *)
Definition think_blocks (mainContent : text) : list text :=
  exec_all thoughtRegex mainContent.
Definition strip_think (mainContent : text) : text :=
  replace_all thoughtRegex (λ _, []) mainContent.

(** step 2: leaked tool calls; the callback pushes [match.trim()] *)
Definition leaked_calls (mainContent : text) : list text :=
  trim <$> exec_all leakageRegex mainContent.
Definition strip_leaks (mainContent : text) : text :=
  replace_all leakageRegex (λ _, []) mainContent.

Definition thoughts_of (content : text) : list text :=
  let mainContent := clean_citations content in
  think_blocks mainContent ++ leaked_calls (strip_think mainContent).

Definition fullThought_of (content : text) : text :=
  trim (join [LF; LF] (thoughts_of content)).

Definition main_of (content : text) : text :=
  trim (strip_leaks (strip_think (clean_citations content))).

(** step 3: the search actions.  The state of the three loops is the set
    [seenContent] and the array [extractedActions]. *)
Definition loop_state : Type := gset text * list SearchAction.

Definition push (ty : action_type) (prefix : string) (st : loop_state)
    (v : text) : loop_state :=
  ({[ v ]} ∪ st.1,
   st.2 ++ [ {| type := ty; content := v;
                id := lit prefix ++ lit (pretty (length st.2)) |} ]).

(** the body of the [queryRegex] and [urlRegex] loops *)
Definition add_action (ty : action_type) (prefix : string) (st : loop_state)
    (v : text) : loop_state :=
  if decide (v ∈ st.1) then st else push ty prefix st v.

(** the body of the [httpRegex] loop *)
Definition add_raw_url (st : loop_state) (u : text) : loop_state :=
  if decide (u ∈ st.1) then st
  else if includes (lit "localhost") u then st
  else if Nat.ltb 10 (length u) then push url "u-raw-" st u
  else st.

(** the two loops over the matches of [queryRegex] and of [urlRegex] *)
Definition structured_from (queries urls : list text) : loop_state :=
  foldl (add_action url "u-") (foldl (add_action query "q-") (∅, []) queries) urls.

(** the state after the two loops over the structured markers *)
Definition structured_actions (fullThought : text) : loop_state :=
  structured_from (exec_all queryRegex fullThought) (exec_all urlRegex fullThought).

Definition is_url (a : SearchAction) : bool :=
  bool_decide (type a = url).

(** the condition of the fallback:
    [fullThought.length > 0 && extractedActions.filter(url).length === 0] *)
Definition fallback_runs (fullThought : text)
    (extractedActions : list SearchAction) : bool :=
  Nat.ltb 0 (length fullThought)
  && Nat.eqb (length (List.filter is_url extractedActions)) 0.

Definition extract_actions (fullThought : text) : list SearchAction :=
  let st := structured_actions fullThought in
  if fallback_runs fullThought st.2
  then (foldl add_raw_url st (exec_all httpRegex fullThought)).2
  else st.2.

Section Status.

(** [new URL(url).hostname]; [None] when the constructor throws *)
Variable URL_hostname : text → option text.

Definition getDomain (u : text) : text :=
  match URL_hostname u with
  | Some hostname =>
      (* hostname.replace(/^www\./, '') *)
      match starts_with (lit "www.") hostname with
      | Some rest => rest
      | None => hostname
      end
  | None => lit "web"
  end.

Definition describe (a : SearchAction) : text :=
  match type a with
  | query => lit "Searching Google for " ++ [dquote] ++ content a ++ [dquote]
  | url => lit "Reading content from " ++ getDomain (content a) ++ lit "..."
  end.

(** the header status *)
Definition active_of (isThinking : bool)
    (extractedActions : list SearchAction) : text :=
  if isThinking then
    match last extractedActions with
    | Some a => describe a
    | None => lit "Thinking Process"
    end
  else lit "Thought Process".

Definition parse (content : text) (isThinking : bool) : parsed :=
  let fullThought := fullThought_of content in
  let extractedActions := extract_actions fullThought in
  {| thought := fullThought;
     main := main_of content;
     searchActions := extractedActions;
     activeAction := active_of isThinking extractedActions |}.

End Status.

(** ** The stream demultiplexer (OpenRouterService.streamChat) *)

(** The values of JavaScript that [JSON.parse] and property access produce.
    A number is kept as its lexeme. *)
#[local] Unset Elimination Schemes.
Inductive jsval : Type :=
  | JUndefined
  | JNull
  | JBool (b : bool)
  | JNum (lexeme : text)
  | JStr (s : text)
  | JArr (elements : list jsval)
  | JObj (members : list (text * jsval)).
#[local] Set Elimination Schemes.

(** the own property [key] of an object built by [JSON.parse]: of two
    members with the same key the later one stays *)
Definition member (key : text) (members : list (text * jsval)) : jsval :=
  match List.find (λ kv, bool_decide (kv.1 = key)) (reverse members) with
  | Some kv => kv.2
  | None => JUndefined
  end.

(** [v.key], for the keys the source reads (choices, delta, content,
    reasoning: no prototype defines them); [None] is the TypeError raised
    on null and undefined *)
Definition get (key : string) (v : jsval) : option jsval :=
  match v with
  | JUndefined | JNull => None
  | JObj members => Some (member (lit key) members)
  | _ => Some JUndefined
  end.

(** [v[0]] *)
Definition get0 (v : jsval) : option jsval :=
  match v with
  | JUndefined | JNull => None
  | JArr elements => Some (default JUndefined (head elements))
  | JStr s => Some (from_option (λ c, JStr [c]) JUndefined (head s))
  | JObj members => Some (member (lit "0") members)
  | _ => Some JUndefined
  end.

(** [v?.key] *)
Definition get_opt (key : string) (v : jsval) : jsval :=
  default JUndefined (get key v).

Definition is_digit (c : ascii) : bool :=
  let n := nat_of_ascii c in Nat.leb 48 n && Nat.leb n 57.

(** Whether the number written [lexeme] is the double 0: its digits are all
    zero, or it is no more than 2^-1075 and rounds to zero. *)
Definition is_zero_number (lexeme : text) : bool :=
  let unsigned := drop_while (λ c, Ascii.eqb c "-") lexeme in
  let int := take_while is_digit unsigned in
  let after_int := drop_while is_digit unsigned in
  let frac :=
    match after_int with
    | "."%char :: r => take_while is_digit r
    | _ => []
    end in
  let after_frac :=
    match after_int with
    | "."%char :: r => drop_while is_digit r
    | _ => after_int
    end in
  let digits_value (ds : text) : Z :=
    foldl (λ acc c, 10 * acc + Z.of_nat (nat_of_ascii c - 48))%Z 0%Z ds in
  let exponent : Z :=
    match after_frac with
    | _ :: "-"%char :: ds => (- digits_value ds)%Z
    | _ :: "+"%char :: ds => digits_value ds
    | _ :: ds => digits_value ds
    | [] => 0%Z
    end in
  let mantissa := digits_value (int ++ frac) in
  let k := (exponent - Z.of_nat (length frac))%Z in
  (mantissa =? 0)%Z
  || ((k <? 0)%Z && (mantissa * 2 ^ 1075 <=? 10 ^ (- k))%Z).

(** ToBoolean *)
Definition truthy (v : jsval) : bool :=
  match v with
  | JUndefined | JNull => false
  | JBool b => b
  | JNum lexeme => negb (is_zero_number lexeme)
  | JStr s => negb (bool_decide (s = []))
  | JArr _ | JObj _ => true
  end.

(** [String.prototype.split] on a one character separator *)
Fixpoint split_on (sep : ascii) (s : text) : list text :=
  match s with
  | [] => [[]]
  | c :: s' =>
      if Ascii.eqb c sep then [] :: split_on sep s'
      else
        match split_on sep s' with
        | first :: others => (c :: first) :: others
        | [] => [[c]]
        end
  end.

(** One constructor for each [yield] of the source; [yielded] is the value
    that reaches the consumer. *)
Inductive token : Type :=
  | OpenTag
  | CloseTag
  | Reasoning (v : jsval)
  | Content (v : jsval).

Definition yielded (t : token) : jsval :=
  match t with
  | OpenTag => JStr (lit "<think>")
  | CloseTag => JStr (lit "</think>")
  | Reasoning v => v
  | Content v => v
  end.

(** what a line of the stream is to the loop *)
Inductive event : Type :=
  | Skip                                  (* [continue], or caught by [catch] *)
  | Done                                  (* the [[DONE]] sentinel *)
  | Deltas (reasoning content : jsval).

(** how the generator finishes: by falling off the end after the reader
    reported [done], by the [return] at the sentinel, or by throwing *)
Inductive completion : Type :=
  | EndOfStream
  | DoneSentinel
  | Threw (error : text).

(** a result of [reader.read()]: a chunk (already decoded), or a rejection
    with the name of the error; the end of the list is [{done: true}] *)
Inductive read : Type :=
  | Chunk (value : text)
  | Rejected (error : text).

Section Demultiplexer.

(** [JSON.parse]; [None] when it throws *)
Variable JSON_parse : text → option jsval.

(** the head of the loop body, up to the two deltas *)
Definition decode (line : text) : event :=
  let trimmed := trim line in
  (* the empty text does not start with the prefix either *)
  match starts_with (lit "data: ") trimmed with
  | None => Skip
  | Some dataStr =>
      if decide (dataStr = lit "[DONE]") then Done
      else
        match json ← JSON_parse dataStr;
              choices ← get "choices" json;
              get0 choices with
        | None => Skip                         (* caught: console.warn *)
        | Some choice =>
            let delta := get_opt "delta" choice in
            Deltas (get_opt "reasoning" delta) (get_opt "content" delta)
        end
  end.

(** the two [if]s of the loop body: the tokens and the new [isReasoning] *)
Definition emit (isReasoning : bool) (reasoning content : jsval)
    : list token * bool :=
  let '(out1, isReasoning1) :=
    if truthy reasoning
    then ((if isReasoning then [] else [OpenTag]) ++ [Reasoning reasoning], true)
    else ([], isReasoning) in
  let '(out2, isReasoning2) :=
    if truthy content
    then ((if isReasoning1 then [CloseTag] else []) ++ [Content content], false)
    else ([], isReasoning1) in
  (out1 ++ out2, isReasoning2).

(** [for (const line of lines)]: the tokens, [isReasoning] afterwards, and
    whether the sentinel made the generator return *)
Fixpoint for_lines (isReasoning : bool) (lines : list text)
    : list token * bool * bool :=
  match lines with
  | [] => ([], isReasoning, false)
  | line :: lines' =>
      match decode line with
      | Skip => for_lines isReasoning lines'
      | Done => ([], isReasoning, true)
      | Deltas reasoning content =>
          let '(out, isReasoning') := emit isReasoning reasoning content in
          let '(out', isReasoning'', returned) := for_lines isReasoning' lines' in
          (out ++ out', isReasoning'', returned)
      end
  end.

(** [while (true)] over the results of [reader.read()] *)
Fixpoint read_loop (reads : list read) (buffer : text) (isReasoning : bool)
    : list token * completion :=
  match reads with
  | [] =>
      (* done: break, then the cleanup after the loop *)
      (if isReasoning then [CloseTag] else [], EndOfStream)
  | Rejected error :: _ =>
      (* caught by the outer [catch] and thrown again *)
      ([], Threw error)
  | Chunk value :: reads' =>
      let lines := split_on LF (buffer ++ value) in
      let buffer' := default [] (last lines) in       (* lines.pop() || '' *)
      let '(out, isReasoning', returned) :=
        for_lines isReasoning (removelast lines) in
      if returned then (out, DoneSentinel)
      else
        let '(out', c) := read_loop reads' buffer' isReasoning' in
        (out ++ out', c)
  end.

(** the generator from [response.body.getReader()] on *)
Definition streamChat (reads : list read) : list token * completion :=
  read_loop reads [] false.

End Demultiplexer.

(** The consumer (the application's [for await] loop) appends every chunk:
    [fullContent += chunk].  [None] when a yielded value is not a string:
    the generator is declared to yield strings, and the conversion that [+=]
    applies to other values is not modelled. *)
Definition append_chunk (fullContent : option text) (chunk : token) : option text :=
  match fullContent, yielded chunk with
  | Some a, JStr s => Some (a ++ s)
  | _, _ => None
  end.

Definition fullContent (tokens : list token) : option text :=
  foldl append_chunk (Some []) tokens.

(** whether the tokens end inside a reasoning span *)
Definition span_step (inside : bool) (t : token) : bool :=
  match t with
  | OpenTag => true
  | CloseTag => false
  | _ => inside
  end.

Definition span_from (inside : bool) (tokens : list token) : bool :=
  foldl span_step inside tokens.

Definition span_open (tokens : list token) : bool := span_from false tokens.

(** a trace is well bracketed when tags alternate, reasoning deltas are
    inside a span, answer deltas outside, and no span is left open *)
Fixpoint well_bracketed_from (inside : bool) (tokens : list token) : bool :=
  match tokens with
  | [] => negb inside
  | OpenTag :: ts => negb inside && well_bracketed_from true ts
  | CloseTag :: ts => inside && well_bracketed_from false ts
  | Reasoning _ :: ts => inside && well_bracketed_from inside ts
  | Content _ :: ts => negb inside && well_bracketed_from inside ts
  end.

Definition well_bracketed (tokens : list token) : bool :=
  well_bracketed_from false tokens.

(** ** Instances of the platform functions, for the closed examples

    [JSON_parse] follows the JSON grammar (ECMA-404); a \u escape is kept as
    the UTF-8 bytes of its code unit.  [URL_hostname] follows the URL
    standard for the URLs of the examples: a scheme is required (a text
    without one makes the constructor throw, there being no base URL), and
    for http, https, ws, wss and ftp the host is what lies between the
    slashes after the scheme and the next slash, question mark or hash,
    without credentials and port, in lower case; hosts that need
    percent-decoding, IDNA or the IPv4 and IPv6 parsers are not covered. *)
Module Platform.

Definition is_json_space (c : ascii) : bool :=
  let n := nat_of_ascii c in
  Nat.eqb n 32 || Nat.eqb n 9 || Nat.eqb n 10 || Nat.eqb n 13.

Definition hex_value (c : ascii) : option nat :=
  let n := nat_of_ascii c in
  if Nat.leb 48 n && Nat.leb n 57 then Some (n - 48)
  else if Nat.leb 65 n && Nat.leb n 70 then Some (n - 55)
  else if Nat.leb 97 n && Nat.leb n 102 then Some (n - 87)
  else None.

Definition utf8 (code : nat) : text :=
  if Nat.ltb code 128 then [ascii_of_nat code]
  else if Nat.ltb code 2048 then
    [ascii_of_nat (192 + code / 64); ascii_of_nat (128 + code mod 64)]
  else
    [ascii_of_nat (224 + code / 4096);
     ascii_of_nat (128 + (code / 64) mod 64);
     ascii_of_nat (128 + code mod 64)].

(** the characters of a string literal after its opening quote *)
Fixpoint string_body (s : text) : option (text * text) :=
  match s with
  | [] => None
  | c :: r =>
      if Ascii.eqb c dquote then Some ([], r)
      else if Ascii.eqb c "\" then
        match r with
        | "u"%char :: h1 :: h2 :: h3 :: h4 :: r' =>
            a ← hex_value h1; b ← hex_value h2;
            c ← hex_value h3; d ← hex_value h4;
            '(body, rest) ← string_body r';
            Some (utf8 (((a * 16 + b) * 16 + c) * 16 + d) ++ body, rest)
        | e :: r' =>
            ch ← (if Ascii.eqb e dquote then Some dquote
                  else if Ascii.eqb e "\" then Some "\"%char
                  else if Ascii.eqb e "/" then Some "/"%char
                  else if Ascii.eqb e "b" then Some "008"%char
                  else if Ascii.eqb e "f" then Some "012"%char
                  else if Ascii.eqb e "n" then Some "010"%char
                  else if Ascii.eqb e "r" then Some "013"%char
                  else if Ascii.eqb e "t" then Some "009"%char
                  else None);
            '(body, rest) ← string_body r';
            Some (ch :: body, rest)
        | [] => None
        end
      else if Nat.ltb (nat_of_ascii c) 32 then None
      else '(body, rest) ← string_body r; Some (c :: body, rest)
  end.

Definition digits1 (s : text) : option (text * text) :=
  let ds := take_while is_digit s in
  if decide (ds = []) then None else Some (ds, drop_while is_digit s).

(** the lexeme of a number and the rest *)
Definition number (s : text) : option (text * text) :=
  let '(sign, s1) :=
    match s with "-"%char :: r => (lit "-", r) | _ => ([], s) end in
  '(int, s2) ←
    match s1 with
    | "0"%char :: r => Some (lit "0", r)
    | _ => digits1 s1
    end;
  '(frac, s3) ←
    match s2 with
    | "."%char :: r => '(ds, r') ← digits1 r; Some ("."%char :: ds, r')
    | _ => Some ([], s2)
    end;
  '(exp, s4) ←
    match s3 with
    | e :: r =>
        if Ascii.eqb e "e" || Ascii.eqb e "E" then
          match r with
          | sg :: r' =>
              if Ascii.eqb sg "+" || Ascii.eqb sg "-" then
                '(ds, r'') ← digits1 r'; Some (e :: sg :: ds, r'')
              else '(ds, r'') ← digits1 r; Some (e :: ds, r'')
          | [] => None
          end
        else Some ([], s3)
    | [] => Some ([], s3)
    end;
  Some (sign ++ int ++ frac ++ exp, s4).

Fixpoint value (fuel : nat) (s : text) : option (jsval * text) :=
  match fuel with
  | 0 => None
  | S fuel' =>
      match drop_while is_json_space s with
      | "{"%char :: r =>
          match drop_while is_json_space r with
          | "}"%char :: r' => Some (JObj [], r')
          | r' => '(ms, rest) ← members fuel' r'; Some (JObj ms, rest)
          end
      | "["%char :: r =>
          match drop_while is_json_space r with
          | "]"%char :: r' => Some (JArr [], r')
          | r' => '(vs, rest) ← elements fuel' r'; Some (JArr vs, rest)
          end
      | s' =>
          match starts_with [dquote] s', starts_with (lit "true") s',
                starts_with (lit "false") s', starts_with (lit "null") s' with
          | Some r, _, _, _ => '(str, rest) ← string_body r; Some (JStr str, rest)
          | _, Some rest, _, _ => Some (JBool true, rest)
          | _, _, Some rest, _ => Some (JBool false, rest)
          | _, _, _, Some rest => Some (JNull, rest)
          | _, _, _, _ => '(lexeme, rest) ← number s'; Some (JNum lexeme, rest)
          end
      end
  end
with elements (fuel : nat) (s : text) : option (list jsval * text) :=
  match fuel with
  | 0 => None
  | S fuel' =>
      '(v, r) ← value fuel' s;
      match drop_while is_json_space r with
      | ","%char :: r' => '(vs, rest) ← elements fuel' r'; Some (v :: vs, rest)
      | "]"%char :: r' => Some ([v], r')
      | _ => None
      end
  end
with members (fuel : nat) (s : text) : option (list (text * jsval) * text) :=
  match fuel with
  | 0 => None
  | S fuel' =>
      r ← starts_with [dquote] (drop_while is_json_space s);
      '(key, r1) ← string_body r;
      match drop_while is_json_space r1 with
      | ":"%char :: r2 =>
          '(v, r3) ← value fuel' r2;
          match drop_while is_json_space r3 with
          | ","%char :: r4 =>
              '(ms, rest) ← members fuel' r4; Some ((key, v) :: ms, rest)
          | "}"%char :: r4 => Some ([(key, v)], r4)
          | _ => None
          end
      | _ => None
      end
  end.

Definition JSON_parse (s : text) : option jsval :=
  '(v, rest) ← value (2 * length s + 2) s;
  if decide (drop_while is_json_space rest = []) then Some v else None.

Definition lower (c : ascii) : ascii :=
  let n := nat_of_ascii c in
  if Nat.leb 65 n && Nat.leb n 90 then ascii_of_nat (n + 32) else c.

Definition is_alpha (c : ascii) : bool :=
  let n := nat_of_ascii (lower c) in Nat.leb 97 n && Nat.leb n 122.

Definition is_scheme_char (c : ascii) : bool :=
  is_alpha c || is_digit c || negb (not_in (lit "+-.") c).

(** the text after the last occurrence of [c], when there is one *)
Definition after_last (c : ascii) (s : text) : option text :=
  match split_on c s with
  | [_] | [] => None
  | parts => last parts
  end.

Definition URL_hostname (u : text) : option text :=
  match u with
  | c :: _ =>
      if is_alpha c then
        let sch := lower <$> take_while is_scheme_char u in
        match drop_while is_scheme_char u with
        | ":"%char :: r =>
            if bool_decide (sch ∈ lit <$> ["http"; "https"; "ws"; "wss"; "ftp"]%string)
            then
              let is_slash := λ c, negb (not_in (lit "/\") c) in
              let authority :=
                take_while (not_in (lit "/\?#")) (drop_while is_slash r) in
              let hostport := default authority (after_last "@" authority) in
              let host := take_while (not_in (lit ":")) hostport in
              let port := drop 1 (drop_while (not_in (lit ":")) hostport) in
              if bool_decide (host = []) then None
              else if forallb is_digit port then Some (lower <$> host)
              else None
            else
              match r with
              | "/"%char :: "/"%char :: r' =>
                  let authority := take_while (not_in (lit "/?#")) r' in
                  let hostport := default authority (after_last "@" authority) in
                  Some (take_while (not_in (lit ":")) hostport)
              | _ => Some []
              end
        | _ => None
        end
      else None
  | [] => None
  end.

End Platform.

(** ** A statement of the specification that the code does not follow

    Written from the text of the specification, with the wording of the
    labels of the code, to be compared with [active_of]. *)

(** The status of section 4.2, step 5: the most recent activity; for a url
    the host without a leading www., and the literal value when no host
    can be extracted. *)
Definition claimed_status (URL_hostname : text → option text)
    (isLive : bool) (activities : list SearchAction) : text :=
  if isLive then
    match last activities with
    | Some a =>
        match type a with
        | query => lit "Searching Google for " ++ [dquote] ++ content a ++ [dquote]
        | url =>
            lit "Reading content from "
            ++ match URL_hostname (content a) with
               | Some host => default host (starts_with (lit "www.") host)
               | None => content a
               end
            ++ lit "..."
        end
    | None => lit "Thinking Process"
    end
  else lit "Thought Process".

(** ** Vocabulary of the statements *)

(** an activity of the specification: a kind and a value *)
Definition activities (p : parsed) : list (action_type * text) :=
  (λ a, (type a, content a)) <$> searchActions p.

Definition all_space (s : text) : Prop := Forall (λ c, is_space c = true) s.

(** the complete lines of a text, and what follows its last separator *)
Definition lines_of (sep : ascii) (s : text) : list text :=
  removelast (split_on sep s).
Definition rest_of (sep : ascii) (s : text) : text :=
  default [] (last (split_on sep s)).

Definition is_skip (ev : event) : bool :=
  match ev with Skip => true | _ => false end.

(** the events of a text of the stream: what its complete lines decode to,
    without the lines that are skipped *)
Definition events_of (JSON_parse : text → option jsval) (s : text) : list event :=
  List.filter (λ ev, negb (is_skip ev)) (decode JSON_parse <$> lines_of LF s).

(** an event that carries only the reasoning delta [r], or only the answer
    delta [a]: the delta is a non-empty string, the other one is falsy *)
Definition reasoning_only (r : text) (ev : event) : Prop :=
  r ≠ [] ∧ ∃ c, truthy c = false ∧ ev = Deltas (JStr r) c.
Definition answer_only (a : text) (ev : event) : Prop :=
  a ≠ [] ∧ ∃ r, truthy r = false ∧ ev = Deltas r (JStr a).

(** a record of the stream whose payload cannot be used: it is a data line,
    not the sentinel, and [JSON.parse] or the access to [choices[0]] throws *)
Definition malformed (JSON_parse : text → option jsval) (record : text) : Prop :=
  ∃ dataStr,
    starts_with (lit "data: ") (trim record) = Some dataStr
    ∧ dataStr ≠ lit "[DONE]"
    ∧ (json ← JSON_parse dataStr; choices ← get "choices" json; get0 choices) = None.

(** ** Invariants and auxiliary notions of the proofs *)

(** [seenContent] is the set of the contents of [extractedActions], and no
    content is there twice *)
Definition consistent (st : loop_state) : Prop :=
  (∀ v, v ∈ st.1 ↔ v ∈ content <$> st.2) ∧ NoDup (content <$> st.2).

(** the loop over the lines, on what the lines decode to *)
Fixpoint for_events (isReasoning : bool) (events : list event)
    : list token * bool * bool :=
  match events with
  | [] => ([], isReasoning, false)
  | Skip :: events' => for_events isReasoning events'
  | Done :: _ => ([], isReasoning, true)
  | Deltas reasoning content :: events' =>
      let '(out, isReasoning') := emit isReasoning reasoning content in
      let '(out', isReasoning'', returned) := for_events isReasoning' events' in
      (out ++ out', isReasoning'', returned)
  end.

(** the text of a structured marker: the key in double quotes, a colon,
    white space and the value in double quotes *)
Definition marker_text (key ws v : text) : text :=
  [dquote] ++ key ++ [dquote] ++ lit ":" ++ ws ++ [dquote] ++ v ++ [dquote].

(** the number of double quotes of a text *)
Definition quotes (s : text) : nat := length (filter (λ c, c = dquote) s).

(** a pattern whose capture is a block of the text it matches, after an
    opening parenthesis *)
Definition wraps (M : matcher text) : Prop :=
  ∀ s g rest, M s = Some (g, rest) →
    ∃ pre post, s = (lit "(" ++ pre) ++ g ++ post ++ rest.

(** ** The display helpers and the view of MarkdownRenderer *)

(** [url.replace(/^https?:\/\/(www\.)?/, '')]: the optional group is taken
    when the text goes on with www. *)
Definition strip_protocol (u : text) : text :=
  match scheme u with
  | Some (_, rest) =>
      match starts_with (lit "www.") rest with
      | Some rest' => rest'
      | None => rest
      end
  | None => u
  end.

(** [s.replace(/\/$/, '')]: without the flag [m] the anchor is the end of
    the text *)
Definition strip_slash (s : text) : text :=
  match last s with
  | Some c => if Ascii.eqb c "/" then removelast s else s
  | None => s
  end.

(** [replace] does not throw on a string: the [catch] is never entered *)
Definition formatDisplayUrl (u : text) : text :=
  strip_slash (strip_protocol u).

(** [thought.length > 0 || searchActions.length > 0] *)
Definition hasThoughts (p : parsed) : bool :=
  Nat.ltb 0 (length (thought p)) || Nat.ltb 0 (length (searchActions p)).

(** [isThinking && !main] *)
Definition isThinkingActive (isThinking : bool) (p : parsed) : bool :=
  isThinking && bool_decide (main p = []).

(** the line of a search action in the activity feed *)
Definition feed_line (action : SearchAction) : text :=
  formatDisplayUrl (content action).

(** what the component returns: the placeholder of the pondering state, or
    the two conditional sections *)
Record thought_section : Type := {
  spinner : bool;                    (* isThinkingActive: the spinning icon *)
  status : text;                     (* activeAction, the header *)
  feed : list text;                  (* expanded: a line for each action *)
  reasoning : text                   (* expanded: the thought text *)
}.

Inductive rendering : Type :=
  | Placeholder
  | Sections (thoughts : option thought_section) (markdown : option text).

Section View.

Variable URL_hostname : text → option text.

Definition render (content : text) (isThinking : bool) : rendering :=
  let p := parse URL_hostname content isThinking in
  if isThinking && Nat.eqb (length (trim content)) 0 then Placeholder
  else
    Sections
      (if hasThoughts p
       then Some {| spinner := isThinkingActive isThinking p;
                    status := activeAction p;
                    feed := feed_line <$> searchActions p;
                    reasoning := thought p |}
       else None)
      (match main p with [] => None | _ :: _ => Some (main p) end).

(** *** The link renderer *)

(** a child of a React element: a string or something else *)
Inductive child : Type :=
  | Str (s : text)
  | Element.

(** [children]: an array of children, or a single value that is not an
    array *)
Inductive children_prop : Type :=
  | Array (l : list child)
  | Single (c : child).

Inductive link : Type :=
  | Span                                         (* no href: not a link *)
  | Anchor (href domain : text) (contentToDisplay : option text).
                                                 (* [None]: the children *)

Definition a (href : option text) (children : children_prop) : link :=
  match href with
  | None | Some [] => Span
  | Some href =>
      let domain := getDomain URL_hostname href in
      let displayUrl := formatDisplayUrl href in
      Anchor href domain
        match children with
        | Array (Str childText :: _) =>
            if includes (lit "http") childText
               || includes (lit "www.") childText
               || Nat.ltb 20 (length childText)
            then Some displayUrl
            else None
        | _ => None
        end
  end.

End View.

(** *** The code renderer *)

(** [\w] *)
Definition is_word (c : ascii) : bool :=
  let n := nat_of_ascii c in
  (Nat.leb 48 n && Nat.leb n 57) || (Nat.leb 65 n && Nat.leb n 90)
  || (Nat.leb 97 n && Nat.leb n 122) || Nat.eqb n 95.

(** [/language-(\w+)/]: the run of word characters is as long as it can
    be, nothing follows it *)
Definition languageRegex : matcher text := λ s,
  r ← starts_with (lit "language-") s;
  match take_while is_word r with
  | [] => None
  | w => Some (w, drop_while is_word r)
  end.

(** [re.exec(s)] of an expression without the flag [g]: the match at the
    leftmost position that has one *)
Fixpoint exec {A} (M : matcher A) (s : text) : option A :=
  match M s with
  | Some (a, _) => Some a
  | None =>
      match s with
      | [] => None
      | _ :: s' => exec M s'
      end
  end.

Inductive code_view : Type :=
  | InlineCode
  | Block (label : text).

(** [children] is the text of the code *)
Definition code (className : option text) (children : text) : code_view :=
  let match_ := exec languageRegex (default [] className) in
  let isInline :=
    bool_decide (match_ = None) && negb (includes [LF] children) in
  if isInline then InlineCode
  else Block (default (lit "text") match_).

(** ** The types of the application (types.ts) *)

Module Types.

Inductive Role : Type := User | Assistant | System.

Global Instance Role_eq_dec : EqDecision Role.
Proof. solve_decision. Defined.

(** ['image' | 'text' | 'file'] *)
Inductive AttachmentType : Type := image | textual | file.

Global Instance AttachmentType_eq_dec : EqDecision AttachmentType.
Proof. solve_decision. Defined.

Module Attachment.
Record t : Type := {
  id : text;
  type : AttachmentType;
  name : text;
  content : text;
  mimeType : option text
}.
End Attachment.

Module Message.
Record t : Type := {
  id : text;
  role : Role;
  content : text;
  timestamp : Z;
  attachments : option (list Attachment.t);
  thought : option text;
  isError : option bool;
  isThinking : option bool
}.
End Message.

Module ChatSession.
Record t : Type := {
  id : text;
  title : text;
  messages : list Message.t;
  modelId : text;
  lastModified : Z
}.
End ChatSession.

Module OpenRouterModel.
Record t : Type := {
  id : text;
  name : text;
  description : option text;
  context_length : option Z;
  pricing : option (text * text)       (* prompt, completion *)
}.
End OpenRouterModel.

End Types.

(** ** The request of OpenRouterService.streamChat

    The part of [streamChat] before the request is sent: the messages of
    the conversation are mapped to the messages of the API, with the custom
    instructions and the web search instruction as system messages. *)

Module Service.
Import Types.

(** a part of a multimodal content *)
Inductive part : Type :=
  | text_part (text : text)
  | image_url (url : text).

(** [content]: a string or an array of parts *)
Inductive api_content : Type :=
  | plain (s : text)
  | parts (contentParts : list part).

Record api_message : Type := {
  role : Role;
  content : api_content
}.

Definition searchInstruction : text :=
  lit " [WEB SEARCH REQUIRED: Use the web search tool/plugin to answer the user's query with up-to-date information. Do not guess. Search for the latest data. IMPORTANT: When providing links/citations, always place them at the END of the sentence or paragraph. Do not start sentences with a citation link.]".

(** the body of [m.attachments.forEach] *)
Definition attachment_part (att : Attachment.t) : part :=
  match Attachment.type att with
  | image => image_url (Attachment.content att)
  | textual | file =>
      text_part ([LF; LF] ++ lit "--- File: " ++ Attachment.name att
                 ++ lit " ---" ++ [LF] ++ Attachment.content att ++ [LF]
                 ++ lit "--- End File ---")
  end.

(** the function mapped over the history *)
Definition historyMessage (m : Message.t) : api_message :=
  match Message.attachments m with
  | Some ((_ :: _) as attachments) =>
      if decide (Message.role m = User) then
        let contentParts :=
          match Message.content m with
          | [] => []
          | _ :: _ => [text_part (Message.content m)]
          end in
        {| role := Message.role m;
           content := parts (contentParts ++ (attachment_part <$> attachments)) |}
      else {| role := Message.role m; content := plain (Message.content m) |}
  | _ => {| role := Message.role m; content := plain (Message.content m) |}
  end.

(** [apiMessages[systemMsgIndex].content += searchInstruction], when the
    content is a string *)
Definition append_instruction (m : api_message) : api_message :=
  match content m with
  | plain existingContent =>
      {| role := role m; content := plain (existingContent ++ searchInstruction) |}
  | parts _ => m
  end.

(** the system message of the custom instructions:
    [if (customInstructions && customInstructions.trim())] *)
Definition instructions (customInstructions : text) : list api_message :=
  match customInstructions, trim customInstructions with
  | _ :: _, _ :: _ =>
      [{| role := System; content := plain (trim customInstructions) |}]
  | _, _ => []
  end.

Definition apiMessages (messages : list Message.t) (webSearchEnabled : bool)
    (customInstructions : text) : list api_message :=
  let apiMessages :=
    instructions customInstructions ++ (historyMessage <$> messages) in
  if webSearchEnabled then
    match list_find (λ m, role m = System) apiMessages with
    | Some (systemMsgIndex, _) => alter append_instruction systemMsgIndex apiMessages
    | None =>
        {| role := System;
           content := plain (lit "You are a helpful assistant." ++ searchInstruction) |}
        :: apiMessages
    end
  else apiMessages.

(** the body of the request *)
Record body : Type := {
  model : text;
  messages : list api_message;
  stream : bool;
  plugins : option (list text)
}.

Definition request (messages : list Message.t) (modelId : text)
    (webSearchEnabled : bool) (customInstructions : text) : body :=
  {| model := modelId;
     messages := apiMessages messages webSearchEnabled customInstructions;
     stream := true;
     plugins := if webSearchEnabled then Some [lit "web"] else None |}.

(** the address of an image part *)
Definition image_of (p : part) : option text :=
  match p with
  | image_url address => Some address
  | text_part _ => None
  end.

End Service.

(** ** The application (App): the sessions and the consumer of the stream

    The state of the component that the functions below read and write is
    the table of the sessions and the identifier of the current session.
    Each function takes the values that the source draws from the platform
    ([uuidv4()], [Date.now()]) as arguments.  An updater passed to
    [setSessions] is a function on the table; the handlers run with no
    other update pending, so the table they read is the table their
    updaters receive. *)

Module App.
Import Types.

Abbreviation sessions_table := (gmap text ChatSession.t).

(** [toLowerCase], as the comparisons of the application see it: the
    letters A to Z are lowered.  The texts that the lowered text is compared
    with are ASCII, and no other character of the model is lowered to an
    ASCII character. *)
Definition toLowerCase (s : text) : text := Platform.lower <$> s.

(** the normalisation of the API key, in the initial effect and in
    [handleSettingsSubmit] *)
Definition normalize_key (key : text) : text :=
  let trimmedKey := trim key in
  match starts_with (lit "bearer ") (toLowerCase trimmedKey) with
  | Some _ => trim (drop 7 trimmedKey)
  | None => trimmedKey
  end.

(** [deleteSession] *)
Definition deleteSession (id : text)
    (st : sessions_table * option text) : sessions_table * option text :=
  let '(sessions, currentSessionId) := st in
  (delete id sessions,
   if decide (currentSessionId = Some id) then None else currentSessionId).

(** [Array.prototype.sort] with a comparison function, [before a b] being
    that the comparison of [a] with [b] is negative.  The sort is stable:
    an element stays in front of the later elements that are not ordered
    before it. *)
Fixpoint insert_by {A} (before : A → A → bool) (x : A) (l : list A) : list A :=
  match l with
  | [] => [x]
  | y :: l' => if before y x then y :: insert_by before x l' else x :: l
  end.

Definition sort_by {A} (before : A → A → bool) (l : list A) : list A :=
  foldr (insert_by before) [] l.

(** [sortedSessions], from [Object.values(sessions)]; the comparison
    [b.lastModified - a.lastModified] is negative when [a] is the later
    one *)
Definition sortedSessions (values : list ChatSession.t) : list ChatSession.t :=
  sort_by (λ a b, Z.ltb (ChatSession.lastModified b - ChatSession.lastModified a) 0)
    (filter (λ s, 0 < length (ChatSession.messages s)) values).

(** *** generateResponse *)

Definition with_messages (messages : list Message.t) (s : ChatSession.t)
    : ChatSession.t :=
  {| ChatSession.id := ChatSession.id s;
     ChatSession.title := ChatSession.title s;
     ChatSession.messages := messages;
     ChatSession.modelId := ChatSession.modelId s;
     ChatSession.lastModified := ChatSession.lastModified s |}.

(** the updater of the four [setSessions] calls that rewrite the message
    with the identifier [assistantMsgId] *)
Definition update_message (sessionId assistantMsgId : text)
    (f : Message.t → Message.t) (prev : sessions_table) : sessions_table :=
  match prev !! sessionId with
  | None => prev
  | Some sess =>
      let msgs := ChatSession.messages sess in
      let msgs' :=
        match list_find (λ m, Message.id m = assistantMsgId) msgs with
        | Some (lastMsgIndex, _) => alter f lastMsgIndex msgs
        | None => msgs
        end in
      <[sessionId := with_messages msgs' sess]> prev
  end.

Definition streaming (fullContent : text) (m : Message.t) : Message.t :=
  {| Message.id := Message.id m;
     Message.role := Message.role m;
     Message.content := fullContent;
     Message.timestamp := Message.timestamp m;
     Message.attachments := Message.attachments m;
     Message.thought := Message.thought m;
     Message.isError := Message.isError m;
     Message.isThinking := Some true |}.

Definition stopped (m : Message.t) : Message.t :=
  {| Message.id := Message.id m;
     Message.role := Message.role m;
     Message.content := Message.content m;
     Message.timestamp := Message.timestamp m;
     Message.attachments := Message.attachments m;
     Message.thought := Message.thought m;
     Message.isError := Message.isError m;
     Message.isThinking := Some false |}.

Definition failed (errorMessage : text) (m : Message.t) : Message.t :=
  {| Message.id := Message.id m;
     Message.role := Message.role m;
     Message.content := lit "Error: " ++ errorMessage;
     Message.timestamp := Message.timestamp m;
     Message.attachments := Message.attachments m;
     Message.thought := Message.thought m;
     Message.isError := Some true;
     Message.isThinking := Some false |}.

Definition assistantPlaceholder (assistantMsgId : text) (now : Z) : Message.t :=
  {| Message.id := assistantMsgId;
     Message.role := Assistant;
     Message.content := [];
     Message.timestamp := now + 1;
     Message.attachments := None;
     Message.thought := None;
     Message.isError := None;
     Message.isThinking := Some true |}.

(** the first updater: the history and the placeholder *)
Definition place (sessionId : text) (history : list Message.t)
    (placeholder : Message.t) (now : Z) (prev : sessions_table) : sessions_table :=
  match prev !! sessionId with
  | None => prev
  | Some session =>
      <[sessionId :=
          {| ChatSession.id := ChatSession.id session;
             ChatSession.title := ChatSession.title session;
             ChatSession.messages := history ++ [placeholder];
             ChatSession.modelId := ChatSession.modelId session;
             ChatSession.lastModified := now |}]> prev
  end.

(** the body of [for await (const chunk of stream)] *)
Definition on_chunk (sessionId assistantMsgId : text)
    (acc : text * sessions_table) (chunk : text) : text * sessions_table :=
  let fullContent := acc.1 ++ chunk in
  (fullContent,
   update_message sessionId assistantMsgId (streaming fullContent) acc.2).

(** how the iteration of the stream ends: the generator returns, or it
    throws an error with a name and a message.  The chunks are strings, as
    the generator is declared to yield. *)
Inductive outcome : Type :=
  | Returned
  | Thrown (name message : text).

(** the sessions while the stream is read, after the chunks [chunks];
    [now] and [now'] are the two readings of the clock *)
Definition streamed (sessionId : text) (history : list Message.t)
    (assistantMsgId : text) (now now' : Z)
    (chunks : list text) (prev : sessions_table) : sessions_table :=
  let placed :=
    place sessionId history (assistantPlaceholder assistantMsgId now) now' prev in
  (foldl (on_chunk sessionId assistantMsgId) ([], placed) chunks).2.

(** the sessions after [generateResponse]; [chunks] is what the stream
    yields before it ends *)
Definition generateResponse (sessionId : text) (history : list Message.t)
    (assistantMsgId : text) (now now' : Z)
    (chunks : list text) (end_ : outcome) (prev : sessions_table) : sessions_table :=
  let streamed :=
    streamed sessionId history assistantMsgId now now' chunks prev in
  match end_ with
  | Returned => update_message sessionId assistantMsgId stopped streamed
  | Thrown name message =>
      let errorMessage :=
        match message with
        | [] => lit "Failed to generate response."
        | _ :: _ => message
        end in
      if decide (name = lit "AbortError")
      then update_message sessionId assistantMsgId stopped streamed
      else update_message sessionId assistantMsgId (failed errorMessage) streamed
  end.

(** whether the [catch] block removes the API key and opens the settings *)
Definition key_rejected (message : text) : bool :=
  let errorMessage :=
    match message with
    | [] => lit "Failed to generate response."
    | _ :: _ => message
    end in
  includes (lit "user not found") (toLowerCase errorMessage)
  || includes (lit "unauthorized") (toLowerCase errorMessage)
  || includes (lit "invalid api key") (toLowerCase errorMessage).

(** *** The handlers that start a generation

    Each handler is the table it leaves and the arguments of its call of
    [generateResponse]; [None] when it returns at a guard.  [ready] is
    [!isGenerating && serviceRef.current]. *)

(** the updater [{...prev, [id]: {...prev[id], messages: history}}]; the
    session is in the table at each use *)
Definition set_history (sessionId : text) (history : list Message.t)
    (prev : sessions_table) : sessions_table :=
  match prev !! sessionId with
  | Some sess => <[sessionId := with_messages history sess]> prev
  | None => prev
  end.

Definition handleRegenerate (ready : bool) (currentSessionId : option text)
    (sessions : sessions_table)
    : option (sessions_table * text * list Message.t) :=
  match currentSessionId with
  | Some ((_ :: _) as currentSessionId) =>
      if ready then
        match sessions !! currentSessionId with
        | Some session =>
            match last (ChatSession.messages session) with
            | None => None
            | Some lastMsg =>
                let history :=
                  if decide (Message.role lastMsg = Assistant)
                  then removelast (ChatSession.messages session)
                  else ChatSession.messages session in
                Some (set_history currentSessionId history sessions,
                      currentSessionId, history)
            end
        | None => None
        end
      else None
  | _ => None                          (* null, or the empty text *)
  end.

Definition handleEdit (ready : bool) (currentSessionId : option text)
    (newId : text) (messageId newContent : text) (sessions : sessions_table)
    : option (sessions_table * text * list Message.t) :=
  match currentSessionId with
  | Some ((_ :: _) as currentSessionId) =>
      if ready then
        match sessions !! currentSessionId with
        | Some session =>
            match list_find (λ m, Message.id m = messageId)
                    (ChatSession.messages session) with
            | None => None
            | Some (msgIndex, msg) =>
                let updatedMsg :=
                  {| Message.id := newId;
                     Message.role := Message.role msg;
                     Message.content := newContent;
                     Message.timestamp := Message.timestamp msg;
                     Message.attachments := Message.attachments msg;
                     Message.thought := Message.thought msg;
                     Message.isError := Message.isError msg;
                     Message.isThinking := Message.isThinking msg |} in
                let history :=
                  take msgIndex (ChatSession.messages session) ++ [updatedMsg] in
                Some (set_history currentSessionId history sessions,
                      currentSessionId, history)
            end
        | None => None
        end
      else None
  | _ => None                          (* null, or the empty text *)
  end.

(** [handleSendMessage]; [newSessionId] and [userMsgId] are the two
    identifiers drawn, [now] and [now'] the two readings of the clock *)
Definition handleSendMessage (ready : bool) (inputMessage : text)
    (attachments : list Attachment.t) (selectedModelId : text)
    (newSessionId userMsgId : text) (now now' : Z)
    (st : sessions_table * option text)
    : option (sessions_table * option text * text * list Message.t) :=
  let '(sessions, currentSessionId) := st in
  if (bool_decide (trim inputMessage = []) && Nat.eqb (length attachments) 0)
     || negb ready
  then None
  else
    let existing :=
      match currentSessionId with
      | Some ((_ :: _) as id) =>
          match sessions !! id with Some s => Some (id, s) | None => None end
      | _ => None
      end in
    let '(sessionId, sessions1, currentSessionId1) :=
      match existing with
      | Some (id, _) => (id, sessions, currentSessionId)
      | None =>
          let newSession :=
            {| ChatSession.id := newSessionId;
               ChatSession.title :=
                 match take 30 inputMessage with
                 | [] => lit "New Chat"
                 | t => t
                 end;
               ChatSession.messages := [];
               ChatSession.modelId := selectedModelId;
               ChatSession.lastModified := now |} in
          (newSessionId, <[newSessionId := newSession]> sessions, Some newSessionId)
      end in
    let userMsg :=
      {| Message.id := userMsgId;
         Message.role := User;
         Message.content := inputMessage;
         Message.timestamp := now';
         Message.attachments := Some attachments;
         Message.thought := None;
         Message.isError := None;
         Message.isThinking := None |} in
    let sessions2 :=
      match sessions1 !! sessionId with
      | None => sessions1
      | Some sess =>
          let title :=
            match ChatSession.messages sess with
            | [] =>
                match take 30 (Message.content userMsg) with
                | [] => lit "Image Chat"
                | t => t
                end
            | _ :: _ => ChatSession.title sess
            end in
          <[sessionId :=
              {| ChatSession.id := ChatSession.id sess;
                 ChatSession.title := title;
                 ChatSession.messages := ChatSession.messages sess;
                 ChatSession.modelId := selectedModelId;
                 ChatSession.lastModified := ChatSession.lastModified sess |}]>
            sessions1
      end in
    (* [sessions] is the table of the last rendering: the new session is
       not in it *)
    let history :=
      match sessions !! sessionId with
      | Some currentSession => ChatSession.messages currentSession
      | None => []
      end ++ [userMsg] in
    Some (set_history sessionId history sessions2, currentSessionId1,
          sessionId, history).

(** a handler followed by the generation it starts *)
Definition then_generate
    (started : option (sessions_table * text * list Message.t))
    (assistantMsgId : text) (now now' : Z) (chunks : list text) (end_ : outcome)
    : option sessions_table :=
  '(sessions, sessionId, history) ← started;
  Some (generateResponse sessionId history assistantMsgId now now' chunks end_
          sessions).

(** how a message of the conversation is shown: the content and the flag
    go to MarkdownRenderer, a missing flag counts as false *)
Definition message_view (URL_hostname : text → option text) (msg : Message.t)
    : rendering :=
  render URL_hostname (Message.content msg) (default false (Message.isThinking msg)).

End App.

(** ** The model selector (components/ModelSelector.tsx) *)

Module Selector.
Import Types.

Section Filter.

(** [String.prototype.toLowerCase] *)
Variable toLowerCase : text → text.

Definition filteredModels (models : list OpenRouterModel.t) (search : text)
    : list OpenRouterModel.t :=
  match search with
  | [] => models
  | _ :: _ =>
      let lower := toLowerCase search in
      filter (λ m, includes lower (toLowerCase (OpenRouterModel.name m))
                   || includes lower (toLowerCase (OpenRouterModel.id m)))
        models
  end.

End Filter.

(** [models.find(m => m.id === selectedModelId)] *)
Definition selectedModel (models : list OpenRouterModel.t)
    (selectedModelId : text) : option OpenRouterModel.t :=
  snd <$> list_find (λ m, OpenRouterModel.id m = selectedModelId) models.

(** the provider under the name of the model: [id.split('/')[0]] *)
Definition provider (id : text) : text :=
  default [] (head (split_on "/" id)).

End Selector.

(** ** Auxiliary notions of the proofs about the application *)

(** no white space at either end *)
Definition tight (s : text) : Prop :=
  (∀ c, head s = Some c → is_space c = false)
  ∧ (∀ c, last s = Some c → is_space c = false).

(** every element is followed by elements with keys that are not greater *)
Fixpoint descending {A} (key : A → Z) (l : list A) : Prop :=
  match l with
  | [] => True
  | x :: l' => Forall (λ y, (key y ≤ key x)%Z) l' ∧ descending key l'
  end.

(** the session while a generation runs and after it: the history and the
    message of the assistant *)
Definition generating (session : Types.ChatSession.t)
    (history : list Types.Message.t) (answer : Types.Message.t) (now' : Z)
    : Types.ChatSession.t :=
  {| Types.ChatSession.id := Types.ChatSession.id session;
     Types.ChatSession.title := Types.ChatSession.title session;
     Types.ChatSession.messages := history ++ [answer];
     Types.ChatSession.modelId := Types.ChatSession.modelId session;
     Types.ChatSession.lastModified := now' |}.

(** ** Values of the closed examples *)

Definition example_message (id : text) (role : Types.Role) (content : text)
    (attachments : option (list Types.Attachment.t)) : Types.Message.t :=
  {| Types.Message.id := id;
     Types.Message.role := role;
     Types.Message.content := content;
     Types.Message.timestamp := 0;
     Types.Message.attachments := attachments;
     Types.Message.thought := None;
     Types.Message.isError := None;
     Types.Message.isThinking := None |}.

Definition example_session (id : text) (messages : list Types.Message.t)
    (lastModified : Z) : Types.ChatSession.t :=
  {| Types.ChatSession.id := id;
     Types.ChatSession.title := lit "Chat";
     Types.ChatSession.messages := messages;
     Types.ChatSession.modelId := lit "openai/gpt-4o";
     Types.ChatSession.lastModified := lastModified |}.

Definition example_model (id name : text) : Types.OpenRouterModel.t :=
  {| Types.OpenRouterModel.id := id;
     Types.OpenRouterModel.name := name;
     Types.OpenRouterModel.description := None;
     Types.OpenRouterModel.context_length := None;
     Types.OpenRouterModel.pricing := None |}.

(** * Properties *)

(** ** Text *)

Lemma starts_with_Some (p s r : text) :
  starts_with p s = Some r ↔ s = p ++ r.
Proof.
  revert s. induction p as [|a p IH]; intros s; simpl.
  - split; [intros [= ->]; done | intros ->; done].
  - destruct s as [|b s]; [split; intros; discriminate|].
    destruct (Ascii.eqb a b) eqn:E.
    + apply Ascii.eqb_eq in E as ->. rewrite IH. split; [intros ->; done | intros [= ->]; done].
    + apply Ascii.eqb_neq in E. split; [discriminate | intros [= -> _]; done].
Qed.

Lemma starts_with_app (p r : text) : starts_with p (p ++ r) = Some r.
Proof. by apply starts_with_Some. Qed.

Lemma starts_with_None (p s : text) :
  starts_with p s = None ↔ ∀ r, s ≠ p ++ r.
Proof.
  split.
  - intros H r ->. by rewrite starts_with_app in H.
  - intros H. destruct (starts_with p s) as [r|] eqn:E; [|done].
    apply starts_with_Some in E. by destruct (H r).
Qed.

Lemma take_drop_while (p : ascii → bool) (s : text) :
  take_while p s ++ drop_while p s = s.
Proof. induction s as [|c s IH]; simpl; [done|]. destruct (p c); simpl; by f_equal. Qed.

Lemma take_while_Forall (p : ascii → bool) (s : text) :
  Forall (λ c, p c = true) (take_while p s).
Proof.
  induction s as [|c s IH]; simpl; [constructor|].
  destruct (p c) eqn:E; by constructor.
Qed.

Lemma drop_while_head (p : ascii → bool) (s : text) c r :
  drop_while p s = c :: r → p c = false.
Proof.
  induction s as [|d s IH]; simpl; [done|].
  destruct (p d) eqn:E; [done|]. by intros [= -> _].
Qed.

Lemma drop_while_length (p : ascii → bool) (s : text) :
  length (drop_while p s) ≤ length s.
Proof. induction s as [|c s IH]; simpl; [done|]. destruct (p c); simpl; lia. Qed.

(** a run followed by a character outside of it is what [take_while] and
    [drop_while] find *)
Lemma take_while_app (p : ascii → bool) (run rest : text) :
  Forall (λ c, p c = true) run →
  (match rest with c :: _ => p c = false | [] => True end) →
  take_while p (run ++ rest) = run ∧ drop_while p (run ++ rest) = rest.
Proof.
  intros Hrun Hrest. induction Hrun as [|c run Hc _ [IH1 IH2]]; simpl.
  - destruct rest as [|c rest]; [done|]. simpl. by rewrite Hrest.
  - rewrite Hc. by rewrite IH1, IH2.
Qed.

Lemma split_at_first_Some (m s a b : text) :
  split_at_first m s = Some (a, b) → s = a ++ m ++ b.
Proof.
  revert a. induction s as [|c s IH]; intros a; simpl.
  - destruct (starts_with m []) eqn:E; [|done].
    intros [= <- <-]. by apply starts_with_Some in E.
  - destruct (starts_with m (c :: s)) eqn:E.
    + intros [= <- <-]. by apply starts_with_Some in E.
    + destruct (split_at_first m s) as [[a' b']|]; [|done].
      intros [= <- <-]. by rewrite (IH a').
Qed.

Lemma split_at_first_None (m s : text) :
  split_at_first m s = None ↔ ¬ occurs m s.
Proof.
  induction s as [|c s IH]; simpl.
  - destruct (starts_with m []) as [t|] eqn:E.
    + apply starts_with_Some in E. split; [done|]. intros H. destruct H.
      by exists [], t.
    + split; [|done]. intros _ (a & b & H).
      destruct a; [|done]. simpl in H. rewrite starts_with_None in E. by destruct (E b).
  - destruct (starts_with m (c :: s)) as [t|] eqn:E.
    + apply starts_with_Some in E. split; [done|]. intros H. destruct H.
      by exists [], t.
    + rewrite starts_with_None in E.
      destruct (split_at_first m s) as [[a' b']|] eqn:E'.
      * split; [done|]. intros H. destruct H.
        apply split_at_first_Some in E'. exists (c :: a'), b'. by rewrite E'.
      * split; [|done]. intros _ (a & b & H). destruct a as [|d a].
        -- by destruct (E b).
        -- injection H as -> ->. apply IH; [done|]. by exists a, b.
Qed.

Lemma occurs_app_l (m x y : text) : occurs m x → occurs m (x ++ y).
Proof. intros (a & b & ->). exists a, (b ++ y). by rewrite <- !(assoc_L (++)). Qed.

Lemma occurs_app_r (m x y : text) : occurs m y → occurs m (x ++ y).
Proof. intros (a & b & ->). exists (x ++ a), b. by rewrite <- !(assoc_L (++)). Qed.

Lemma occurs_cons (m : text) c s :
  occurs m (c :: s) → (∃ r, c :: s = m ++ r) ∨ occurs m s.
Proof.
  intros (a & b & H). destruct a as [|d a]; simpl in H.
  - left. by exists b.
  - injection H as -> ->. right. by exists a, b.
Qed.

(** ** Scanning *)

Section Scan.
Context {A : Type} (M : matcher A) (HM : progressive M).

Lemma scan_fuel_enough (fuel1 fuel2 : nat) (s : text) :
  length s ≤ fuel1 → length s ≤ fuel2 →
  scan_fuel M fuel1 s = scan_fuel M fuel2 s.
Proof using HM.
  revert fuel2 s. induction fuel1 as [|fuel1 IH]; intros fuel2 s H1 H2.
  - destruct s; [|simpl in H1; lia]. by destruct fuel2.
  - destruct s as [|c s]; [by destruct fuel2|].
    destruct fuel2 as [|fuel2]; [simpl in H2; lia|]. simpl in *.
    destruct (M (c :: s)) as [[a rest]|] eqn:E.
    + apply HM in E. simpl in E. f_equal. apply IH; lia.
    + f_equal. apply IH; lia.
Qed.

Lemma scan_nil : scan M [] = [].
Proof. done. Qed.

Lemma scan_match (s : text) a rest :
  M s = Some (a, rest) → scan M s = Match a :: scan M rest.
Proof using HM.
  intros E. pose proof (HM _ _ _ E) as Hlt. unfold scan.
  destruct s as [|c s]; [simpl in Hlt; lia|]. simpl. rewrite E. f_equal.
  simpl in Hlt. apply scan_fuel_enough; lia.
Qed.

Lemma scan_plain c (s : text) :
  M (c :: s) = None → scan M (c :: s) = Plain c :: scan M s.
Proof. intros E. unfold scan. simpl. by rewrite E. Qed.

Lemma exec_all_nil : exec_all M [] = [].
Proof. done. Qed.

Lemma exec_all_match (s : text) a rest :
  M s = Some (a, rest) → exec_all M s = a :: exec_all M rest.
Proof using HM. intros E. unfold exec_all. by rewrite (scan_match _ _ _ E). Qed.

Lemma exec_all_plain c (s : text) :
  M (c :: s) = None → exec_all M (c :: s) = exec_all M s.
Proof. intros E. unfold exec_all. by rewrite (scan_plain _ _ E). Qed.

Lemma replace_all_nil (f : A → text) : replace_all M f [] = [].
Proof. done. Qed.

Lemma replace_all_match (f : A → text) (s : text) a rest :
  M s = Some (a, rest) → replace_all M f s = f a ++ replace_all M f rest.
Proof using HM. intros E. unfold replace_all. by rewrite (scan_match _ _ _ E). Qed.

Lemma replace_all_plain (f : A → text) c (s : text) :
  M (c :: s) = None → replace_all M f (c :: s) = c :: replace_all M f s.
Proof. intros E. unfold replace_all. by rewrite (scan_plain _ _ E). Qed.

(** induction along the scan *)
Lemma scan_ind (P : text → Prop) :
  P [] →
  (∀ s a rest, M s = Some (a, rest) → P rest → P s) →
  (∀ c s, M (c :: s) = None → P s → P (c :: s)) →
  ∀ s, P s.
Proof using HM.
  intros Hnil Hmatch Hplain s.
  remember (length s) as n eqn:Hn.
  revert s Hn. induction n as [n IH] using lt_wf_ind. intros s ->.
  destruct s as [|c s]; [done|].
  destruct (M (c :: s)) as [[a rest]|] eqn:E.
  - apply (Hmatch _ _ _ E). apply (IH (length rest)); [by apply HM in E|done].
  - apply Hplain; [done|]. apply (IH (length s)); [simpl; lia|done].
Qed.

(** a pattern that begins with the literal [m] finds nothing in a text
    where [m] does not occur *)
Lemma scan_no_occurrence (m : text) (s : text) :
  (∀ s a rest, M s = Some (a, rest) → ∃ r, s = m ++ r) →
  ¬ occurs m s → scan M s = Plain <$> s.
Proof.
  intros Hm. induction s as [|c s IH]; intros Hs; [done|].
  assert (M (c :: s) = None) as E.
  { destruct (M (c :: s)) as [[a rest]|] eqn:E; [|done].
    destruct (Hm _ _ _ E) as [r Hr]. destruct Hs. exists [], r. by rewrite Hr. }
  rewrite (scan_plain _ _ E). simpl. f_equal. apply IH.
  intros (a & b & ->). apply Hs. by exists (c :: a), b.
Qed.

End Scan.

(** ** The patterns consume what they match *)

(** equal texts up to the association of [++] and the unfolding of literals *)
Ltac text_eq :=
  cbn [lit list_ascii_of_string];
  repeat (progress (rewrite <- ?(assoc_L (++)); cbn [app]));
  done.

Ltac bind_step H E name :=
  cbv zeta in H;
  match type of H with
  | mbind _ ?m = _ =>
      destruct m as [name|] eqn:E; [|done]; cbn [mbind option_bind] in H
  end.

Lemma scheme_Some (s sch r : text) :
  scheme s = Some (sch, r) →
  s = sch ++ r ∧ (sch = lit "http://" ∨ sch = lit "https://").
Proof.
  unfold scheme. intros H. bind_step H E1 s1.
  apply starts_with_Some in E1 as ->.
  destruct (starts_with (lit "s") s1) as [s2|] eqn:E2.
  - apply starts_with_Some in E2 as ->. bind_step H E3 r'.
    injection H as <- <-. apply starts_with_Some in E3 as ->. auto.
  - bind_step H E3 r'.
    injection H as <- <-. apply starts_with_Some in E3 as ->. auto.
Qed.

Lemma citationLinkRegex_Some (s g rest : text) :
  citationLinkRegex s = Some (g, rest) →
  ∃ pre post, s = (lit "(" ++ pre) ++ g ++ post ++ rest.
Proof.
  unfold citationLinkRegex. intros H.
  bind_step H E1 s1. apply starts_with_Some in E1 as ->.
  bind_step H E2 x. destruct x as [sch s2]. apply scheme_Some in E2 as [E2 _].
  case_decide; [done|].
  match type of H with context [drop_while ?f s2] => set (p := f) in * end.
  bind_step H E3 s3. injection H as <- <-. apply starts_with_Some in E3.
  exists (take_while is_space s1), (take_while is_space (drop_while p s2) ++ lit ")").
  rewrite <- (take_drop_while is_space s1) at 1. rewrite E2.
  rewrite <- (take_drop_while p s2) at 1.
  rewrite <- (take_drop_while is_space (drop_while p s2)) at 1. rewrite E3.
  text_eq.
Qed.

Lemma citationMarkdownRegex_Some (s g rest : text) :
  citationMarkdownRegex s = Some (g, rest) →
  ∃ pre post, s = (lit "(" ++ pre) ++ g ++ post ++ rest.
Proof.
  unfold citationMarkdownRegex. intros H.
  bind_step H E1 s1. apply starts_with_Some in E1 as ->.
  bind_step H E2 s2. apply starts_with_Some in E2.
  case_decide; [done|].
  bind_step H E3 s3. apply starts_with_Some in E3.
  case_decide; [done|].
  bind_step H E4 s4. apply starts_with_Some in E4.
  bind_step H E5 s5. apply starts_with_Some in E5. injection H as <- <-.
  exists (take_while is_space s1), (take_while is_space s4 ++ lit ")").
  rewrite <- (take_drop_while is_space s1) at 1. rewrite E2.
  rewrite <- (take_drop_while (not_in (lit "]")) s2) at 1. rewrite E3.
  rewrite <- (take_drop_while (not_in (lit ")")) s3) at 1. rewrite E4.
  rewrite <- (take_drop_while is_space s4) at 1. rewrite E5.
  text_eq.
Qed.

Lemma thoughtRegex_Some (s g rest : text) :
  thoughtRegex s = Some (g, rest) →
  s = lit "<think>" ++ g ++ lit "</think>" ++ rest
  ∨ (s = lit "<think>" ++ g ∧ rest = []).
Proof.
  unfold thoughtRegex. intros H.
  bind_step H E1 s1. apply starts_with_Some in E1 as ->.
  destruct (split_at_first (lit "</think>") s1) as [[g' rest']|] eqn:E2.
  - injection H as -> ->. left. by rewrite (split_at_first_Some _ _ _ _ E2).
  - injection H as <- <-. by right.
Qed.

Lemma leakageRegex_Some (s m rest : text) :
  leakageRegex s = Some (m, rest) →
  s = m ++ rest ∧ ∃ body, m = lit "<|start|>" ++ body.
Proof.
  unfold leakageRegex. intros H.
  bind_step H E1 s1. apply starts_with_Some in E1 as ->.
  destruct (split_at_first [LF; LF] s1) as [[body rest']|] eqn:E2.
  - injection H as <- <-. apply split_at_first_Some in E2 as ->.
    split; [text_eq | by eexists].
  - injection H as <- <-. split; [by rewrite (right_id_L [] (++)) | by eexists].
Qed.

Lemma not_in_true (cs : text) c : not_in cs c = true ↔ c ∉ cs.
Proof.
  unfold not_in. rewrite negb_true_iff, <- not_true_iff_false, existsb_exists.
  split.
  - intros H Hc. apply H. exists c. split; [by apply list_elem_of_In|].
    by apply Ascii.eqb_eq.
  - intros H (x & Hx & E). apply Ascii.eqb_eq in E as <-. by apply H, list_elem_of_In.
Qed.

Lemma not_in_false (cs : text) c : not_in cs c = false ↔ c ∈ cs.
Proof.
  rewrite <- not_true_iff_false, not_in_true.
  destruct (decide (c ∈ cs)) as [Hc|Hc]; [tauto|]. split; [|done].
  intros H. by destruct H.
Qed.

Lemma httpRegex_Some (s u rest : text) :
  httpRegex s = Some (u, rest) → u ≠ [] ∧ s = u ++ rest.
Proof.
  unfold httpRegex. intros H.
  bind_step H E1 x. destruct x as [sch s1]. apply scheme_Some in E1 as [-> Hsch].
  match type of H with context [drop_while ?f s1] => set (p := f) in * end.
  case_decide; [done|]. injection H as <- <-. split.
  - by destruct Hsch as [-> | ->].
  - rewrite <- (take_drop_while p s1) at 1. text_eq.
Qed.

(** the key-value pattern matches exactly the texts that begin with a
    marker *)
Lemma keyValueRegex_spec (key s v rest : text) :
  keyValueRegex key s = Some (v, rest) ↔
  ∃ ws, s = marker_text key ws v ++ rest ∧ all_space ws ∧ v ≠ [] ∧ dquote ∉ v.
Proof.
  unfold keyValueRegex, marker_text. split.
  - intros H. bind_step H E1 s1. apply starts_with_Some in E1 as ->.
    bind_step H E2 s2. apply starts_with_Some in E2.
    case_decide as Hv; [done|].
    bind_step H E3 s3. apply starts_with_Some in E3. injection H as <- <-.
    exists (take_while is_space s1). split_and!.
    + rewrite <- (take_drop_while is_space s1) at 1. rewrite E2.
      rewrite <- (take_drop_while (not_in [dquote]) s2) at 1. rewrite E3. text_eq.
    + apply take_while_Forall.
    + done.
    + intros Hin. pose proof (take_while_Forall (not_in [dquote]) s2) as HF.
      rewrite Forall_forall in HF. apply HF in Hin.
      apply not_in_true in Hin. apply Hin. by left.
  - intros (ws & -> & Hws & Hv & Hq).
    replace (([dquote] ++ key ++ [dquote] ++ lit ":" ++ ws ++ [dquote] ++ v ++ [dquote]) ++ rest)
      with (([dquote] ++ key ++ [dquote] ++ lit ":") ++ ws ++ [dquote] ++ v ++ [dquote] ++ rest)
      by text_eq.
    rewrite starts_with_app. cbn [mbind option_bind].
    destruct (take_while_app is_space ws ([dquote] ++ v ++ [dquote] ++ rest) Hws) as [_ ->];
      [done|].
    rewrite starts_with_app. cbn [mbind option_bind].
    destruct (take_while_app (not_in [dquote]) v ([dquote] ++ rest)) as [-> ->].
    { apply Forall_forall. intros c Hc. apply not_in_true. intros Hd.
      apply list_elem_of_singleton in Hd as ->. done. }
    { done. }
    case_decide; [done|]. by rewrite starts_with_app.
Qed.

Lemma progressive_of {A} (M : matcher A) :
  (∀ s a rest, M s = Some (a, rest) → ∃ pre, pre ≠ [] ∧ s = pre ++ rest) →
  progressive M.
Proof.
  intros H s a rest E. destruct (H _ _ _ E) as (pre & Hpre & ->).
  rewrite length_app. destruct pre; [done|simpl; lia].
Qed.

Lemma citationLinkRegex_progressive : progressive citationLinkRegex.
Proof.
  apply progressive_of. intros s g rest E.
  destruct (citationLinkRegex_Some _ _ _ E) as (pre & post & ->).
  exists ((lit "(" ++ pre) ++ g ++ post). split; [done | text_eq].
Qed.

Lemma citationMarkdownRegex_progressive : progressive citationMarkdownRegex.
Proof.
  apply progressive_of. intros s g rest E.
  destruct (citationMarkdownRegex_Some _ _ _ E) as (pre & post & ->).
  exists ((lit "(" ++ pre) ++ g ++ post). split; [done | text_eq].
Qed.

Lemma thoughtRegex_progressive : progressive thoughtRegex.
Proof.
  apply progressive_of. intros s g rest E.
  destruct (thoughtRegex_Some _ _ _ E) as [-> | [-> ->]].
  - exists (lit "<think>" ++ g ++ lit "</think>"). split; [done | text_eq].
  - exists (lit "<think>" ++ g). split; [done | by rewrite (right_id_L [] (++))].
Qed.

Lemma leakageRegex_progressive : progressive leakageRegex.
Proof.
  apply progressive_of. intros s m rest E.
  destruct (leakageRegex_Some _ _ _ E) as [-> [body ->]].
  by exists (lit "<|start|>" ++ body).
Qed.

Lemma keyValueRegex_progressive key : progressive (keyValueRegex key).
Proof.
  apply progressive_of. intros s v rest E.
  apply keyValueRegex_spec in E as (ws & -> & _).
  by exists (marker_text key ws v).
Qed.

Lemma httpRegex_progressive : progressive httpRegex.
Proof.
  apply progressive_of. intros s u rest E.
  apply httpRegex_Some in E as [? ->]. by exists u.
Qed.

#[local] Hint Resolve citationLinkRegex_progressive citationMarkdownRegex_progressive
  thoughtRegex_progressive leakageRegex_progressive keyValueRegex_progressive
  httpRegex_progressive : core.

(** ** The search actions *)


Lemma consistent_init : consistent (∅, []).
Proof. split; [|constructor]. intros v. simpl. set_solver. Qed.

Lemma consistent_push ty prefix st v :
  consistent st → v ∉ st.1 → consistent (push ty prefix st v).
Proof.
  intros [Hseen Hnd] Hv. split; simpl.
  - intros w. rewrite fmap_app, elem_of_app, elem_of_union, elem_of_singleton, Hseen.
    simpl. rewrite list_elem_of_singleton. tauto.
  - rewrite fmap_app. apply NoDup_app. split_and!; [done| |by apply NoDup_singleton].
    intros w Hw. simpl. rewrite list_elem_of_singleton. intros ->. by apply Hv, Hseen.
Qed.

Lemma consistent_add_action ty prefix st v :
  consistent st → consistent (add_action ty prefix st v).
Proof. intros H. unfold add_action. case_decide; [done|]. by apply consistent_push. Qed.

Lemma consistent_add_raw_url st u :
  consistent st → consistent (add_raw_url st u).
Proof.
  intros H. unfold add_raw_url. case_decide; [done|].
  destruct (includes _ u); [done|]. destruct (Nat.ltb 10 _); [|done].
  by apply consistent_push.
Qed.

Lemma consistent_foldl (f : loop_state → text → loop_state) vs st :
  (∀ st v, consistent st → consistent (f st v)) →
  consistent st → consistent (foldl f st vs).
Proof. intros Hf. revert st. induction vs as [|v vs IH]; simpl; auto. Qed.

Lemma consistent_structured fullThought :
  consistent (structured_actions fullThought).
Proof.
  unfold structured_actions, structured_from.
  apply consistent_foldl; [intros; by apply consistent_add_action|].
  apply consistent_foldl; [intros; by apply consistent_add_action|].
  apply consistent_init.
Qed.

Lemma extract_actions_NoDup fullThought :
  NoDup (content <$> extract_actions fullThought).
Proof.
  unfold extract_actions. destruct (fallback_runs _ _).
  - apply consistent_foldl; [intros; by apply consistent_add_raw_url|].
    apply consistent_structured.
  - apply consistent_structured.
Qed.

(** a loop only appends actions of its own kind, and sees every value *)
Lemma foldl_add_action ty prefix vs st :
  ∃ new, (foldl (add_action ty prefix) st vs).2 = st.2 ++ new
         ∧ Forall (λ a, type a = ty) new
         ∧ st.1 ⊆ (foldl (add_action ty prefix) st vs).1
         ∧ ∀ v, v ∈ vs → v ∈ (foldl (add_action ty prefix) st vs).1.
Proof.
  revert st. induction vs as [|v vs IH]; intros st; simpl.
  - exists []. rewrite (right_id_L [] (++)). split_and!; [done|constructor|done|].
    intros v Hv. by apply elem_of_nil in Hv.
  - destruct (IH (add_action ty prefix st v)) as (new & E & Hty & Hsub & Hin).
    assert (∃ new0, (add_action ty prefix st v).2 = st.2 ++ new0
                    ∧ Forall (λ a, type a = ty) new0
                    ∧ st.1 ⊆ (add_action ty prefix st v).1
                    ∧ v ∈ (add_action ty prefix st v).1) as (new0 & E0 & Hty0 & Hsub0 & Hv0).
    { unfold add_action. case_decide.
      - exists []. by rewrite (right_id_L [] (++)).
      - eexists. split_and!; [done|by repeat constructor|simpl; set_solver|simpl; set_solver]. }
    exists (new0 ++ new). split_and!.
    + by rewrite E, E0, (assoc_L (++)).
    + by apply Forall_app.
    + set_solver.
    + intros w Hw. apply elem_of_cons in Hw as [->|Hw]; [set_solver|by apply Hin].
Qed.

Lemma foldl_add_raw_url vs st :
  ∃ new, (foldl add_raw_url st vs).2 = st.2 ++ new
         ∧ Forall (λ a, type a = url) new.
Proof.
  revert st. induction vs as [|v vs IH]; intros st; simpl.
  - exists []. by rewrite (right_id_L [] (++)).
  - destruct (IH (add_raw_url st v)) as (new & E & Hty).
    assert (∃ new0, (add_raw_url st v).2 = st.2 ++ new0
                    ∧ Forall (λ a, type a = url) new0) as (new0 & E0 & Hty0).
    { unfold add_raw_url. case_decide; [exists []; by rewrite (right_id_L [] (++))|].
      destruct (includes _ v); [exists []; by rewrite (right_id_L [] (++))|].
      destruct (Nat.ltb 10 _); [|exists []; by rewrite (right_id_L [] (++))].
      eexists. split; [done|by repeat constructor]. }
    exists (new0 ++ new). split; [by rewrite E, E0, (assoc_L (++))|by apply Forall_app].
Qed.

(** the shape of the list of actions: queries, then structured urls, then
    raw urls *)
Lemma extract_actions_shape fullThought :
  ∃ qs us, extract_actions fullThought = qs ++ us
           ∧ Forall (λ a, type a = query) qs ∧ Forall (λ a, type a = url) us.
Proof.
  unfold extract_actions, structured_actions, structured_from.
  destruct (foldl_add_action query "q-" (exec_all queryRegex fullThought) (∅, []))
    as (qs & Eq & Hq & _).
  set (st1 := foldl (add_action query "q-") (∅, []) (exec_all queryRegex fullThought)) in *.
  destruct (foldl_add_action url "u-" (exec_all urlRegex fullThought) st1)
    as (us & Eu & Hu & _).
  set (st2 := foldl (add_action url "u-") st1 (exec_all urlRegex fullThought)) in *.
  simpl in Eq.
  destruct (fallback_runs _ _).
  - destruct (foldl_add_raw_url (exec_all httpRegex fullThought) st2) as (raw & Er & Hr).
    exists qs, (us ++ raw). rewrite Er, Eu, Eq. split_and!; [by rewrite (assoc_L (++))|done|].
    by apply Forall_app.
  - exists qs, us. by rewrite Eu, Eq.
Qed.

Lemma filter_content_absent (l : list SearchAction) (x : text) :
  x ∉ content <$> l → filter (λ a, content a = x) l = [].
Proof.
  induction l as [|a l IH]; [done|]. rewrite fmap_cons, not_elem_of_cons.
  intros [Hne Hx]. rewrite filter_cons. case_decide; [by destruct Hne|by apply IH].
Qed.

(** a value that occurs in a list of distinct values occurs exactly once *)
Lemma count_one (l : list SearchAction) (x : text) :
  NoDup (content <$> l) → x ∈ content <$> l →
  length (filter (λ a, content a = x) l) = 1.
Proof.
  induction l as [|a l IH]; [intros _ Hx; by apply elem_of_nil in Hx|].
  rewrite fmap_cons, NoDup_cons. intros [Ha Hnd] Hx.
  rewrite filter_cons. case_decide as E.
  - subst x. by rewrite filter_content_absent.
  - apply elem_of_cons in Hx as [->|Hx]; [done|by apply IH].
Qed.

Lemma extract_actions_structured fullThought :
  ∃ raw, extract_actions fullThought = (structured_actions fullThought).2 ++ raw.
Proof.
  unfold extract_actions. destruct (fallback_runs _ _).
  - destruct (foldl_add_raw_url (exec_all httpRegex fullThought)
                (structured_actions fullThought)) as (raw & E & _). by exists raw.
  - exists []. by rewrite (right_id_L [] (++)).
Qed.

(** the value of every url marker that the scan finds is the content of an
    action *)
Lemma url_marker_extracted fullThought X :
  X ∈ exec_all urlRegex fullThought → X ∈ content <$> extract_actions fullThought.
Proof.
  intros HX. destruct (extract_actions_structured fullThought) as [raw ->].
  rewrite fmap_app, elem_of_app. left.
  apply (consistent_structured fullThought). unfold structured_actions, structured_from.
  destruct (foldl_add_action url "u-" (exec_all urlRegex fullThought)
              (foldl (add_action query "q-") (∅, []) (exec_all queryRegex fullThought)))
    as (_ & _ & _ & _ & Hin).
  by apply Hin.
Qed.

(** once a structured url marker has become an action, the fallback adds
    nothing *)
Lemma fallback_skipped fullThought :
  Exists (λ a, type a = url) (structured_actions fullThought).2 →
  extract_actions fullThought = (structured_actions fullThought).2.
Proof.
  intros H. unfold extract_actions.
  assert (fallback_runs fullThought (structured_actions fullThought).2 = false) as ->; [|done].
  unfold fallback_runs. apply andb_false_iff. right. apply Nat.eqb_neq.
  apply Exists_exists in H as (a & Ha & Hty).
  assert (a ∈ List.filter is_url (structured_actions fullThought).2) as Hin.
  { apply list_elem_of_In, filter_In. split; [by apply list_elem_of_In|].
    unfold is_url. by apply bool_decide_eq_true. }
  destruct (List.filter _ _); [by apply elem_of_nil in Hin|done].
Qed.

(** ** White space and [trim] *)

Lemma drop_while_nil_iff (p : ascii → bool) (s : text) :
  drop_while p s = [] ↔ Forall (λ c, p c = true) s.
Proof.
  induction s as [|c s IH]; simpl; [by split; [constructor|]|].
  destruct (p c) eqn:E.
  - rewrite IH. split; [by constructor|]. by intros [_ ?]%Forall_cons.
  - split; [done|]. intros [? _]%Forall_cons. congruence.
Qed.

Lemma drop_while_app (p : ascii → bool) (x y : text) :
  drop_while p (x ++ y) =
    match drop_while p x with
    | [] => drop_while p y
    | d => d ++ y
    end.
Proof.
  induction x as [|c x IH]; simpl; [by destruct (drop_while p y)|].
  by destruct (p c).
Qed.

(** [trim_end] removes a block of white space at the end; what is left is
    empty or ends with a character that is not white space *)
Lemma trim_end_decompose (s : text) :
  ∃ w, s = trim_end s ++ w ∧ all_space w
       ∧ (trim_end s = [] ∨ ∃ a c, trim_end s = a ++ [c] ∧ is_space c = false).
Proof.
  unfold trim_end. exists (reverse (take_while is_space (reverse s))). split_and!.
  - rewrite <- reverse_app, take_drop_while. by rewrite reverse_involutive.
  - apply Forall_reverse, take_while_Forall.
  - destruct (drop_while is_space (reverse s)) as [|c r] eqn:E; [by left|].
    right. exists (reverse r), c. split; [by rewrite reverse_cons|].
    by apply drop_while_head in E.
Qed.

Lemma trim_start_decompose (s : text) :
  ∃ w, s = w ++ trim_start s ∧ all_space w
       ∧ (trim_start s = [] ∨ ∃ c d, trim_start s = c :: d ∧ is_space c = false).
Proof.
  unfold trim_start. exists (take_while is_space s). split_and!.
  - by rewrite take_drop_while.
  - apply take_while_Forall.
  - destruct (drop_while is_space s) as [|c d] eqn:E; [by left|].
    right. exists c, d. split; [done|]. by apply drop_while_head in E.
Qed.

Lemma trim_end_app (x y : text) :
  trim_end (x ++ y) =
    match trim_end y with
    | [] => trim_end x
    | t => x ++ t
    end.
Proof.
  unfold trim_end. rewrite reverse_app, drop_while_app.
  destruct (drop_while is_space (reverse y)) as [|c r] eqn:E; [done|].
  rewrite reverse_app, reverse_involutive.
  destruct (reverse (c :: r)) eqn:E'; [|done].
  apply (f_equal reverse) in E'. rewrite reverse_involutive in E'. done.
Qed.

Lemma trim_end_nil_iff (s : text) : trim_end s = [] ↔ all_space s.
Proof.
  unfold trim_end, all_space. rewrite <- (Forall_reverse _ s), <- drop_while_nil_iff.
  split; [|by intros ->].
  intros H. apply (f_equal reverse) in H. by rewrite reverse_involutive in H.
Qed.

Lemma trim_nil_iff (s : text) : trim s = [] ↔ all_space s.
Proof.
  unfold trim. rewrite trim_end_nil_iff.
  destruct (trim_start_decompose s) as (w & E & Hw & Hd).
  split.
  - intros H. rewrite E. apply Forall_app. split; [done|].
    destruct Hd as [-> | (c & d & Ed & Hc)]; [constructor|].
    rewrite Ed in H. apply Forall_cons in H as [? _]. congruence.
  - intros H. unfold trim_start. apply drop_while_nil_iff in H. rewrite H. constructor.
Qed.

Lemma trim_all_space (s : text) : all_space (trim s) → all_space s.
Proof.
  intros H. destruct (trim_start_decompose s) as (w & E & Hw & _).
  destruct (trim_end_decompose (trim_start s)) as (w' & E' & Hw' & _).
  rewrite E, E'. unfold all_space. rewrite !Forall_app. by split_and!.
Qed.

(** trimming a longer text keeps what trimming a prefix of it gave *)
Lemma trim_end_prefix (x y : text) : trim_end x `prefix_of` trim_end (x ++ y).
Proof.
  rewrite trim_end_app. destruct (trim_end y) as [|c t] eqn:E; [done|].
  destruct (trim_end_decompose x) as (w & Ex & _). rewrite Ex at 2.
  rewrite <- (assoc_L (++)). by apply prefix_app_r.
Qed.

Lemma trim_prefix (x y : text) : trim x `prefix_of` trim (x ++ y).
Proof.
  unfold trim, trim_start. rewrite drop_while_app.
  destruct (drop_while is_space x) as [|c d] eqn:E; [apply prefix_nil|].
  apply trim_end_prefix.
Qed.

Lemma join_all_space (l : list text) :
  all_space (join [LF; LF] l) ↔ Forall all_space l.
Proof.
  induction l as [|x l IH]; [by split; constructor|].
  destruct l as [|y l].
  - simpl. split; [by repeat constructor|]. by intros [? _]%Forall_cons.
  - change (join [LF; LF] (x :: y :: l)) with (x ++ [LF; LF] ++ join [LF; LF] (y :: l)).
    unfold all_space in *. rewrite !Forall_app, IH, (Forall_cons _ x).
    assert (Forall (λ c, is_space c = true) [LF; LF]) by (by repeat constructor).
    tauto.
Qed.

(** ** Citation unwrapping keeps the markers apart *)

Lemma occurs_nil (m : text) : occurs m [] → m = [].
Proof. intros (a & b & H). destruct a; [by destruct m|done]. Qed.

Lemma occurs_split_space (m x y : text) :
  " "%char ∉ m → m ≠ [] → occurs m (x ++ " "%char :: y) → occurs m x ∨ occurs m y.
Proof.
  intros Hsp Hne (a & b & E).
  apply app_eq_inv in E as [(k & -> & E) | (k & -> & E)].
  - apply app_eq_inv in E as [(k' & -> & E) | (k' & -> & E)].
    + destruct k' as [|c k'].
      * left. exists a, []. by rewrite !(right_id_L [] (++)).
      * injection E as <- _. destruct Hsp. apply elem_of_app. right. by left.
    + left. by exists a, k'.
  - destruct k as [|c k].
    + destruct m as [|c m]; [done|]. injection E as <- _. destruct Hsp. by left.
    + injection E as _ ->. right. by exists k, b.
Qed.

Section Unwrap.
Context (M : matcher text) (HM : progressive M) (HW : wraps M).

Lemma replace_spaced_prefix (m s : text) :
  " "%char ∉ m → m `prefix_of` replace_all M spaced s → m `prefix_of` s.
Proof using HM.
  revert s. induction m as [|c m IH]; intros s Hsp Hpre; [apply prefix_nil|].
  destruct s as [|d s]; [by apply prefix_nil_not in Hpre|].
  destruct (M (d :: s)) as [[g rest]|] eqn:E.
  - rewrite (replace_all_match M HM _ _ _ _ E) in Hpre.
    apply prefix_cons_inv_1 in Hpre as ->. destruct Hsp. by left.
  - rewrite (replace_all_plain M _ _ _ E) in Hpre.
    pose proof (prefix_cons_inv_1 _ _ _ _ Hpre) as ->.
    apply prefix_cons_inv_2 in Hpre. apply prefix_cons, IH; [|done].
    intros Hin. apply Hsp. by right.
Qed.

(** a block without spaces that occurs in the unwrapped text occurs in the
    text *)
Lemma replace_spaced_occurs (m s : text) :
  " "%char ∉ m → m ≠ [] → occurs m (replace_all M spaced s) → occurs m s.
Proof using HM HW.
  intros Hsp Hne. revert s.
  apply (scan_ind M HM (λ s, occurs m (replace_all M spaced s) → occurs m s)).
  - rewrite replace_all_nil. intros H%occurs_nil. done.
  - intros s g rest E IH. rewrite (replace_all_match M HM _ _ _ _ E).
    destruct (HW _ _ _ E) as (pre & post & ->).
    change (spaced g ++ ?r) with ([] ++ " "%char :: (g ++ lit " ") ++ r).
    intros [H%occurs_nil | H]%occurs_split_space; [done| |done..].
    rewrite <- (assoc_L (++)) in H.
    apply occurs_split_space in H as [H | H]; [| |done..].
    + by apply occurs_app_r, occurs_app_l.
    + rewrite (assoc_L (++) _ post). do 2 apply occurs_app_r. by apply IH.
  - intros c s E IH. rewrite (replace_all_plain M _ _ _ E).
    intros [[r Hr] | H]%occurs_cons.
    + assert (m `prefix_of` c :: s) as [k ->].
      { apply replace_spaced_prefix; [done|].
        rewrite (replace_all_plain M _ _ _ E). by exists r. }
      by exists [], k.
    + apply (occurs_app_r _ [c]). by apply IH.
Qed.

End Unwrap.

Lemma citationLinkRegex_wraps : wraps citationLinkRegex.
Proof. intros s g rest. apply citationLinkRegex_Some. Qed.

Lemma citationMarkdownRegex_wraps : wraps citationMarkdownRegex.
Proof. intros s g rest. apply citationMarkdownRegex_Some. Qed.

Lemma clean_citations_occurs (m content0 : text) :
  " "%char ∉ m → m ≠ [] → occurs m (clean_citations content0) → occurs m content0.
Proof.
  intros Hsp Hne H. unfold clean_citations in H.
  apply replace_spaced_occurs in H; auto using citationMarkdownRegex_wraps.
  apply replace_spaced_occurs in H; auto using citationLinkRegex_wraps.
Qed.

(** ** Texts without markers *)

Lemma scan_plain_replace {A} (M : matcher A) (f : A → text) (s : text) :
  scan M s = Plain <$> s → replace_all M f s = s ∧ exec_all M s = [].
Proof.
  unfold replace_all, exec_all. intros ->. clear. induction s as [|c s [IH1 IH2]]; [done|].
  rewrite !fmap_cons. split; [|done]. cbn [mjoin list_join app]. by f_equal.
Qed.

Lemma no_think (s : text) :
  ¬ occurs (lit "<think>") s → think_blocks s = [] ∧ strip_think s = s.
Proof.
  intros H. unfold think_blocks, strip_think.
  destruct (scan_plain_replace thoughtRegex (λ _, []) s) as [H1 H2]; [|done].
  apply (scan_no_occurrence thoughtRegex (lit "<think>")); [|done].
  intros s' g rest E. destruct (thoughtRegex_Some _ _ _ E) as [-> | [-> _]]; by eexists.
Qed.

Lemma no_leak (s : text) :
  ¬ occurs (lit "<|start|>") s → leaked_calls s = [] ∧ strip_leaks s = s.
Proof.
  intros H. unfold leaked_calls, strip_leaks.
  destruct (scan_plain_replace leakageRegex (λ _, []) s) as [H1 H2].
  - apply (scan_no_occurrence leakageRegex (lit "<|start|>")); [|done].
    intros s' m rest E. destruct (leakageRegex_Some _ _ _ E) as [-> [body ->]].
    exists (body ++ rest). text_eq.
  - by rewrite H2.
Qed.

Lemma plain_text (content0 : text) :
  ¬ occurs (lit "<think>") content0 → ¬ occurs (lit "<|start|>") content0 →
  fullThought_of content0 = [] ∧ main_of content0 = trim (clean_citations content0).
Proof.
  intros Hthink Hleak.
  assert (¬ occurs (lit "<think>") (clean_citations content0)) as H1.
  { intros H. apply Hthink. revert H. apply clean_citations_occurs; [|done].
    by apply not_in_true. }
  assert (¬ occurs (lit "<|start|>") (clean_citations content0)) as H2.
  { intros H. apply Hleak. revert H. apply clean_citations_occurs; [|done].
    by apply not_in_true. }
  unfold fullThought_of, thoughts_of, main_of.
  destruct (no_think _ H1) as [-> ->]. by destruct (no_leak _ H2) as [-> ->].
Qed.

(** every leaked block begins with its marker *)
Lemma exec_all_leakage (s m : text) :
  m ∈ exec_all leakageRegex s → ∃ body, m = lit "<|start|>" ++ body.
Proof.
  revert s. apply (scan_ind leakageRegex leakageRegex_progressive
    (λ s, m ∈ exec_all leakageRegex s → ∃ body, m = lit "<|start|>" ++ body)).
  - rewrite exec_all_nil. by intros H%elem_of_nil.
  - intros s a rest E IH. rewrite (exec_all_match _ leakageRegex_progressive _ _ _ E).
    intros [-> | H]%elem_of_cons; [|by apply IH].
    by destruct (leakageRegex_Some _ _ _ E) as [_ ?].
  - intros c s E IH. by rewrite (exec_all_plain _ _ _ E).
Qed.

Lemma leaked_calls_all_space (s : text) :
  Forall all_space (leaked_calls s) ↔ leaked_calls s = [].
Proof.
  split; [|by intros ->].
  unfold leaked_calls. destruct (exec_all leakageRegex s) as [|m ms] eqn:E; [done|].
  rewrite fmap_cons. intros [H%trim_all_space _]%Forall_cons.
  destruct (exec_all_leakage s m) as [body ->]; [rewrite E; by left|].
  by apply Forall_cons in H as [? _].
Qed.

Lemma fullThought_nil_iff (content0 : text) :
  fullThought_of content0 = [] ↔
  Forall all_space (think_blocks (clean_citations content0))
  ∧ leaked_calls (strip_think (clean_citations content0)) = [].
Proof.
  unfold fullThought_of, thoughts_of.
  by rewrite trim_nil_iff, join_all_space, Forall_app, leaked_calls_all_space.
Qed.

(** ** A reasoning span in the text *)

Lemma occurs_singleton (c : ascii) (s : text) : occurs [c] s ↔ c ∈ s.
Proof.
  split.
  - intros (a & b & ->). apply elem_of_app. right. by left.
  - intros (a & b & ->)%list_elem_of_split. by exists a, b.
Qed.

(** the citation patterns begin with an opening parenthesis *)
Lemma clean_citations_id (s : text) :
  "("%char ∉ s → clean_citations s = s.
Proof.
  intros H. unfold clean_citations.
  assert (∀ M, wraps M → replace_all M spaced s = s) as Hid.
  { intros M HW. apply scan_plain_replace, (scan_no_occurrence M (lit "(")).
    - intros s' g rest E. destruct (HW _ _ _ E) as (pre & post & ->).
      eexists. by rewrite <- !(assoc_L (++)).
    - by rewrite (occurs_singleton "("). }
  rewrite (Hid _ citationLinkRegex_wraps). apply Hid, citationMarkdownRegex_wraps.
Qed.

Lemma split_at_first_here (m y : text) : split_at_first m (m ++ y) = Some ([], y).
Proof. destruct (m ++ y) eqn:E; simpl; by rewrite <- ?E, starts_with_app. Qed.

Lemma split_at_first_later (m : text) d (s : text) :
  starts_with m (d :: s) = None →
  split_at_first m (d :: s) =
    match split_at_first m s with
    | Some (a, b) => Some (d :: a, b)
    | None => None
    end.
Proof. intros E. simpl. simpl in E. by rewrite E. Qed.

(** the first occurrence of a block whose first character does not come
    back in it *)
Lemma split_at_first_app (c0 : ascii) (m' x y : text) :
  c0 ∉ m' → ¬ occurs (c0 :: m') x →
  split_at_first (c0 :: m') (x ++ (c0 :: m') ++ y) = Some (x, y).
Proof.
  intros Hc0. induction x as [|d x IH]; intros Hx.
  - apply (split_at_first_here (c0 :: m')).
  - change ((d :: x) ++ ?s) with (d :: (x ++ s)).
    rewrite split_at_first_later.
    + rewrite IH; [done|]. intros H. apply Hx. by apply (occurs_app_r _ [d]).
    + apply starts_with_None. intros rest Hrest. injection Hrest as -> Hrest.
      apply app_eq_inv in Hrest as [(k & -> & _) | (k & -> & Hk)].
      * apply Hx. by exists [], k.
      * destruct k as [|c k].
        -- apply Hx. exists [], []. by rewrite !(right_id_L [] (++)).
        -- injection Hk as <- _. apply Hc0, elem_of_app. right. by left.
Qed.

Lemma thoughtRegex_open (r : text) :
  ¬ occurs (lit "</think>") r → thoughtRegex (lit "<think>" ++ r) = Some (r, []).
Proof.
  intros H. unfold thoughtRegex. rewrite starts_with_app. cbn [mbind option_bind].
  apply split_at_first_None in H. by rewrite H.
Qed.

Lemma thoughtRegex_closed (r a : text) :
  ¬ occurs (lit "</think>") r →
  thoughtRegex (lit "<think>" ++ r ++ lit "</think>" ++ a) = Some (r, a).
Proof.
  intros H. unfold thoughtRegex. rewrite starts_with_app. cbn [mbind option_bind].
  rewrite (split_at_first_app "<" (lit "/think>")); [done| |done].
  by apply not_in_true.
Qed.

(** the text while a reasoning span is open: the reasoning is what follows
    the opening marker *)
Lemma open_span (r : text) :
  "("%char ∉ r → ¬ occurs (lit "</think>") r →
  fullThought_of (lit "<think>" ++ r) = trim r ∧ main_of (lit "<think>" ++ r) = [].
Proof.
  intros Hp Hr. unfold fullThought_of, thoughts_of, main_of.
  rewrite clean_citations_id.
  2: { rewrite elem_of_app. intros [H|H]; [|done]. revert H. by apply not_in_true. }
  unfold think_blocks, strip_think.
  rewrite (exec_all_match _ thoughtRegex_progressive _ _ _ (thoughtRegex_open r Hr)).
  rewrite (replace_all_match _ thoughtRegex_progressive _ _ _ _ (thoughtRegex_open r Hr)).
  done.
Qed.

(** the text after the span was closed: the reasoning is the span, the body
    is what follows it *)
Lemma closed_span (r a : text) :
  "("%char ∉ r ++ a → ¬ occurs (lit "</think>") r →
  ¬ occurs (lit "<think>") a → ¬ occurs (lit "<|start|>") a →
  fullThought_of (lit "<think>" ++ r ++ lit "</think>" ++ a) = trim r
  ∧ main_of (lit "<think>" ++ r ++ lit "</think>" ++ a) = trim a.
Proof.
  intros Hp Hr Ha1 Ha2. unfold fullThought_of, thoughts_of, main_of.
  rewrite clean_citations_id.
  2: { rewrite !elem_of_app. rewrite elem_of_app in Hp.
       intros [H|[H|[H|H]]]; [|tauto| |tauto]; revert H; by apply not_in_true. }
  unfold think_blocks, strip_think.
  rewrite (exec_all_match _ thoughtRegex_progressive _ _ _ (thoughtRegex_closed r a Hr)).
  rewrite (replace_all_match _ thoughtRegex_progressive _ _ _ _ (thoughtRegex_closed r a Hr)).
  destruct (no_think _ Ha1) as [E1 E2]. unfold think_blocks, strip_think in E1, E2.
  rewrite E1, E2. change ([] ++ a) with a. destruct (no_leak _ Ha2) as [-> ->]. done.
Qed.

(** ** Markers found in a text stay found in every extension of it *)

Lemma quotes_app (x y : text) : quotes (x ++ y) = quotes x + quotes y.
Proof. unfold quotes. by rewrite filter_app, length_app. Qed.

Lemma quotes_none (s : text) : dquote ∉ s → quotes s = 0.
Proof.
  unfold quotes. induction s as [|c s IH]; [done|]. rewrite not_elem_of_cons.
  intros [Hc Hs]. rewrite filter_cons. case_decide; [congruence|by apply IH].
Qed.

Lemma quotes_spaces (s : text) : all_space s → quotes s = 0.
Proof.
  intros H. apply quotes_none. intros Hin.
  unfold all_space in H. rewrite Forall_forall in H. by apply H in Hin.
Qed.

Section KeyValue.
Context (key : text) (Hkey : dquote ∉ key).

Lemma marker_text_quotes ws v :
  all_space ws → dquote ∉ v → quotes (marker_text key ws v) = 4.
Proof using Hkey.
  intros Hws Hv. unfold marker_text.
  rewrite !quotes_app, (quotes_none key Hkey), (quotes_spaces ws Hws), (quotes_none v Hv).
  done.
Qed.

(** a proper prefix of a marker has fewer quotes: the marker ends with one *)
Lemma marker_text_prefix_quotes ws v (s k : text) :
  all_space ws → dquote ∉ v → marker_text key ws v = s ++ k → k ≠ [] → quotes s < 4.
Proof using Hkey.
  intros Hws Hv E Hk. pose proof (marker_text_quotes ws v Hws Hv) as H4.
  rewrite E, quotes_app in H4. assert (0 < quotes k); [|lia].
  destruct k as [|c k _] using rev_ind; [done|].
  unfold marker_text in E. rewrite !(assoc_L (++)) in E.
  apply app_inj_tail in E as [_ <-]. rewrite quotes_app.
  change (quotes [dquote]) with 1. lia.
Qed.

Lemma keyValueRegex_quotes (s v rest : text) :
  keyValueRegex key s = Some (v, rest) → 4 ≤ quotes s.
Proof using Hkey.
  intros (ws & -> & Hws & _ & Hv)%keyValueRegex_spec.
  rewrite quotes_app, marker_text_quotes; [lia|done..].
Qed.

Lemma exec_all_few_quotes (s : text) :
  quotes s < 4 → exec_all (keyValueRegex key) s = [].
Proof using Hkey.
  revert s. apply (scan_ind _ (keyValueRegex_progressive key)
    (λ s, quotes s < 4 → exec_all (keyValueRegex key) s = [])).
  - done.
  - intros s v rest E _ H. apply keyValueRegex_quotes in E. lia.
  - intros c s E IH H. rewrite (exec_all_plain _ _ _ E). apply IH.
    change (c :: s) with ([c] ++ s) in H. rewrite quotes_app in H. lia.
Qed.

(** a match in the extended text that begins in the text either is a match
    of the text, or runs over its end, and then the text has fewer quotes
    than a match needs *)
Lemma keyValueRegex_extend (s e v rest : text) :
  keyValueRegex key (s ++ e) = Some (v, rest) →
  (∃ rest', keyValueRegex key s = Some (v, rest') ∧ rest = rest' ++ e)
  ∨ quotes s < 4.
Proof using Hkey.
  intros (ws & E & Hws & Hv & Hq)%keyValueRegex_spec.
  apply app_eq_inv in E as [(k & -> & ->) | (k & E & ->)].
  - left. exists k. split; [|done]. apply keyValueRegex_spec. by exists ws.
  - destruct (decide (k = [])) as [->|Hk].
    + left. exists []. rewrite (right_id_L [] (++)) in E. subst s. split; [|done].
      apply keyValueRegex_spec. exists ws. by rewrite (right_id_L [] (++)).
    + right. by eapply marker_text_prefix_quotes.
Qed.

Lemma keyValueRegex_keep (s e v rest : text) :
  keyValueRegex key s = Some (v, rest) →
  keyValueRegex key (s ++ e) = Some (v, rest ++ e).
Proof.
  intros (ws & -> & H)%keyValueRegex_spec. apply keyValueRegex_spec.
  exists ws. by rewrite <- (assoc_L (++)).
Qed.

(** the markers found in a text are the first ones found in any extension
    of it *)
Lemma exec_all_extend (s e : text) :
  exec_all (keyValueRegex key) s `prefix_of` exec_all (keyValueRegex key) (s ++ e).
Proof using Hkey.
  revert s. apply (scan_ind _ (keyValueRegex_progressive key)
    (λ s, exec_all (keyValueRegex key) s `prefix_of` exec_all (keyValueRegex key) (s ++ e))).
  - apply prefix_nil.
  - intros s v rest E IH.
    rewrite (exec_all_match _ (keyValueRegex_progressive key) _ _ _ E).
    rewrite (exec_all_match _ (keyValueRegex_progressive key) _ _ _
               (keyValueRegex_keep _ e _ _ E)).
    by apply prefix_cons.
  - intros c s E IH. rewrite (exec_all_plain _ _ _ E).
    destruct (keyValueRegex key ((c :: s) ++ e)) as [[v rest]|] eqn:E'.
    + apply keyValueRegex_extend in E' as [(rest' & E' & _) | Hq]; [congruence|].
      rewrite exec_all_few_quotes; [apply prefix_nil|].
      change (c :: s) with ([c] ++ s) in Hq. rewrite quotes_app in Hq. lia.
    + change ((c :: s) ++ e) with (c :: (s ++ e)) in *.
      by rewrite (exec_all_plain _ _ _ E').
Qed.

End KeyValue.

(** ** The actions of an extended reasoning *)

Lemma foldl_add_action_seen ty prefix vs st v :
  v ∈ (foldl (add_action ty prefix) st vs).1 ↔ v ∈ st.1 ∨ v ∈ vs.
Proof.
  revert st. induction vs as [|w vs IH]; intros st; simpl.
  - rewrite elem_of_nil. tauto.
  - rewrite IH, elem_of_cons. unfold add_action. case_decide as Hw; simpl.
    + split; [tauto|]. intros [?|[->|?]]; tauto.
    + rewrite elem_of_union, elem_of_singleton. tauto.
Qed.

Lemma structured_from_consistent Q U : consistent (structured_from Q U).
Proof.
  unfold structured_from.
  apply consistent_foldl; [intros; by apply consistent_add_action|].
  apply consistent_foldl; [intros; by apply consistent_add_action|].
  apply consistent_init.
Qed.

Lemma structured_from_seen Q U v :
  v ∈ (structured_from Q U).1 ↔ v ∈ Q ∨ v ∈ U.
Proof.
  unfold structured_from. rewrite !foldl_add_action_seen. simpl.
  rewrite elem_of_empty. tauto.
Qed.

(** more markers: the values stay, and the queries stay as they are *)
Lemma structured_from_extend Q Q2 U U2 a :
  a ∈ (structured_from Q U).2 →
  content a ∈ content <$> (structured_from (Q ++ Q2) (U ++ U2)).2
  ∧ (type a = query → a ∈ (structured_from (Q ++ Q2) (U ++ U2)).2).
Proof.
  intros Ha. split.
  - apply structured_from_consistent, structured_from_seen.
    assert (content a ∈ (structured_from Q U).1) as H.
    { apply structured_from_consistent. by apply list_elem_of_fmap_2. }
    apply structured_from_seen in H. rewrite !elem_of_app. tauto.
  - intros Hq. unfold structured_from in *.
    destruct (foldl_add_action url "u-" U (foldl (add_action query "q-") (∅, []) Q))
      as (us & Eu & Hu & _).
    rewrite Eu in Ha. apply elem_of_app in Ha as [Ha | Ha].
    2: { rewrite Forall_forall in Hu. apply Hu in Ha. congruence. }
    destruct (foldl_add_action url "u-" (U ++ U2)
                (foldl (add_action query "q-") (∅, []) (Q ++ Q2))) as (us' & -> & _).
    apply elem_of_app. left. rewrite foldl_app.
    destruct (foldl_add_action query "q-" Q2 (foldl (add_action query "q-") (∅, []) Q))
      as (qs' & -> & _).
    apply elem_of_app. by left.
Qed.

Lemma structured_actions_extend (t k : text) a :
  a ∈ (structured_actions t).2 →
  content a ∈ content <$> extract_actions (t ++ k)
  ∧ (type a = query → a ∈ extract_actions (t ++ k)).
Proof.
  intros Ha. destruct (extract_actions_structured (t ++ k)) as [raw ->].
  change (structured_actions ?x) with
    (structured_from (exec_all queryRegex x) (exec_all urlRegex x)) in *.
  assert (dquote ∉ lit "query") as Hq by (by apply not_in_true).
  assert (dquote ∉ lit "url") as Hu by (by apply not_in_true).
  unfold queryRegex, urlRegex in *.
  destruct (exec_all_extend (lit "query") Hq t k) as [Q2 ->].
  destruct (exec_all_extend (lit "url") Hu t k) as [U2 ->].
  destruct (structured_from_extend _ Q2 _ U2 a Ha) as [H1 H2].
  rewrite fmap_app, !elem_of_app. split; [by left|]. intros H. left. by apply H2.
Qed.

(** ** Lines *)

Lemma split_on_nonempty sep (s : text) : split_on sep s ≠ [].
Proof.
  destruct s as [|c s]; simpl; [done|].
  destruct (Ascii.eqb c sep); [done|]. by destruct (split_on sep s).
Qed.

Lemma last_removelast {A} (l : list A) :
  l ≠ [] → ∃ x, last l = Some x ∧ l = removelast l ++ [x].
Proof.
  induction l as [|a l IH]; [done|]. intros _. destruct l as [|b l].
  - by exists a.
  - destruct IH as (x & E1 & E2); [done|]. exists x. split; [done|].
    change (removelast (a :: b :: l)) with (a :: removelast (b :: l)).
    by rewrite E2 at 1.
Qed.

Lemma removelast_snoc {A} (l : list A) x : removelast (l ++ [x]) = l.
Proof. apply removelast_last. Qed.

Lemma split_on_lines sep (s : text) :
  split_on sep s = lines_of sep s ++ [rest_of sep s].
Proof.
  unfold lines_of, rest_of.
  destruct (last_removelast (split_on sep s) (split_on_nonempty sep s)) as (x & -> & E).
  by rewrite E at 1.
Qed.

(** a separator splits the text in two *)
Lemma split_on_sep sep (x y : text) :
  split_on sep (x ++ sep :: y) = split_on sep x ++ split_on sep y.
Proof.
  induction x as [|c x IH]; simpl.
  - by rewrite (proj2 (Ascii.eqb_eq sep sep) eq_refl).
  - destruct (Ascii.eqb c sep); [by rewrite IH|]. rewrite IH.
    pose proof (split_on_nonempty sep x). by destruct (split_on sep x).
Qed.

Lemma split_on_none sep (x : text) : sep ∉ x → split_on sep x = [x].
Proof.
  induction x as [|c x IH]; [done|]. rewrite not_elem_of_cons. intros [Hc Hx].
  simpl. destruct (Ascii.eqb c sep) eqn:E; [apply Ascii.eqb_eq in E; congruence|].
  by rewrite IH.
Qed.

(** text appended to a text continues its last piece *)
Lemma split_on_app sep (a b : text) :
  split_on sep (a ++ b) = lines_of sep a ++ split_on sep (rest_of sep a ++ b).
Proof.
  induction a as [|c a IH]; [done|].
  pose proof (split_on_lines sep (c :: a)) as E. simpl in E.
  change ((c :: a) ++ b) with (c :: (a ++ b)). simpl.
  pose proof (split_on_lines sep a) as Ea. rewrite Ea in E.
  destruct (Ascii.eqb c sep) eqn:Ec.
  - change ([] :: ?l ++ [?x]) with (([] :: l) ++ [x]) in E.
    apply app_inj_tail in E as [<- <-]. by rewrite IH.
  - rewrite IH. destruct (lines_of sep a) as [|l ls].
    + simpl in E. change [?x] with ([] ++ [x]) in E at 1.
      apply app_inj_tail in E as [<- <-]. simpl. by rewrite Ec.
    + change (((c :: l) :: ls) ++ [?x]) with ((c :: l) :: (ls ++ [x])) in E.
      simpl in E. change ((c :: l) :: ls ++ [?x]) with (((c :: l) :: ls) ++ [x]) in E.
      by apply app_inj_tail in E as [<- <-].
Qed.

Lemma split_on_pieces sep (s p : text) : p ∈ split_on sep s → sep ∉ p.
Proof.
  revert p. induction s as [|c s IH]; intros p; simpl.
  - intros ->%list_elem_of_singleton. apply not_elem_of_nil.
  - destruct (Ascii.eqb c sep) eqn:Ec.
    + intros [->|H]%elem_of_cons; [apply not_elem_of_nil|by apply IH].
    + pose proof (split_on_nonempty sep s) as Hne.
      destruct (split_on sep s) as [|l ls]; [done|].
      intros [->|H]%elem_of_cons.
      * apply not_elem_of_cons. split; [|apply IH; by left].
        intros <-. by rewrite (proj2 (Ascii.eqb_eq sep sep) eq_refl) in Ec.
      * apply IH. by right.
Qed.

Lemma rest_of_no_sep sep (s : text) : sep ∉ rest_of sep s.
Proof.
  apply (split_on_pieces sep s). rewrite split_on_lines, elem_of_app. right. by left.
Qed.

Lemma lines_of_app sep (a b : text) :
  lines_of sep (a ++ b) = lines_of sep a ++ lines_of sep (rest_of sep a ++ b).
Proof.
  unfold lines_of at 1. rewrite split_on_app, (split_on_lines sep (rest_of sep a ++ b)).
  by rewrite (assoc_L (++)), removelast_snoc.
Qed.

Lemma rest_of_app sep (a b : text) :
  rest_of sep (a ++ b) = rest_of sep (rest_of sep a ++ b).
Proof.
  unfold rest_of at 1. rewrite split_on_app, (split_on_lines sep (rest_of sep a ++ b)).
  by rewrite (assoc_L (++)), last_snoc.
Qed.

(** ** The loop of the demultiplexer *)

Section DemultiplexerProperties.
Context (JSON_parse : text → option jsval).

Abbreviation decode' := (decode JSON_parse).
Abbreviation for_lines' := (for_lines JSON_parse).
Abbreviation read_loop' := (read_loop JSON_parse).

Lemma for_lines_events (isReasoning : bool) (lines : list text) :
  for_lines' isReasoning lines = for_events isReasoning (decode' <$> lines).
Proof.
  revert isReasoning. induction lines as [|l lines IH]; intros st; [done|].
  rewrite fmap_cons. simpl. destruct (decode' l) as [| |r c]; [done..|].
  destruct (emit st r c) as [out st']. by rewrite IH.
Qed.

Lemma for_events_app (isReasoning : bool) (evs1 evs2 : list event) :
  for_events isReasoning (evs1 ++ evs2) =
    let '(out1, isReasoning1, returned1) := for_events isReasoning evs1 in
    if returned1 then (out1, isReasoning1, true)
    else
      let '(out2, isReasoning2, returned2) := for_events isReasoning1 evs2 in
      (out1 ++ out2, isReasoning2, returned2).
Proof.
  revert isReasoning. induction evs1 as [|ev evs1 IH]; intros st.
  - simpl. by destruct (for_events st evs2) as [[out2 st2] ret2].
  - change ((ev :: evs1) ++ evs2) with (ev :: (evs1 ++ evs2)).
    destruct ev as [| |r c]; simpl; [apply IH|done|].
    destruct (emit st r c) as [out st']. rewrite IH.
    destruct (for_events st' evs1) as [[out1 st1] [|]]; [done|].
    destruct (for_events st1 evs2) as [[out2 st2] ret2]. by rewrite (assoc_L (++)).
Qed.

Lemma for_events_skips (isReasoning : bool) (evs : list event) :
  for_events isReasoning (List.filter (λ ev, negb (is_skip ev)) evs)
  = for_events isReasoning evs.
Proof.
  revert isReasoning. induction evs as [|ev evs IH]; intros st; [done|].
  destruct ev as [| |r c]; simpl; [apply IH|done|].
  destruct (emit st r c) as [out st']. by rewrite IH.
Qed.

Lemma for_lines_app (isReasoning : bool) (lines1 lines2 : list text) :
  for_lines' isReasoning (lines1 ++ lines2) =
    let '(out1, isReasoning1, returned1) := for_lines' isReasoning lines1 in
    if returned1 then (out1, isReasoning1, true)
    else
      let '(out2, isReasoning2, returned2) := for_lines' isReasoning1 lines2 in
      (out1 ++ out2, isReasoning2, returned2).
Proof.
  rewrite !for_lines_events, fmap_app, for_events_app.
  destruct (for_events isReasoning (decode' <$> lines1)) as [[out1 st1] ret1].
  by rewrite for_lines_events.
Qed.

(** the chunks are read as the lines of their concatenation: all the
    complete lines are handled in order, whatever the chunk boundaries *)
Lemma read_loop_chunks (chunks : list text) (tail : list read)
    (buffer : text) (isReasoning : bool) :
  LF ∉ buffer →
  read_loop' ((Chunk <$> chunks) ++ tail) buffer isReasoning =
    let '(out, isReasoning', returned) :=
      for_lines' isReasoning (lines_of LF (buffer ++ mjoin chunks)) in
    if returned then (out, DoneSentinel)
    else
      let '(out', c) :=
        read_loop' tail (rest_of LF (buffer ++ mjoin chunks)) isReasoning' in
      (out ++ out', c).
Proof.
  revert buffer isReasoning. induction chunks as [|v chunks IH]; intros buffer st Hb.
  - simpl. rewrite (right_id_L [] (++)). unfold lines_of, rest_of.
    rewrite (split_on_none _ _ Hb). simpl.
    by destruct (read_loop' tail buffer st) as [out' c].
  - change (mjoin (v :: chunks)) with (v ++ mjoin chunks).
    rewrite (assoc_L (++)), (rest_of_app LF (buffer ++ v) (mjoin chunks)),
      (lines_of_app LF (buffer ++ v) (mjoin chunks)), for_lines_app.
    change (read_loop' ((Chunk <$> v :: chunks) ++ tail) buffer st) with
      (let '(out, st', returned) := for_lines' st (lines_of LF (buffer ++ v)) in
       if returned then (out, DoneSentinel)
       else
         let '(out', c) :=
           read_loop' ((Chunk <$> chunks) ++ tail) (rest_of LF (buffer ++ v)) st' in
         (out ++ out', c)).
    destruct (for_lines' st (lines_of LF (buffer ++ v))) as [[o1 s1] [|]]; [done|].
    rewrite IH by apply rest_of_no_sep.
    destruct (for_lines' s1 _) as [[o2 s2] [|]]; [done|].
    destruct (read_loop' tail _ s2) as [o3 c]. by rewrite (assoc_L (++)).
Qed.

Lemma emit_bracketed (isReasoning : bool) (r c : jsval) :
  ∀ rest,
    well_bracketed_from isReasoning ((emit isReasoning r c).1 ++ rest)
    = well_bracketed_from (emit isReasoning r c).2 rest
  ∧ span_from isReasoning (emit isReasoning r c).1 = (emit isReasoning r c).2.
Proof.
  intros rest. unfold emit.
  by destruct (truthy r), (truthy c), isReasoning.
Qed.

Lemma for_events_bracketed (evs : list event) (isReasoning : bool) :
  ∀ rest,
    well_bracketed_from isReasoning ((for_events isReasoning evs).1.1 ++ rest)
    = well_bracketed_from (for_events isReasoning evs).1.2 rest
  ∧ span_from isReasoning (for_events isReasoning evs).1.1
    = (for_events isReasoning evs).1.2.
Proof.
  revert isReasoning. induction evs as [|ev evs IH]; intros st rest; [done|].
  destruct ev as [| |r c]; simpl; [apply IH|done|].
  destruct (emit_bracketed st r c (((for_events (emit st r c).2 evs).1.1) ++ rest))
    as [E1 E2].
  destruct (emit st r c) as [out st'] eqn:E. simpl in *.
  destruct (IH st' rest) as [E3 E4].
  destruct (for_events st' evs) as [[out' st''] ret]. simpl in *.
  rewrite <- (assoc_L (++)), E1, E3. split; [done|].
  unfold span_from in *. by rewrite foldl_app, E2, E4.
Qed.

Lemma for_lines_bracketed (lines : list text) (isReasoning : bool) out st' ret :
  for_lines' isReasoning lines = (out, st', ret) →
  (∀ rest, well_bracketed_from isReasoning (out ++ rest) = well_bracketed_from st' rest)
  ∧ span_from isReasoning out = st'.
Proof.
  rewrite for_lines_events. intros E.
  pose proof (for_events_bracketed (decode' <$> lines) isReasoning) as H.
  rewrite E in H. simpl in H. split; [intros rest; by destruct (H rest)|].
  by destruct (H []).
Qed.

(** a run that ends with the stream closes the span it is in *)
Lemma read_loop_bracketed (reads : list read) (buffer : text) (isReasoning : bool) tokens :
  read_loop' reads buffer isReasoning = (tokens, EndOfStream) →
  well_bracketed_from isReasoning tokens = true.
Proof.
  revert buffer isReasoning tokens.
  induction reads as [|rd reads IH]; intros buffer st tokens.
  - simpl. intros [= <-]. by destruct st.
  - destruct rd as [v|e]; [|done]. simpl.
    destruct (for_lines' st _) as [[out st'] ret] eqn:E.
    apply for_lines_bracketed in E as [E _].
    destruct ret; [done|].
    destruct (read_loop' reads _ st') as [out' c] eqn:E'. intros [= <- ->].
    rewrite E. by apply (IH _ _ _ E').
Qed.

(** a record that cannot be parsed is skipped *)
Lemma decode_malformed (record : text) :
  malformed JSON_parse record → decode' record = Skip.
Proof.
  intros (dataStr & E1 & E2 & E3). unfold decode. rewrite E1.
  case_decide; [done|]. by rewrite E3.
Qed.

Lemma for_lines_skip (isReasoning : bool) (lines1 lines2 : list text) bad :
  decode' bad = Skip →
  for_lines' isReasoning (lines1 ++ bad :: lines2)
  = for_lines' isReasoning (lines1 ++ lines2).
Proof.
  intros E. rewrite !for_lines_app.
  destruct (for_lines' isReasoning lines1) as [[o1 s1] [|]]; [done|].
  simpl. by rewrite E.
Qed.

End DemultiplexerProperties.

Lemma lines_after (l : list text) (s s' : text) :
  split_on LF s' = l ++ split_on LF s →
  lines_of LF s' = l ++ lines_of LF s ∧ rest_of LF s' = rest_of LF s.
Proof.
  intros E. unfold lines_of at 1, rest_of at 1. rewrite E, (split_on_lines LF s).
  by rewrite (assoc_L (++)), removelast_snoc, last_snoc.
Qed.

(** a record at a line boundary is one more line *)
Lemma lines_with_record (before bad after : text) :
  before = [] ∨ (∃ b, before = b ++ [LF]) → LF ∉ bad →
  ∃ lines1,
    lines_of LF (before ++ bad ++ [LF] ++ after) = lines1 ++ bad :: lines_of LF after
    ∧ lines_of LF (before ++ after) = lines1 ++ lines_of LF after
    ∧ rest_of LF (before ++ bad ++ [LF] ++ after) = rest_of LF (before ++ after).
Proof.
  intros Hb Hbad.
  assert (split_on LF (bad ++ [LF] ++ after) = [bad] ++ split_on LF after) as Hs.
  { change (bad ++ [LF] ++ after) with (bad ++ LF :: after).
    by rewrite split_on_sep, split_on_none. }
  assert (∃ lines1,
            split_on LF (before ++ bad ++ [LF] ++ after)
              = (lines1 ++ [bad]) ++ split_on LF after
            ∧ split_on LF (before ++ after) = lines1 ++ split_on LF after)
    as (lines1 & E1 & E2).
  { destruct Hb as [-> | [b ->]].
    - exists []. change ([] ++ ?x) with x. by rewrite Hs.
    - exists (split_on LF b). rewrite <- !(assoc_L (++) b).
      change ([LF] ++ ?s) with (LF :: s).
      rewrite !split_on_sep. change (bad ++ LF :: after) with (bad ++ [LF] ++ after).
      by rewrite Hs, !(assoc_L (++)). }
  exists lines1. apply lines_after in E1 as [E1 E1']. apply lines_after in E2 as [E2 E2'].
  rewrite E1, E2, E1', E2'. by rewrite <- (assoc_L (++)).
Qed.

(** ** Reasoning deltas followed by answer deltas *)

Lemma fullContent_from (tokens : list token) (acc : option text) :
  foldl append_chunk acc tokens =
    match acc, fullContent tokens with
    | Some a, Some b => Some (a ++ b)
    | _, _ => None
    end.
Proof.
  unfold fullContent. revert acc. induction tokens as [|t tokens IH]; intros acc.
  - simpl. destruct acc as [a|]; [|done]. by rewrite (right_id_L [] (++)).
  - cbn [foldl]. rewrite (IH (append_chunk acc t)), (IH (append_chunk (Some []) t)).
    unfold append_chunk. destruct acc as [a|]; [|done].
    destruct (yielded t); try done.
    destruct (foldl _ (Some []) tokens); [|done]. by rewrite (assoc_L (++)).
Qed.

Lemma fullContent_app (tokens1 tokens2 : list token) :
  fullContent (tokens1 ++ tokens2) =
    match fullContent tokens1, fullContent tokens2 with
    | Some a, Some b => Some (a ++ b)
    | _, _ => None
    end.
Proof.
  unfold fullContent at 1. rewrite foldl_app. fold (fullContent tokens1).
  apply fullContent_from.
Qed.

Lemma fullContent_strings (f : jsval → token) (l : list text) :
  (∀ s, yielded (f (JStr s)) = JStr s) →
  fullContent (f ∘ JStr <$> l) = Some (mjoin l).
Proof.
  intros Hf. induction l as [|s l IH]; [done|].
  rewrite fmap_cons. change (?t :: ?ts) with ([t] ++ ts). rewrite fullContent_app, IH.
  unfold fullContent. simpl. by rewrite Hf.
Qed.

Lemma emit_reasoning (isReasoning : bool) (r : text) (c : jsval) :
  r ≠ [] → truthy c = false →
  emit isReasoning (JStr r) c
  = ((if isReasoning then [] else [OpenTag]) ++ [Reasoning (JStr r)], true).
Proof.
  intros Hr Hc. unfold emit. rewrite Hc. simpl.
  rewrite bool_decide_eq_false_2 by done. simpl. by rewrite (right_id_L [] (++)).
Qed.

Lemma emit_answer (isReasoning : bool) (r : jsval) (a : text) :
  a ≠ [] → truthy r = false →
  emit isReasoning r (JStr a)
  = ((if isReasoning then [CloseTag] else []) ++ [Content (JStr a)], false).
Proof.
  intros Ha Hr. unfold emit. rewrite Hr. simpl.
  by rewrite bool_decide_eq_false_2 by done.
Qed.

Lemma for_events_reasoning (rs : list text) (evr : list event) :
  Forall2 reasoning_only rs evr →
  for_events true evr = (Reasoning ∘ JStr <$> rs, true, false).
Proof.
  induction 1 as [|r ev rs evr (Hr & c & Hc & ->) _ IH]; [done|].
  simpl for_events. rewrite (emit_reasoning _ _ _ Hr Hc), IH. done.
Qed.

Lemma for_events_answer (cs : list text) (eva : list event) :
  Forall2 answer_only cs eva →
  for_events false eva = (Content ∘ JStr <$> cs, false, false).
Proof.
  induction 1 as [|a ev cs eva (Ha & r & Hr & ->) _ IH]; [done|].
  simpl for_events. rewrite (emit_answer _ _ _ Ha Hr), IH. done.
Qed.

Lemma fullContent_cons_string (t : token) (s : text) (tokens : list token) :
  yielded t = JStr s →
  fullContent (t :: tokens) = (λ b, s ++ b) <$> fullContent tokens.
Proof.
  intros Ht. change (t :: tokens) with ([t] ++ tokens). rewrite fullContent_app.
  unfold fullContent at 1. simpl. unfold append_chunk. rewrite Ht.
  by destruct (fullContent tokens).
Qed.

(** the tokens for reasoning deltas followed by answer deltas, with the
    closing marker of the end of the stream when the span is open *)
Lemma for_events_round_trip (rs cs : list text) (evr eva : list event) :
  Forall2 reasoning_only rs evr → Forall2 answer_only cs eva → rs ≠ [] →
  ∃ out isReasoning,
    for_events false (evr ++ eva) = (out, isReasoning, false)
    ∧ fullContent (out ++ (if isReasoning then [CloseTag] else []))
      = Some (lit "<think>" ++ mjoin rs ++ lit "</think>" ++ mjoin cs).
Proof.
  intros Hrs Hcs Hne.
  destruct Hrs as [|r ev rs evr (Hr & c & Hc & ->) Hrs]; [done|].
  change ((?x :: ?l) ++ ?k) with (x :: (l ++ k)). simpl for_events.
  rewrite (emit_reasoning _ _ _ Hr Hc), for_events_app, (for_events_reasoning _ _ Hrs).
  change (mjoin (r :: rs)) with (r ++ mjoin rs).
  destruct Hcs as [|a ev cs eva (Ha & r' & Hr' & ->) Hcs].
  - eexists _, _. split; [done|]. simpl app.
    rewrite (fullContent_cons_string OpenTag (lit "<think>")) by done.
    rewrite (fullContent_cons_string (Reasoning _) r) by done.
    rewrite <- (assoc_L (++)), fullContent_app, (fullContent_strings Reasoning) by done.
    simpl. by rewrite <- ?(assoc_L (++)), ?(right_id_L [] (++)).
  - simpl for_events. rewrite (emit_answer _ _ _ Ha Hr'), (for_events_answer _ _ Hcs).
    eexists _, _. split; [done|]. simpl app.
    rewrite (fullContent_cons_string OpenTag (lit "<think>")) by done.
    rewrite (fullContent_cons_string (Reasoning _) r) by done.
    rewrite (right_id_L [] (++)), fullContent_app, (fullContent_strings Reasoning) by done.
    rewrite (fullContent_cons_string CloseTag (lit "</think>")) by done.
    rewrite (fullContent_cons_string (Content _) a) by done.
    rewrite (fullContent_strings Content) by done.
    simpl. by rewrite <- ?(assoc_L (++)), ?(right_id_L [] (++)).
Qed.

Lemma read_loop_round_trip (JSON_parse : text → option jsval)
    (chunks : list text) (rs cs : list text) (evr eva : list event) :
  events_of JSON_parse (mjoin chunks) = evr ++ eva →
  Forall2 reasoning_only rs evr → Forall2 answer_only cs eva → rs ≠ [] →
  ∃ tokens,
    streamChat JSON_parse (Chunk <$> chunks) = (tokens, EndOfStream)
    ∧ fullContent tokens
      = Some (lit "<think>" ++ mjoin rs ++ lit "</think>" ++ mjoin cs).
Proof.
  intros E Hrs Hcs Hne. unfold streamChat.
  rewrite <- (right_id_L [] (++) (Chunk <$> chunks)).
  rewrite read_loop_chunks by apply not_elem_of_nil. change ([] ++ ?s) with s.
  rewrite for_lines_events, <- for_events_skips. fold (events_of JSON_parse (mjoin chunks)).
  rewrite E.
  destruct (for_events_round_trip rs cs evr eva Hrs Hcs Hne) as (out & st & -> & Hfull).
  simpl. by exists (out ++ (if st then [CloseTag] else [])).
Qed.

(** ** The examples of the specification, on the model *)

Example unwrap_example :
  clean_citations (lit "Here (https://example.com/page) is a link.")
  = lit "Here  https://example.com/page  is a link.".
Proof. by vm_compute. Qed.

Example activities_example :
  let p :=
    parse Platform.URL_hostname
      (q "<think>'query': 'capital of France' 'url': 'https://en.wikipedia.org/Paris'")
      true in
  activities p
    = [(query, lit "capital of France"); (url, lit "https://en.wikipedia.org/Paris")]
  ∧ activeAction p = lit "Reading content from en.wikipedia.org...".
Proof. by vm_compute. Qed.

Example empty_input_example :
  parse Platform.URL_hostname [] true
  = {| thought := []; main := []; searchActions := [];
       activeAction := lit "Thinking Process" |}.
Proof. by vm_compute. Qed.

Example unterminated_span_example :
  let p := parse Platform.URL_hostname (lit "Hi <think>still thinking") true in
  thought p = lit "still thinking" ∧ main p = lit "Hi".
Proof. by vm_compute. Qed.

(** ** The claims about the search actions and the status *)

(** C5: for every input the list of activities returned by the parser holds
    no two entries with the same value, whatever their kinds; in
    particular a value that the scan for url markers finds, however many
    times, is the value of exactly one activity. *)
Theorem C5_activity_values_distinct (URL_hostname : text → option text)
    (content0 : text) (isThinking : bool) :
  let p := parse URL_hostname content0 isThinking in
  NoDup (content <$> searchActions p)
  ∧ ∀ X, X ∈ exec_all urlRegex (thought p) →
         length (filter (λ a, content a = X) (searchActions p)) = 1.
Proof.
  simpl. split; [apply extract_actions_NoDup|].
  intros X HX. apply count_one; [apply extract_actions_NoDup|].
  by apply url_marker_extracted.
Qed.

(** the same url marker twice in the reasoning: one activity *)
Lemma C5_activity_values_distinct_witness :
  let text0 := q "<think>'url': 'https://a.example/x' again 'url': 'https://a.example/x'</think>" in
  let p := parse Platform.URL_hostname text0 true in
  exec_all urlRegex (thought p) = [lit "https://a.example/x"; lit "https://a.example/x"]
  ∧ length (filter (λ a, content a = lit "https://a.example/x") (searchActions p)) = 1.
Proof.
  split; [by vm_compute|].
  apply (C5_activity_values_distinct Platform.URL_hostname).
  apply list_elem_of_In. vm_compute. by left.
Defined.

(** C10: in the list of activities every query comes before every url: the
    list is a block of queries followed by a block of urls, whatever the
    order of the markers in the reasoning text; with a url marker written
    before a query marker the list is not in the order of the text. *)
Theorem C10_queries_before_urls (URL_hostname : text → option text) :
  (∀ content0 isThinking,
     ∃ qs us, searchActions (parse URL_hostname content0 isThinking) = qs ++ us
              ∧ Forall (λ a, type a = query) qs
              ∧ Forall (λ a, type a = url) us)
  ∧ activities (parse URL_hostname
        (q "<think>'url': 'https://a.example/x' then 'query': 'rocq'</think>") true)
    = [(query, lit "rocq"); (url, lit "https://a.example/x")].
Proof.
  split; [|by vm_compute].
  intros content0 isThinking. apply extract_actions_shape.
Qed.

(** C4 (the code departs from the claim): a url marker whose value was
    already recorded from a query marker adds no url action, so the test of
    the fallback finds no url action and the fallback runs; here it
    contributes the bare URL of the reasoning text. *)
Theorem C4_fallback_runs_beside_url_marker (URL_hostname : text → option text) :
  let text0 :=
    q "<think>'query': 'https://a.example/x' 'url': 'https://a.example/x' see https://b.example/page</think>" in
  let p := parse URL_hostname text0 false in
  exec_all urlRegex (thought p) = [lit "https://a.example/x"]
  ∧ fallback_runs (thought p) (structured_actions (thought p)).2 = true
  ∧ (λ a, (type a, content a, id a)) <$> searchActions p
    = [(query, lit "https://a.example/x", lit "q-0");
       (url, lit "https://b.example/page", lit "u-raw-1")].
Proof. by vm_compute. Qed.

(** C7, as amended: while the message is live and there is an activity, the
    status describes the last one: a query by its value, a url by the host
    of the URL without a leading www.; when the URL constructor rejects the
    value the status names the fixed word web, not the value. *)
Theorem C7_status_of_last_activity (URL_hostname : text → option text)
    (content0 : text) (a : SearchAction) :
  last (searchActions (parse URL_hostname content0 true)) = Some a →
  activeAction (parse URL_hostname content0 true) =
    match type a with
    | query => lit "Searching Google for " ++ [dquote] ++ content a ++ [dquote]
    | url =>
        lit "Reading content from "
        ++ match URL_hostname (content a) with
           | Some host => default host (starts_with (lit "www.") host)
           | None => lit "web"
           end
        ++ lit "..."
    end.
Proof.
  intros H.
  change (activeAction (parse URL_hostname content0 true))
    with (active_of URL_hostname true (searchActions (parse URL_hostname content0 true))).
  unfold active_of. rewrite H. unfold describe, getDomain.
  destruct (type a); [done|]. destruct (URL_hostname (content a)) as [host|]; [|done].
  by destruct (starts_with (lit "www.") host).
Qed.

Lemma C7_status_of_last_activity_witness :
  let text0 := q "<think>'query': 'capital of France' 'url': 'https://www.wikipedia.org/Paris'" in
  last (searchActions (parse Platform.URL_hostname text0 true))
    = Some {| type := url; content := lit "https://www.wikipedia.org/Paris"; id := lit "u-1" |}
  ∧ activeAction (parse Platform.URL_hostname text0 true)
    = lit "Reading content from wikipedia.org...".
Proof.
  assert (last (searchActions (parse Platform.URL_hostname
            (q "<think>'query': 'capital of France' 'url': 'https://www.wikipedia.org/Paris'") true))
          = Some {| type := url; content := lit "https://www.wikipedia.org/Paris";
                    id := lit "u-1" |}) as H by (by vm_compute).
  split; [exact H|].
  rewrite (C7_status_of_last_activity _ _ _ H). by vm_compute.
Defined.

(** C7 as it is stated fails: the value is not a URL, the constructor
    throws, and the status is the fixed text with web; the value does not
    appear in it. *)
Lemma C7_malformed_url_counterexample :
  let text0 := q "<think>'url': 'not a url'</think>" in
  let p := parse Platform.URL_hostname text0 true in
  activities p = [(url, lit "not a url")]
  ∧ Platform.URL_hostname (lit "not a url") = None
  ∧ activeAction p = lit "Reading content from web..."
  ∧ activeAction p ≠ claimed_status Platform.URL_hostname true (searchActions p)
  ∧ ¬ occurs (lit "not a url") (activeAction p).
Proof.
  intros text0 p. split_and!; [by vm_compute..|].
  apply split_at_first_None. by vm_compute.
Qed.

(** ** The claims about the reasoning and the body *)

Lemma not_occurs_by_search (m s : text) :
  split_at_first m s = None → ¬ occurs m s.
Proof. apply split_at_first_None. Qed.







(** ** The claim about re-parsing a longer text *)




(** Why the amended statement asks for reasoning without parentheses, and
    keeps the value but not the kind of a url activity. *)

(** a closing parenthesis that arrives later makes the citation pattern
    match inside a query value, and unwrapping changes the value *)
Remark unwrapping_changes_query_value :
  let shorter := q "<think>'query': 'a (https://x.y'" in
  activities (parse Platform.URL_hostname shorter true)
    = [(query, lit "a (https://x.y"); (url, lit "https://x.y")]
  ∧ activities (parse Platform.URL_hostname (shorter ++ lit ")") true)
    = [(query, lit "a  https://x.y"); (url, lit "https://x.y")].
Proof. by vm_compute. Qed.

(** a query marker that arrives later takes the value of a url activity *)
Remark url_becomes_query :
  let shorter := q "<think>'url': 'https://x.y/z'" in
  activities (parse Platform.URL_hostname shorter true)
    = [(url, lit "https://x.y/z")]
  ∧ activities (parse Platform.URL_hostname (shorter ++ q " 'query': 'https://x.y/z'") true)
    = [(query, lit "https://x.y/z")].
Proof. by vm_compute. Qed.

(** ** The claims about the demultiplexer *)




(** the sentinel: the generator returns where it stands *)
Remark done_sentinel_returns :
  streamChat Platform.JSON_parse
    [Chunk (q "data: {'choices':[{'delta':{'reasoning':'hm'}}]}" ++ [LF]
            ++ lit "data: [DONE]" ++ [LF])]
  = ([OpenTag; Reasoning (JStr (lit "hm"))], DoneSentinel).
Proof. by vm_compute. Qed.




(** C9: a malformed record is skipped and the stream goes on: whatever the
    chunk boundaries, the stream with the record (a whole line, between
    two lines) yields the tokens and finishes the way the stream without
    the record does. *)
Theorem C9_malformed_record_skipped (JSON_parse : text → option jsval)
    (chunks chunks' : list text) (before bad after : text) (tail : list read) :
  malformed JSON_parse bad →
  LF ∉ bad →
  before = [] ∨ (∃ b, before = b ++ [LF]) →
  mjoin chunks = before ++ bad ++ [LF] ++ after →
  mjoin chunks' = before ++ after →
  streamChat JSON_parse ((Chunk <$> chunks) ++ tail)
  = streamChat JSON_parse ((Chunk <$> chunks') ++ tail).
Proof.
  intros Hbad Hlf Hb E E'. unfold streamChat.
  rewrite !read_loop_chunks by apply not_elem_of_nil.
  change ([] ++ ?s) with s. rewrite E, E'.
  destruct (lines_with_record before bad after Hb Hlf) as (lines1 & -> & -> & ->).
  by rewrite (for_lines_skip JSON_parse _ _ _ _ (decode_malformed JSON_parse _ Hbad)).
Qed.

Lemma C9_malformed_record_skipped_witness :
  let first := q "data: {'choices':[{'delta':{'reasoning':'hm'}}]}" ++ [LF] in
  let bad := q "data: {'choices':[{'delta':{'content':'H" in
  let second := q "data: {'choices':[{'delta':{'content':'Hi'}}]}" ++ [LF] in
  let chunks :=
    [first ++ q "data: {'choices':[{'del"; q "ta':{'content':'H" ++ [LF] ++ second] in
  streamChat Platform.JSON_parse (Chunk <$> chunks)
  = streamChat Platform.JSON_parse (Chunk <$> [first; second])
  ∧ streamChat Platform.JSON_parse (Chunk <$> [first; second])
    = ([OpenTag; Reasoning (JStr (lit "hm")); CloseTag; Content (JStr (lit "Hi"))],
       EndOfStream).
Proof.
  intros first bad second chunks. split; [|by vm_compute].
  pose proof (C9_malformed_record_skipped Platform.JSON_parse
    chunks [first; second] first bad second []) as H.
  rewrite !(right_id_L [] (++)) in H. apply H.
  - exists (q "{'choices':[{'delta':{'content':'H"). split_and!; by vm_compute.
  - apply not_in_true. by vm_compute.
  - right. by eexists.
  - by vm_compute.
  - by vm_compute.
Defined.

(** ** The display form of a URL *)

Ltac in_list := repeat first [ by left | right ].

Lemma strip_slash_spec (s : text) :
  (strip_slash s = s ∧ last s ≠ Some "/"%char) ∨ s = strip_slash s ++ lit "/".
Proof.
  unfold strip_slash. destruct (last s) as [c|] eqn:E; [|by left].
  destruct (Ascii.eqb c "/") eqn:Ec.
  - apply Ascii.eqb_eq in Ec as ->. right.
    apply last_Some in E as [l' ->]. by rewrite removelast_snoc.
  - left. split; [done|]. intros [= ->]. by rewrite Ascii.eqb_refl in Ec.
Qed.

Lemma strip_protocol_spec (u : text) :
  (scheme u = None ∧ strip_protocol u = u)
  ∨ ∃ sch, scheme u = Some (sch, drop (length sch) u)
      ∧ (sch = lit "http://" ∨ sch = lit "https://")
      ∧ (u = sch ++ strip_protocol u ∨ u = sch ++ lit "www." ++ strip_protocol u).
Proof.
  unfold strip_protocol. destruct (scheme u) as [[sch rest]|] eqn:E; [|by left].
  right. exists sch. destruct (scheme_Some _ _ _ E) as [-> Hsch].
  rewrite drop_app_length. split_and!; [done..|].
  destruct (starts_with (lit "www.") rest) as [rest'|] eqn:Ew; [|by left].
  apply starts_with_Some in Ew as ->. by right.
Qed.

Lemma strip_slash_length (s : text) : length (strip_slash s) ≤ length s.
Proof.
  destruct (strip_slash_spec s) as [[-> _] | E]; [done|].
  rewrite E at 2. rewrite length_app. lia.
Qed.


(** A text is its own display form exactly when it does not begin with a
    protocol and does not end with a slash: this is the case of a search
    query shown in the activity feed. *)
Theorem formatDisplayUrl_fixed (u : text) :
  formatDisplayUrl u = u ↔ scheme u = None ∧ last u ≠ Some "/"%char.
Proof.
  unfold formatDisplayUrl. split.
  - intros E.
    destruct (strip_protocol_spec u) as [[En Ep] | (sch & Es & Hsch & Eu)].
    + split; [done|]. rewrite Ep in E.
      destruct (strip_slash_spec u) as [[_ H] | H]; [done|].
      rewrite E in H. apply (f_equal length) in H. rewrite length_app in H.
      simpl in H. lia.
    + exfalso. pose proof (strip_slash_length (strip_protocol u)) as Hle.
      rewrite E in Hle.
      assert (length (strip_protocol u) < length u); [|lia].
      destruct Eu as [Eu | Eu]; rewrite Eu at 2; rewrite !length_app;
        destruct Hsch as [-> | ->]; simpl; lia.
  - intros [En Hl].
    destruct (strip_protocol_spec u) as [[_ ->] | (sch & Es & _)]; [|congruence].
    by destruct (strip_slash_spec u) as [[-> _] | H]; [|
      exfalso; apply Hl; rewrite H; apply last_snoc].
Qed.

(** ** What the component shows *)

Lemma extract_actions_nil : extract_actions [] = [].
Proof. reflexivity. Qed.

Lemma all_space_length (s : text) : (length (trim s) =? 0) = bool_decide (all_space s).
Proof.
  destruct (trim s) as [|c t] eqn:E.
  - apply trim_nil_iff in E. by rewrite bool_decide_eq_true_2.
  - rewrite bool_decide_eq_false_2; [done|]. intros H%trim_nil_iff. congruence.
Qed.

Section ViewProperties.

Context (URL_hostname : text → option text).

Abbreviation parse' := (parse URL_hostname).
Abbreviation render' := (render URL_hostname).

(** Search actions are extracted from the reasoning only: a text with
    search actions has a non-empty reasoning.  So the thought section is
    shown exactly when there is reasoning text, the second test of
    [hasThoughts] never decides. *)
Theorem activities_need_reasoning (content0 : text) (isThinking : bool) :
  searchActions (parse' content0 isThinking) ≠ [] →
  thought (parse' content0 isThinking) ≠ []
  ∧ hasThoughts (parse' content0 isThinking) = true.
Proof.
  unfold parse, hasThoughts. cbn [searchActions thought].
  destruct (fullThought_of content0) as [|c t] eqn:E.
  - by rewrite extract_actions_nil.
  - done.
Qed.

(** A text with no reasoning marker and no leaked tool call is shown
    without the thought section, whatever else it contains: as the
    placeholder while it is blank and the answer is being generated, and
    else as its body alone, which is the text trimmed with its citations
    unwrapped. *)
Theorem plain_text_has_no_thought_section (content0 : text) (isThinking : bool) :
  ¬ occurs (lit "<think>") content0 → ¬ occurs (lit "<|start|>") content0 →
  render' content0 isThinking =
    if isThinking && bool_decide (all_space content0) then Placeholder
    else Sections None
           match trim (clean_citations content0) with
           | [] => None
           | body => Some body
           end.
Proof.
  intros H1 H2. destruct (plain_text content0 H1 H2) as [Et Em].
  unfold render. rewrite all_space_length.
  destruct (isThinking && bool_decide (all_space content0)); [done|].
  unfold parse, hasThoughts. cbn [searchActions thought main].
  rewrite Et, Em, extract_actions_nil. cbn.
  by destruct (trim (clean_citations content0)).
Qed.

Lemma not_all_space_app (x y : text) : ¬ all_space y → ¬ all_space (x ++ y).
Proof. intros H Hxy. apply H. by apply Forall_app in Hxy as [_ ?]. Qed.

Lemma render_open (r : text) (isThinking : bool) :
  "("%char ∉ r → ¬ occurs (lit "</think>") r →
  render' (lit "<think>" ++ r) isThinking =
    match trim r with
    | [] => Sections None None
    | reasoning0 =>
        Sections
          (Some {| spinner := isThinking;
                   status := active_of URL_hostname isThinking (extract_actions (trim r));
                   feed := feed_line <$> extract_actions (trim r);
                   reasoning := reasoning0 |})
          None
    end.
Proof.
  intros Hp Hr. destruct (open_span r Hp Hr) as [Et Em].
  unfold render. rewrite all_space_length.
  rewrite bool_decide_eq_false_2.
  2: { intros H. apply Forall_app in H as [H _]. by apply Forall_cons in H as [? _]. }
  rewrite andb_false_r. set (p := parse' _ _).
  assert (thought p = trim r) as Etp by exact Et.
  assert (main p = []) as Emp by exact Em.
  assert (searchActions p = extract_actions (trim r)) as Eap.
  { subst p. unfold parse. cbn [searchActions]. by rewrite Et. }
  assert (activeAction p = active_of URL_hostname isThinking (extract_actions (trim r)))
    as Eaa.
  { subst p. unfold parse. cbn [activeAction]. by rewrite Et. }
  unfold isThinkingActive, hasThoughts. rewrite Emp, Etp, Eap, Eaa.
  destruct (trim r) as [|c t] eqn:E; [by rewrite extract_actions_nil|].
  cbn. by rewrite andb_true_r.
Qed.

(** While the reasoning streams in (an open span and nothing after it) no
    body is shown, and the thought section appears with the first
    character of reasoning that is not white space; its spinner runs as
    long as the message is marked as thinking.  Until that character the
    component shows neither the placeholder nor any section. *)
Theorem render_open_span (r : text) (isThinking : bool) :
  "("%char ∉ r → ¬ occurs (lit "</think>") r →
  render' (lit "<think>" ++ r) isThinking =
    match trim r with
    | [] => Sections None None
    | reasoning0 =>
        Sections
          (Some {| spinner := isThinking;
                   status := active_of URL_hostname isThinking (extract_actions (trim r));
                   feed := feed_line <$> extract_actions (trim r);
                   reasoning := reasoning0 |})
          None
    end.
Proof. apply render_open. Qed.

(** Once the span is closed and answer text that is not white space has
    arrived, the body is shown and the spinner of the thought section
    stops, also while the message is still being generated. *)
Theorem render_closed_span (r ans : text) (isThinking : bool) :
  "("%char ∉ r ++ ans → ¬ occurs (lit "</think>") r →
  ¬ occurs (lit "<think>") ans → ¬ occurs (lit "<|start|>") ans →
  ¬ all_space ans →
  ∃ thoughts,
    render' (lit "<think>" ++ r ++ lit "</think>" ++ ans) isThinking
      = Sections thoughts (Some (trim ans))
    ∧ (∀ ts, thoughts = Some ts → spinner ts = false ∧ reasoning ts = trim r)
    ∧ (thoughts = None ↔ all_space r).
Proof.
  intros Hp Hr Ha1 Ha2 Ha. destruct (closed_span r ans Hp Hr Ha1 Ha2) as [Et Em].
  unfold render. rewrite all_space_length.
  rewrite bool_decide_eq_false_2.
  2: { intros H. apply Ha. unfold all_space in *. rewrite !Forall_app in H. tauto. }
  rewrite andb_false_r.
  set (p := parse' _ _).
  assert (thought p = trim r) as Etp by exact Et.
  assert (main p = trim ans) as Emp by exact Em.
  assert (trim ans ≠ []) as Hne by (by rewrite trim_nil_iff).
  rewrite Emp. destruct (trim ans) as [|c t] eqn:Eans; [done|].
  eexists. split; [reflexivity|]. split.
  - intros ts. destruct (hasThoughts p); [|done]. intros [= <-]. cbn.
    split; [|done]. unfold isThinkingActive. rewrite Emp.
    by rewrite bool_decide_eq_false_2, andb_false_r.
  - rewrite <- trim_nil_iff, <- Etp. unfold hasThoughts.
    destruct (thought p) as [|c' t'] eqn:E.
    + split; [done|]. intros _.
      assert (searchActions p = []) as ->; [|done].
      subst p. unfold parse in *. cbn [searchActions thought] in *.
      by rewrite E, extract_actions_nil.
    + by split.
Qed.

(** The label of a link whose text is the address itself, as for a bare
    URL that the markdown parser turned into a link: the text shown is the
    display form of the address, not the address. *)
Theorem a_bare_url (href sch rest : text) (more : list child) :
  scheme href = Some (sch, rest) →
  a URL_hostname (Some href) (Array (Str href :: more))
    = Anchor href (getDomain URL_hostname href) (Some (formatDisplayUrl href)).
Proof.
  intros E. destruct (scheme_Some _ _ _ E) as [-> Hsch].
  assert (includes (lit "http") (sch ++ rest) = true) as Hi.
  { unfold includes.
    destruct (split_at_first (lit "http") (sch ++ rest)) eqn:Es; [done|].
    apply split_at_first_None in Es. destruct Es.
    destruct Hsch as [-> | ->].
    - by exists [], (lit "://" ++ rest).
    - by exists [], (lit "s://" ++ rest). }
  unfold a. rewrite Hi. by destruct Hsch as [-> | ->].
Qed.

End ViewProperties.

Ltac not_blank := let H := fresh in intros H%trim_nil_iff; by vm_compute in H.
Ltac not_found := apply split_at_first_None; by vm_compute.


Lemma formatDisplayUrl_fixed_witness :
  scheme (lit "www.example.com weather") = None
  ∧ last (lit "www.example.com weather") ≠ Some "/"%char
  ∧ formatDisplayUrl (lit "www.example.com weather") = lit "www.example.com weather".
Proof.
  assert (scheme (lit "www.example.com weather") = None) as H1 by reflexivity.
  assert (last (lit "www.example.com weather") ≠ Some "/"%char) as H2 by (by vm_compute).
  split; [exact H1|]. split; [exact H2|].
  exact (proj2 (formatDisplayUrl_fixed (lit "www.example.com weather")) (conj H1 H2)).
Defined.

Lemma activities_need_reasoning_witness :
  let text0 := q "<think>'query': 'rocq 9.3 release'</think>It is out." in
  searchActions (parse Platform.URL_hostname text0 true) ≠ []
  ∧ thought (parse Platform.URL_hostname text0 true) ≠ []
  ∧ hasThoughts (parse Platform.URL_hostname text0 true) = true.
Proof.
  intros text0.
  assert (searchActions (parse Platform.URL_hostname text0 true) ≠ []) as H
    by (by vm_compute).
  split; [exact H|].
  exact (activities_need_reasoning Platform.URL_hostname text0 true H).
Defined.

Lemma plain_text_has_no_thought_section_witness :
  let text0 := lit " See (https://example.com/a) for more. " in
  (¬ occurs (lit "<think>") text0 ∧ ¬ occurs (lit "<|start|>") text0)
  ∧ render Platform.URL_hostname text0 true
    = Sections None (Some (lit "See  https://example.com/a  for more.")).
Proof.
  intros text0.
  assert (¬ occurs (lit "<think>") text0) as H1 by not_found.
  assert (¬ occurs (lit "<|start|>") text0) as H2 by not_found.
  split; [done|].
  rewrite (plain_text_has_no_thought_section Platform.URL_hostname text0 true H1 H2).
  rewrite bool_decide_eq_false_2 by not_blank. by vm_compute.
Defined.

Lemma render_open_span_witness :
  let r := q " The user asks for news. 'query': 'rocq news'" in
  (("("%char ∉ r) ∧ ¬ occurs (lit "</think>") r)
  ∧ render Platform.URL_hostname (lit "<think>" ++ r) true
    = Sections
        (Some {| spinner := true;
                 status := q "Searching Google for 'rocq news'";
                 feed := [lit "rocq news"];
                 reasoning := q "The user asks for news. 'query': 'rocq news'" |})
        None.
Proof.
  intros r.
  assert ("("%char ∉ r) as H1 by (apply not_in_true; by vm_compute).
  assert (¬ occurs (lit "</think>") r) as H2 by not_found.
  split; [done|].
  rewrite (render_open_span Platform.URL_hostname r true H1 H2). by vm_compute.
Defined.

Lemma render_closed_span_witness :
  let r := lit " Simple sum. " in
  let ans := lit " It is 4." in
  (("("%char ∉ r ++ ans) ∧ ¬ occurs (lit "</think>") r
   ∧ ¬ occurs (lit "<think>") ans ∧ ¬ occurs (lit "<|start|>") ans ∧ ¬ all_space ans)
  ∧ ∃ thoughts,
      render Platform.URL_hostname (lit "<think>" ++ r ++ lit "</think>" ++ ans) true
        = Sections thoughts (Some (lit "It is 4."))
      ∧ (∀ ts, thoughts = Some ts → spinner ts = false ∧ reasoning ts = lit "Simple sum.")
      ∧ (thoughts = None ↔ all_space r).
Proof.
  intros r ans.
  assert ("("%char ∉ r ++ ans) as H1 by (apply not_in_true; by vm_compute).
  assert (¬ occurs (lit "</think>") r) as H2 by not_found.
  assert (¬ occurs (lit "<think>") ans) as H3 by not_found.
  assert (¬ occurs (lit "<|start|>") ans) as H4 by not_found.
  assert (¬ all_space ans) as H5 by not_blank.
  split; [done|].
  exact (render_closed_span Platform.URL_hostname r ans true H1 H2 H3 H4 H5).
Defined.

Lemma a_bare_url_witness :
  let href := lit "https://www.example.com/docs/" in
  scheme href = Some (lit "https://", lit "www.example.com/docs/")
  ∧ a Platform.URL_hostname (Some href) (Array [Str href])
    = Anchor href (lit "example.com") (Some (lit "example.com/docs")).
Proof.
  intros href.
  assert (scheme href = Some (lit "https://", lit "www.example.com/docs/")) as H
    by reflexivity.
  split; [exact H|].
  rewrite (a_bare_url Platform.URL_hostname href _ _ [] H). by vm_compute.
Defined.

(** ** The label of a code block *)

Lemma languageRegex_Some (s w rest : text) :
  languageRegex s = Some (w, rest) →
  w ≠ [] ∧ Forall (λ c, is_word c = true) w.
Proof.
  unfold languageRegex. intros H. bind_step H E r.
  pose proof (take_while_Forall is_word r) as Hw.
  destruct (take_while is_word r) as [|c t]; [done|].
  by injection H as <- _.
Qed.

Lemma exec_Some {A} (M : matcher A) (s : text) a :
  exec M s = Some a → ∃ s' rest, M s' = Some (a, rest).
Proof.
  induction s as [|c s IH]; simpl.
  - destruct (M []) as [[a' rest]|] eqn:E; [|done]. intros [= ->]. by exists [], rest.
  - destruct (M (c :: s)) as [[a' rest]|] eqn:E; [|done].
    intros [= ->]. by exists (c :: s), rest.
Qed.

(** The label of a code block is never empty: it is the word that follows
    [language-] in the class, and [text] when the class has no such word. *)
Theorem code_label_word (className : option text) (children : text) (label : text) :
  code className children = Block label →
  label ≠ [] ∧ Forall (λ c, is_word c = true) label.
Proof.
  unfold code. destruct (exec languageRegex (default [] className)) as [w|] eqn:E.
  - cbn. intros [= <-]. apply exec_Some in E as (s' & rest & E).
    by apply languageRegex_Some in E.
  - cbn. destruct (negb _); [done|]. intros [= <-]. split; [done|].
    by repeat constructor.
Qed.

(** A class that begins with [language-] and a word makes the code a
    block, also when the code is one line, and the label is the longest
    run of word characters after the prefix: of [language-c++] it is [c]. *)
Theorem code_language (w rest children : text) :
  w ≠ [] → Forall (λ c, is_word c = true) w →
  match rest with c :: _ => is_word c = false | [] => True end →
  code (Some (lit "language-" ++ w ++ rest)) children = Block w.
Proof.
  intros Hne Hw Hrest. unfold code. change (default [] (Some ?x)) with x. cbv zeta.
  assert (languageRegex (lit "language-" ++ w ++ rest) = Some (w, rest)) as E.
  { unfold languageRegex. rewrite starts_with_app. cbn [mbind option_bind].
    destruct (take_while_app is_word w rest Hw Hrest) as [-> ->].
    by destruct w. }
  assert (exec languageRegex (lit "language-" ++ w ++ rest) = Some w) as ->.
  { change (lit "language-" ++ w ++ rest) with ("l"%char :: (lit "anguage-" ++ w ++ rest)) in *.
    simpl. simpl in E. by rewrite E. }
  done.
Qed.

Lemma code_label_word_witness :
  code (Some (lit "hljs language-c++")) (lit "int x;") = Block (lit "c")
  ∧ lit "c" ≠ [] ∧ Forall (λ c, is_word c = true) (lit "c").
Proof.
  assert (code (Some (lit "hljs language-c++")) (lit "int x;") = Block (lit "c")) as H
    by reflexivity.
  split; [exact H|].
  exact (code_label_word (Some (lit "hljs language-c++")) (lit "int x;") (lit "c") H).
Defined.

Lemma code_language_witness :
  (lit "c" ≠ [] ∧ Forall (λ c, is_word c = true) (lit "c") ∧ is_word "+" = false)
  ∧ code (Some (lit "language-c++")) (lit "x") = Block (lit "c").
Proof.
  assert (lit "c" ≠ []) as H1 by done.
  assert (Forall (λ c, is_word c = true) (lit "c")) as H2 by (by repeat constructor).
  assert (is_word "+" = false) as H3 by reflexivity.
  split; [done|].
  exact (code_language (lit "c") (lit "++") (lit "x") H1 H2 H3).
Defined.

(** ** The request of streamChat *)

Lemma filter_alter_out {A} (P : A → Prop) `{∀ x, Decision (P x)} (f : A → A)
    (i : nat) (l : list A) :
  (∀ x, l !! i = Some x → ¬ P x ∧ ¬ P (f x)) →
  filter P (alter f i l) = filter P l.
Proof.
  revert i. induction l as [|y l IH]; intros i Hi; [done|].
  destruct i as [|i].
  - destruct (Hi y eq_refl) as [H1 H2].
    change (alter f 0 (y :: l)) with (f y :: l).
    by rewrite !filter_cons, !decide_False.
  - change (alter f (S i) (y :: l)) with (y :: alter f i l).
    rewrite !filter_cons. rewrite (IH i); [done|]. intros x Hx. by apply Hi.
Qed.

Lemma list_find_alter {A} (P : A → Prop) `{∀ x, Decision (P x)} (f : A → A)
    (i : nat) (x : A) (l : list A) :
  list_find P l = Some (i, x) → P (f x) →
  list_find P (alter f i l) = Some (i, f x).
Proof.
  intros (Hl & HP & Hbefore)%list_find_Some Hf. apply list_find_Some. split_and!.
  - by rewrite list_lookup_alter_eq, Hl.
  - done.
  - intros j y Hj Hlt. apply (Hbefore j); [|done].
    by rewrite list_lookup_alter_ne in Hj by lia.
Qed.

Module ServiceFacts.
Import Types Service.

Lemma historyMessage_role (m : Message.t) : role (historyMessage m) = Message.role m.
Proof.
  unfold historyMessage. destruct (Message.attachments m) as [[|att atts]|]; [done| |done].
  by destruct (decide _).
Qed.

(** a message of the history that is not of the user is sent as a string *)
Lemma historyMessage_plain (m : Message.t) :
  Message.role m ≠ User → content (historyMessage m) = plain (Message.content m).
Proof.
  intros H. unfold historyMessage.
  destruct (Message.attachments m) as [[|att atts]|]; [done| |done].
  by rewrite decide_False.
Qed.

Lemma instructions_spec (customInstructions : text) :
  instructions customInstructions =
    if bool_decide (all_space customInstructions) then []
    else [{| role := System; content := plain (trim customInstructions) |}].
Proof.
  unfold instructions. destruct customInstructions as [|a l]; [done|].
  destruct (trim (a :: l)) as [|c t] eqn:E.
  - apply trim_nil_iff in E. by rewrite bool_decide_eq_true_2.
  - rewrite bool_decide_eq_false_2; [done|]. intros H%trim_nil_iff. congruence.
Qed.

Lemma system_is_plain (customInstructions : text) (messages : list Message.t) m :
  m ∈ instructions customInstructions ++ (historyMessage <$> messages) →
  role m = System → ∃ s, content m = plain s.
Proof.
  rewrite elem_of_app. intros [Hm | Hm] Hrole.
  - rewrite instructions_spec in Hm. destruct (bool_decide _); [by apply elem_of_nil in Hm|].
    apply list_elem_of_singleton in Hm as ->. by eexists.
  - apply list_elem_of_fmap in Hm as (m0 & -> & _). eexists.
    apply historyMessage_plain. rewrite historyMessage_role in Hrole. by rewrite Hrole.
Qed.

(** With web search enabled the request has a system message, and the first
    one is a string that ends with the search instruction.  When the custom
    instructions are not blank they are that message: the first message of
    the request is the trimmed instructions followed by the search
    instruction. *)
Theorem web_search_instruction (messages : list Message.t) (customInstructions : text) :
  ∃ i m existing,
    list_find (λ m, role m = System) (apiMessages messages true customInstructions)
      = Some (i, m)
    ∧ content m = plain (existing ++ searchInstruction)
    ∧ (¬ all_space customInstructions → i = 0 ∧ existing = trim customInstructions).
Proof.
  unfold apiMessages.
  cbv zeta.
  destruct (list_find _ (instructions customInstructions ++ _)) as [[i m0]|] eqn:E.
  - pose proof E as (Hl & Hrole & Hbefore)%list_find_Some.
    destruct (system_is_plain customInstructions messages m0) as [s Hs];
      [by eapply list_elem_of_lookup_2|done|].
    exists i, (append_instruction m0), s. split_and!.
    + apply list_find_alter; [done|]. unfold append_instruction. by rewrite Hs.
    + unfold append_instruction. by rewrite Hs.
    + intros Hci. rewrite instructions_spec, bool_decide_eq_false_2 in E by done.
      simpl in E. injection E as <- <-.
      split; [done|]. simpl in Hs. by injection Hs as <-.
  - exists 0, {| role := System;
                 content := plain (lit "You are a helpful assistant." ++ searchInstruction) |},
      (lit "You are a helpful assistant."). split_and!; [done..|].
    intros Hci. rewrite instructions_spec, bool_decide_eq_false_2 in E by done.
    by simpl in E.
Qed.

(** The turns of the conversation are sent as they are and in their order,
    whatever the options: the messages of the request that are not system
    messages are the mapped messages of the history that are not system
    messages.  The options only add to or extend system messages. *)
Theorem conversation_is_sent (messages : list Message.t) (webSearchEnabled : bool)
    (customInstructions : text) :
  filter (λ m, role m ≠ System)
    (apiMessages messages webSearchEnabled customInstructions)
  = historyMessage <$> filter (λ m, Message.role m ≠ System) messages.
Proof.
  assert (filter (λ m, role m ≠ System)
            (instructions customInstructions ++ (historyMessage <$> messages))
          = historyMessage <$> filter (λ m, Message.role m ≠ System) messages) as Hbase.
  { rewrite filter_app. rewrite instructions_spec.
    assert (filter (λ m, role m ≠ System) (historyMessage <$> messages)
            = historyMessage <$> filter (λ m, Message.role m ≠ System) messages) as ->.
    { induction messages as [|m ms IH]; [done|].
      rewrite fmap_cons, !filter_cons, IH, historyMessage_role.
      by destruct (decide (Message.role m ≠ System)). }
    by destruct (bool_decide _). }
  unfold apiMessages. cbv zeta.
  destruct webSearchEnabled; [|done].
  destruct (list_find _ _) as [[i m0]|] eqn:E.
  - rewrite filter_alter_out; [done|].
    apply list_find_Some in E as (Hl & Hrole & _).
    intros x Hx. rewrite Hl in Hx. injection Hx as <-.
    split; [by intros H|].
    unfold append_instruction. destruct (content m0); simpl; by intros H.
  - rewrite filter_cons, decide_False; [done|]. by intros H.
Qed.

(** At most one message is added to the history: the custom instructions
    when they are not blank, and otherwise, with web search enabled and no
    system message in the history, the default system message. *)
Theorem request_length (messages : list Message.t) (webSearchEnabled : bool)
    (customInstructions : text) :
  length (apiMessages messages webSearchEnabled customInstructions)
  = length messages
    + (if bool_decide (all_space customInstructions)
       then if webSearchEnabled
                 && bool_decide (Forall (λ m, Message.role m ≠ System) messages)
            then 1 else 0
       else 1).
Proof.
  unfold apiMessages. cbv zeta.
  assert (length (instructions customInstructions ++ (historyMessage <$> messages))
          = length messages
            + (if bool_decide (all_space customInstructions) then 0 else 1)) as Hbase.
  { rewrite length_app, length_fmap, instructions_spec.
    destruct (bool_decide _); simpl; lia. }
  destruct webSearchEnabled.
  - destruct (list_find _ _) as [[i m0]|] eqn:E.
    + rewrite length_alter, Hbase.
      destruct (bool_decide (all_space customInstructions)) eqn:Eci; [|done].
      rewrite bool_decide_eq_false_2; [done|].
      intros Hall. apply list_find_Some in E as (Hl & Hrole & _).
      rewrite instructions_spec, Eci in Hl. simpl in Hl.
      apply list_lookup_fmap_Some in Hl as (m & -> & Hm).
      rewrite historyMessage_role in Hrole.
      by apply (Forall_lookup_1 _ _ _ _ Hall Hm).
    + cbn [length]. rewrite Hbase.
      apply list_find_None in E. apply Forall_app in E as [E1 E2].
      destruct (bool_decide (all_space customInstructions)) eqn:Eci.
      * rewrite bool_decide_eq_true_2; [simpl; lia|].
        rewrite Forall_fmap in E2. eapply Forall_impl; [exact E2|].
        intros m Hm. simpl in Hm. by rewrite historyMessage_role in Hm.
      * rewrite instructions_spec, Eci in E1. by apply Forall_cons in E1 as [? _].
  - rewrite Hbase. by destruct (bool_decide _).
Qed.

Lemma omap_image_fmap (atts : list Attachment.t) :
  omap image_of (attachment_part <$> atts)
  = Attachment.content <$> filter (λ att, Attachment.type att = image) atts.
Proof.
  induction atts as [|att atts IH]; [done|].
  rewrite fmap_cons, filter_cons.
  change (omap image_of (?p :: ?l)) with
    (match image_of p with Some a => a :: omap image_of l | None => omap image_of l end).
  rewrite IH. unfold attachment_part.
  by destruct (Attachment.type att) eqn:E.
Qed.


Lemma web_search_instruction_witness :
  let messages := [example_message (lit "m1") User (lit "What is new?") (Some [])] in
  ¬ all_space (lit " Be brief. ")
  ∧ ∃ i m existing,
      list_find (λ m, role m = System) (apiMessages messages true (lit " Be brief. "))
        = Some (i, m)
      ∧ content m = plain (existing ++ searchInstruction)
      ∧ i = 0 ∧ existing = lit "Be brief.".
Proof.
  intros messages.
  assert (¬ all_space (lit " Be brief. ")) as H by not_blank.
  split; [exact H|].
  destruct (web_search_instruction messages (lit " Be brief. "))
    as (i & m & existing & H1 & H2 & H3).
  exists i, m, existing. destruct (H3 H) as [-> ->]. by split_and!.
Defined.


End ServiceFacts.

(** ** More on [trim] *)

Lemma trim_end_snoc (a : text) c : is_space c = false → trim_end (a ++ [c]) = a ++ [c].
Proof.
  intros H. rewrite trim_end_app.
  assert (trim_end [c] = [c]) as ->; [|done].
  unfold trim_end. simpl. by rewrite H.
Qed.

Lemma tight_nil : tight [].
Proof. by split. Qed.

Lemma trim_end_tight (w m w2 : text) :
  tight m → m ≠ [] → all_space w2 → trim_end (w ++ m ++ w2) = w ++ m.
Proof.
  intros [_ Hlast] Hne Hw2.
  destruct (last m) as [d|] eqn:El; [|by apply last_None in El].
  apply last_Some in El as [a ->].
  assert (trim_end ((a ++ [d]) ++ w2) = a ++ [d]) as E.
  { rewrite trim_end_app. apply trim_end_nil_iff in Hw2 as ->.
    by apply trim_end_snoc, Hlast. }
  rewrite trim_end_app, E. by destruct a.
Qed.

Lemma trim_between (w1 m w2 : text) :
  all_space w1 → all_space w2 → tight m → trim (w1 ++ m ++ w2) = m.
Proof.
  intros H1 H2 Hm. destruct m as [|c m'].
  - apply trim_nil_iff. apply Forall_app. split; [done|]. by apply Forall_app.
  - unfold trim, trim_start. rewrite drop_while_app.
    apply drop_while_nil_iff in H1 as ->.
    assert (is_space c = false) as Hc by (by apply (proj1 Hm)).
    change ((c :: m') ++ w2) with (c :: (m' ++ w2)). cbn [drop_while]. rewrite Hc.
    by apply (trim_end_tight [] (c :: m') w2).
Qed.

Lemma trim_decompose (s : text) :
  ∃ w1 w2, s = w1 ++ trim s ++ w2 ∧ all_space w1 ∧ all_space w2 ∧ tight (trim s).
Proof.
  destruct (trim_start_decompose s) as (w1 & E1 & H1 & Hhead).
  destruct (trim_end_decompose (trim_start s)) as (w2 & E2 & H2 & Hlast).
  exists w1, w2. unfold trim. split_and!; [by rewrite <- E2| done..|].
  split.
  - intros c Hc. destruct Hhead as [E | (c' & d & E & Hsp)].
    + rewrite E in Hc. done.
    + rewrite E in E2, Hc. destruct (trim_end (c' :: d)) as [|c0 t]; [done|].
      injection Hc as ->. simpl in E2. by injection E2 as -> _.
  - intros c Hc. destruct Hlast as [E | (a & c' & E & Hsp)].
    + rewrite E in Hc. done.
    + rewrite E, last_snoc in Hc. by injection Hc as <-.
Qed.

Lemma tight_trim (s : text) : tight (trim s).
Proof. by destruct (trim_decompose s) as (? & ? & _ & _ & _ & ?). Qed.

Lemma trim_tight (s : text) : tight s → trim s = s.
Proof.
  intros H. rewrite <- (trim_between [] s []) at 2; [|by constructor..|done].
  by rewrite (right_id_L [] (++)).
Qed.

Lemma trim_idemp (s : text) : trim (trim s) = trim s.
Proof. apply trim_tight, tight_trim. Qed.

Lemma trim_trim_end (s : text) : trim (trim_end s) = trim s.
Proof.
  destruct (trim_decompose s) as (w1 & w2 & E & H1 & H2 & Ht).
  destruct (trim s) as [|c t] eqn:Es.
  - apply trim_nil_iff in Es. apply trim_nil_iff.
    apply trim_end_nil_iff in Es as ->. constructor.
  - rewrite E at 1. rewrite trim_end_tight; [|done..].
    rewrite <- (right_id_L [] (++) (c :: t)) at 1.
    by apply trim_between; [|constructor|].
Qed.

(** ** The application: the API key *)

Lemma lower_letter (c : ascii) :
  is_space (Platform.lower c) = false → is_space c = false.
Proof.
  destruct c as [[] [] [] [] [] [] [] []]; by vm_compute.
Qed.

Lemma lower_space (c : ascii) : Platform.lower c = " "%char → c = " "%char.
Proof.
  destruct c as [[] [] [] [] [] [] [] []]; by vm_compute.
Qed.

Module AppFacts.
Import Types App.

(** The normalised API key has no white space at either end, with or
    without the prefix. *)
Theorem normalize_key_trimmed (key : text) :
  trim (normalize_key key) = normalize_key key.
Proof.
  unfold normalize_key. destruct (starts_with _ _); apply trim_idemp.
Qed.

(** A key pasted with the prefix [Bearer ], in any letter case, is stored
    without it and trimmed.  When nothing but white space follows the
    prefix, the space of the prefix is trimmed away first, the prefix is
    not recognised, and the word itself is stored as the key. *)
Theorem normalize_key_bearer (b k : text) :
  toLowerCase b = lit "bearer " →
  normalize_key (b ++ k) = if bool_decide (all_space k) then take 6 b else trim k.
Proof.
  intros Hb. unfold toLowerCase in Hb.
  destruct b as [|c1 [|c2 [|c3 [|c4 [|c5 [|c6 [|c7 [|c8 b]]]]]]]]; try done.
  injection Hb as H1 H2 H3 H4 H5 H6 H7.
  apply lower_space in H7 as ->.
  assert (is_space c1 = false) as Hc1 by (apply lower_letter; by rewrite H1).
  assert (is_space c6 = false) as Hc6 by (apply lower_letter; by rewrite H6).
  set (word := [c1; c2; c3; c4; c5; c6]).
  assert (tight word) as Hword.
  { split; intros c [= <-]; done. }
  unfold normalize_key. destruct (bool_decide (all_space k)) eqn:Ek.
  - apply bool_decide_eq_true_1 in Ek.
    assert (trim ([c1; c2; c3; c4; c5; c6; " "%char] ++ k) = word) as ->.
    { apply (trim_between [] word (" "%char :: k)); [by constructor| |done].
      by constructor. }
    unfold toLowerCase, word. cbn [fmap list_fmap].
    rewrite H1, H2, H3, H4, H5, H6. done.
  - apply bool_decide_eq_false_1 in Ek.
    destruct (trim_end_decompose k) as (w & Ew & Hw & Hlast).
    destruct Hlast as [En | (a & c & Ea & Hc)].
    { destruct Ek. by apply trim_end_nil_iff. }
    assert (trim ([c1; c2; c3; c4; c5; c6; " "%char] ++ k)
            = [c1; c2; c3; c4; c5; c6; " "%char] ++ trim_end k) as ->.
    { rewrite Ew at 1.
      apply (trim_between [] ([c1; c2; c3; c4; c5; c6; " "%char] ++ trim_end k) w);
        [by constructor|done|].
      split.
      - intros c0 [= <-]. done.
      - intros c0. rewrite Ea, (assoc_L (++)), last_snoc. by intros [= <-]. }
    unfold toLowerCase. rewrite fmap_app. cbn [fmap list_fmap].
    rewrite H1, H2, H3, H4, H5, H6.
    change (starts_with (lit "bearer ") _)
      with (starts_with (lit "bearer ") (lit "bearer " ++ (Platform.lower <$> trim_end k))).
    rewrite starts_with_app. cbn [drop app]. apply trim_trim_end.
Qed.

(** *** The sessions *)

(** Deleting a session removes it and no other, and the current session,
    when there is one, is still in the table afterwards: it is reset when
    the deleted session was the current one. *)
Theorem deleteSession_spec (id : text) (sessions : sessions_table)
    (currentSessionId : option text) :
  (∀ c, currentSessionId = Some c → is_Some (sessions !! c)) →
  let after := deleteSession id (sessions, currentSessionId) in
  after.1 !! id = None
  ∧ (∀ j, j ≠ id → after.1 !! j = sessions !! j)
  ∧ (∀ c, after.2 = Some c → is_Some (after.1 !! c)).
Proof.
  intros Hcur after. subst after. unfold deleteSession. cbn [fst snd]. split_and!.
  - apply lookup_delete_eq.
  - intros j Hj. by apply lookup_delete_ne.
  - intros c. destruct (decide (currentSessionId = Some id)) as [->|Hne]; [done|].
    intros E. rewrite lookup_delete_ne by congruence. by apply Hcur.
Qed.

Lemma insert_by_perm {A} (before : A → A → bool) (x : A) (l : list A) :
  insert_by before x l ≡ₚ x :: l.
Proof.
  induction l as [|y l IH]; [done|]. simpl. destruct (before y x); [|done].
  rewrite IH. apply Permutation_swap.
Qed.

Lemma sort_by_perm {A} (before : A → A → bool) (l : list A) : sort_by before l ≡ₚ l.
Proof.
  induction l as [|x l IH]; [done|]. unfold sort_by in *. simpl.
  by rewrite insert_by_perm, IH.
Qed.

Lemma insert_by_descending {A} (key : A → Z) (x : A) (l : list A) :
  descending key l →
  descending key (insert_by (λ a b, Z.ltb (key b - key a) 0) x l).
Proof.
  induction l as [|y l IH]; intros Hl; [by split|]. destruct Hl as [Hy Hl]. simpl.
  destruct (Z.ltb_spec (key x - key y) 0) as [Hlt | Hge].
  - split; [|by apply IH]. rewrite insert_by_perm. constructor; [lia|done].
  - split; [|by split]. constructor; [lia|].
    eapply Forall_impl; [exact Hy|]. intros z Hz. simpl in Hz. lia.
Qed.

Lemma descending_lookup {A} (key : A → Z) (l : list A) (i j : nat) a b :
  descending key l → l !! i = Some a → l !! j = Some b → i < j →
  (key b ≤ key a)%Z.
Proof.
  revert i j. induction l as [|x l IH]; intros i j Hl Hi Hj Hlt; [done|].
  destruct Hl as [Hx Hl]. destruct j as [|j]; [lia|]. destruct i as [|i].
  - injection Hi as ->. simpl in Hj.
    apply (Forall_lookup_1 _ _ _ _ Hx Hj).
  - apply (IH i j); [done..|lia].
Qed.

(** The sidebar lists exactly the sessions that have messages, each as
    often as it is among the values, and a session never comes before one
    that was modified later. *)
Theorem sortedSessions_spec (values : list ChatSession.t) :
  sortedSessions values
    ≡ₚ filter (λ s, 0 < length (ChatSession.messages s)) values
  ∧ ∀ i j a b,
      sortedSessions values !! i = Some a → sortedSessions values !! j = Some b →
      i < j → (ChatSession.lastModified b ≤ ChatSession.lastModified a)%Z.
Proof.
  split; [apply sort_by_perm|].
  intros i j a b. apply (descending_lookup ChatSession.lastModified).
  unfold sortedSessions, sort_by.
  induction (filter _ values) as [|x l IH]; [done|].
  simpl. by apply insert_by_descending.
Qed.

(** *** The consumer of the stream *)

Lemma find_last (history : list Message.t) (m : Message.t) :
  Message.id m ∉ Message.id <$> history →
  list_find (λ x, Message.id x = Message.id m) (history ++ [m])
    = Some (length history, m).
Proof.
  intros H. apply list_find_Some. split_and!.
  - by rewrite lookup_app_r, Nat.sub_diag by lia.
  - done.
  - intros j y Hj Hlt Hy. apply H. apply list_elem_of_fmap. exists y. split; [done|].
    rewrite lookup_app_l in Hj by done. by eapply list_elem_of_lookup_2.
Qed.

Lemma alter_last {A} (f : A → A) (l : list A) (x : A) :
  alter f (length l) (l ++ [x]) = l ++ [f x].
Proof.
  induction l as [|y l IH]; [done|].
  change (alter f (length (y :: l)) ((y :: l) ++ [x]))
    with (y :: alter f (length l) (l ++ [x])).
  by rewrite IH.
Qed.

Lemma update_message_last (sessionId assistantMsgId : text)
    (f : Message.t → Message.t) (prev : sessions_table) (sess : ChatSession.t)
    (history : list Message.t) (m : Message.t) :
  prev !! sessionId = Some sess →
  ChatSession.messages sess = history ++ [m] →
  Message.id m = assistantMsgId →
  assistantMsgId ∉ Message.id <$> history →
  update_message sessionId assistantMsgId f prev
    = <[sessionId := with_messages (history ++ [f m]) sess]> prev.
Proof.
  intros Hs Hm <- Hfresh. unfold update_message. rewrite Hs. cbv zeta.
  by rewrite Hm, find_last, alter_last.
Qed.

Section Generation.

Context (sessionId : text) (history : list Message.t) (assistantMsgId : text)
  (now now' : Z) (prev : sessions_table).

Abbreviation placeholder := (assistantPlaceholder assistantMsgId now).

Lemma update_generating (session : ChatSession.t) (f : Message.t → Message.t)
    (m : Message.t) (table : sessions_table) :
  assistantMsgId ∉ Message.id <$> history → Message.id m = assistantMsgId →
  update_message sessionId assistantMsgId f
    (<[sessionId := generating session history m now']> table)
  = <[sessionId := generating session history (f m) now']> table.
Proof.
  intros Hfresh Hid.
  rewrite (update_message_last _ _ _ _ (generating session history m now') history m);
    [|by rewrite lookup_insert_eq|done..].
  by rewrite insert_insert_eq.
Qed.

Lemma chunks_fold (session : ChatSession.t) (chunks : list text) (c0 : text) :
  assistantMsgId ∉ Message.id <$> history →
  foldl (on_chunk sessionId assistantMsgId)
    (c0, <[sessionId := generating session history (streaming c0 placeholder) now']> prev)
    chunks
  = (c0 ++ mjoin chunks,
     <[sessionId :=
         generating session history (streaming (c0 ++ mjoin chunks) placeholder) now']>
       prev).
Proof.
  intros Hfresh. revert c0. induction chunks as [|chunk chunks IH]; intros c0.
  - simpl. by rewrite (right_id_L [] (++)).
  - cbn [foldl]. unfold on_chunk at 2. cbn [fst snd].
    rewrite update_generating by done.
    change (streaming (c0 ++ chunk) (streaming c0 placeholder))
      with (streaming (c0 ++ chunk) placeholder).
    rewrite IH. cbn [mjoin list_join]. by rewrite (assoc_L (++)).
Qed.

Lemma streamed_store (session : ChatSession.t) (chunks : list text) :
  prev !! sessionId = Some session →
  assistantMsgId ∉ Message.id <$> history →
  streamed sessionId history assistantMsgId now now' chunks prev
  = <[sessionId := generating session history (streaming (mjoin chunks) placeholder) now']>
      prev.
Proof.
  intros Hs Hfresh. unfold streamed, place. rewrite Hs. cbv zeta.
  transitivity
    (foldl (on_chunk sessionId assistantMsgId)
       ([], <[sessionId := generating session history (streaming [] placeholder) now']>
              prev) chunks).2; [reflexivity|].
  by rewrite chunks_fold.
Qed.

Lemma generateResponse_store (session : ChatSession.t) (chunks : list text)
    (end_ : outcome) :
  prev !! sessionId = Some session →
  assistantMsgId ∉ Message.id <$> history →
  generateResponse sessionId history assistantMsgId now now' chunks end_ prev
  = <[sessionId :=
        generating session history
          (match end_ with
           | Returned => stopped
           | Thrown name message =>
               if decide (name = lit "AbortError") then stopped
               else failed match message with
                           | [] => lit "Failed to generate response."
                           | _ :: _ => message
                           end
           end (streaming (mjoin chunks) placeholder))
          now']> prev.
Proof.
  intros Hs Hfresh. unfold generateResponse. cbv zeta.
  rewrite (streamed_store session) by done.
  destruct end_ as [|name message]; [by rewrite update_generating|].
  destruct (decide (name = lit "AbortError")); by rewrite update_generating.
Qed.

(** While the stream is read, the message of the assistant is the last
    message of the session, after the history; its content is the
    concatenation of the chunks received so far and it is marked as
    thinking.  The identifier of the message must not be the identifier of
    a message of the history. *)
Theorem streaming_store (session : ChatSession.t) (chunks : list text) :
  prev !! sessionId = Some session →
  assistantMsgId ∉ Message.id <$> history →
  streamed sessionId history assistantMsgId now now' chunks prev
  = <[sessionId :=
        {| ChatSession.id := ChatSession.id session;
           ChatSession.title := ChatSession.title session;
           ChatSession.messages :=
             history ++
             [ {| Message.id := assistantMsgId;
                  Message.role := Assistant;
                  Message.content := mjoin chunks;
                  Message.timestamp := now + 1;
                  Message.attachments := None;
                  Message.thought := None;
                  Message.isError := None;
                  Message.isThinking := Some true |} ];
           ChatSession.modelId := ChatSession.modelId session;
           ChatSession.lastModified := now' |}]> prev.
Proof. apply streamed_store. Qed.

(** When the stream ends or the generation is stopped by the user, the
    message keeps the concatenation of all the chunks received, is no
    longer marked as thinking and carries no error flag: a stopped
    generation is stored as a completed one. *)
Theorem generation_completed (session : ChatSession.t) (chunks : list text)
    (end_ : outcome) :
  prev !! sessionId = Some session →
  assistantMsgId ∉ Message.id <$> history →
  (end_ = Returned ∨ ∃ message, end_ = Thrown (lit "AbortError") message) →
  generateResponse sessionId history assistantMsgId now now' chunks end_ prev
  = <[sessionId :=
        {| ChatSession.id := ChatSession.id session;
           ChatSession.title := ChatSession.title session;
           ChatSession.messages :=
             history ++
             [ {| Message.id := assistantMsgId;
                  Message.role := Assistant;
                  Message.content := mjoin chunks;
                  Message.timestamp := now + 1;
                  Message.attachments := None;
                  Message.thought := None;
                  Message.isError := None;
                  Message.isThinking := Some false |} ];
           ChatSession.modelId := ChatSession.modelId session;
           ChatSession.lastModified := now' |}]> prev.
Proof.
  intros Hs Hfresh Hend. rewrite (generateResponse_store session) by done.
  by destruct Hend as [-> | [message ->]].
Qed.

(** When the stream fails with an error other than the cancellation, what
    was received is dropped: the content of the message becomes the error
    message after [Error: ], or a default text when the error has no
    message, and the message is flagged as an error. *)
Theorem generation_failed (session : ChatSession.t) (chunks : list text)
    (name message : text) :
  prev !! sessionId = Some session →
  assistantMsgId ∉ Message.id <$> history →
  name ≠ lit "AbortError" →
  generateResponse sessionId history assistantMsgId now now' chunks
    (Thrown name message) prev
  = <[sessionId :=
        {| ChatSession.id := ChatSession.id session;
           ChatSession.title := ChatSession.title session;
           ChatSession.messages :=
             history ++
             [ {| Message.id := assistantMsgId;
                  Message.role := Assistant;
                  Message.content :=
                    lit "Error: " ++
                    match message with
                    | [] => lit "Failed to generate response."
                    | _ :: _ => message
                    end;
                  Message.timestamp := now + 1;
                  Message.attachments := None;
                  Message.thought := None;
                  Message.isError := Some true;
                  Message.isThinking := Some false |} ];
           ChatSession.modelId := ChatSession.modelId session;
           ChatSession.lastModified := now' |}]> prev.
Proof.
  intros Hs Hfresh Hname. rewrite (generateResponse_store session) by done.
  by rewrite decide_False.
Qed.

Lemma update_message_elsewhere (f : Message.t → Message.t) (table : sessions_table)
    (j : text) :
  j ≠ sessionId ∨ table !! sessionId = None →
  update_message sessionId assistantMsgId f table !! j = table !! j.
Proof.
  intros Hj. unfold update_message.
  destruct (table !! sessionId) as [sess|] eqn:E; [|done].
  destruct Hj as [Hj | Hj]; [|done]. by rewrite lookup_insert_ne.
Qed.

Lemma update_message_absent (f : Message.t → Message.t) (table : sessions_table) :
  table !! sessionId = None →
  update_message sessionId assistantMsgId f table !! sessionId = None.
Proof. intros H. by rewrite update_message_elsewhere; [|right]. Qed.

(** A generation writes to its own session only, and only when that session
    is in the table: every other session is left as it was, and a session
    that is not in the table (it was deleted) is not created again. *)
Theorem generation_elsewhere (chunks : list text) (end_ : outcome) (j : text) :
  j ≠ sessionId ∨ prev !! sessionId = None →
  generateResponse sessionId history assistantMsgId now now' chunks end_ prev !! j
  = prev !! j.
Proof.
  intros Hj.
  assert (∀ table : sessions_table,
            (j ≠ sessionId ∨ table !! sessionId = None) →
            table !! j = prev !! j →
            ∀ c0, let after := (foldl (on_chunk sessionId assistantMsgId) (c0, table) chunks).2 in
                  (j ≠ sessionId ∨ after !! sessionId = None) ∧ after !! j = prev !! j)
    as Hfold.
  { induction chunks as [|chunk chunks IH]; intros table Htable Heq c0; [done|].
    cbn [foldl]. unfold on_chunk at 2. cbn [fst snd]. apply IH.
    - destruct Htable as [? | Hnone]; [by left|]. right.
      by apply update_message_absent.
    - by rewrite update_message_elsewhere. }
  destruct (Hfold (place sessionId history placeholder now' prev)) with (c0 := @nil ascii)
    as [Hafter Heq].
  { unfold place. destruct (prev !! sessionId) as [session|] eqn:E; [|by destruct Hj; [left|right]].
    destruct Hj as [? | ?]; [by left | done]. }
  { unfold place. destruct (prev !! sessionId) as [session|] eqn:E; [|done].
    destruct Hj as [? | ?]; [|done]. by rewrite lookup_insert_ne. }
  unfold generateResponse, streamed. cbv zeta.
  destruct end_ as [|name message]; [|destruct (decide _)];
    by rewrite update_message_elsewhere.
Qed.

End Generation.

(** A generation that ends, or is stopped, while the reasoning streams in
    leaves a message whose span is not closed.  The message is then shown
    with the reasoning in the thought section, the spinner stopped, and no
    body. *)
Theorem stopped_while_reasoning (URL_hostname : text → option text)
    (sessionId : text) (history : list Message.t) (assistantMsgId : text)
    (now now' : Z) (prev : sessions_table) (session : ChatSession.t)
    (rs : list text) (end_ : outcome) :
  prev !! sessionId = Some session →
  assistantMsgId ∉ Message.id <$> history →
  (end_ = Returned ∨ ∃ message, end_ = Thrown (lit "AbortError") message) →
  "("%char ∉ mjoin rs → ¬ occurs (lit "</think>") (mjoin rs) →
  ¬ all_space (mjoin rs) →
  ∃ answer,
    generateResponse sessionId history assistantMsgId now now'
      (lit "<think>" :: rs) end_ prev
      = <[sessionId := generating session history answer now']> prev
    ∧ message_view URL_hostname answer
      = Sections
          (Some {| spinner := false;
                   status := lit "Thought Process";
                   feed := feed_line <$> extract_actions (trim (mjoin rs));
                   reasoning := trim (mjoin rs) |})
          None.
Proof.
  intros Hs Hfresh Hend Hp Hr Hsp.
  rewrite (generateResponse_store _ _ _ _ _ _ session) by done.
  eexists. split; [reflexivity|].
  assert (∀ m, message_view URL_hostname (stopped (streaming (lit "<think>" ++ mjoin rs) m))
               = render URL_hostname (lit "<think>" ++ mjoin rs) false) as Hview by done.
  destruct Hend as [-> | [message ->]]; cbn [mjoin list_join];
    rewrite ?decide_True by done; rewrite Hview, render_open by done;
    (destruct (trim (mjoin rs)) as [|c t] eqn:E; [by apply trim_nil_iff in E|done]).
Qed.

Lemma fullContent_yielded (tokens : list token) (chunks : list text) :
  yielded <$> tokens = JStr <$> chunks → fullContent tokens = Some (mjoin chunks).
Proof.
  revert chunks. induction tokens as [|t tokens IH]; intros chunks H.
  - by destruct chunks.
  - destruct chunks as [|chunk chunks]; [done|]. rewrite !fmap_cons in H.
    injection H as Ht H. change (t :: tokens) with ([t] ++ tokens).
    rewrite fullContent_app, (IH chunks H).
    unfold fullContent. simpl. by rewrite Ht.
Qed.

(** The application stores what the generator yields: when the values
    yielded by the generator are the strings [chunks] and the generation
    ends or is stopped, the content of the stored message is the
    concatenation of the yielded tokens, the text that the statements about
    the generator call the full content. *)
Theorem stored_content_is_fullContent (tokens : list token) (chunks : list text)
    (sessionId : text) (history : list Message.t) (assistantMsgId : text)
    (now now' : Z) (prev : sessions_table) (session : ChatSession.t)
    (end_ : outcome) :
  yielded <$> tokens = JStr <$> chunks →
  prev !! sessionId = Some session →
  assistantMsgId ∉ Message.id <$> history →
  (end_ = Returned ∨ ∃ message, end_ = Thrown (lit "AbortError") message) →
  ∃ answer,
    generateResponse sessionId history assistantMsgId now now' chunks end_ prev
      = <[sessionId := generating session history answer now']> prev
    ∧ fullContent tokens = Some (Message.content answer)
    ∧ Message.isThinking answer = Some false
    ∧ Message.isError answer = None.
Proof.
  intros Htokens Hs Hfresh Hend.
  rewrite (generateResponse_store _ _ _ _ _ _ session) by done.
  eexists. split; [reflexivity|]. rewrite (fullContent_yielded _ _ Htokens).
  by destruct Hend as [-> | [message ->]].
Qed.

(** *** The handlers *)

Lemma find_first (before after : list Message.t) (m : Message.t) (messageId : text) :
  Message.id m = messageId → messageId ∉ Message.id <$> before →
  list_find (λ x, Message.id x = messageId) (before ++ m :: after)
    = Some (length before, m).
Proof.
  intros Hid H. apply list_find_Some. split_and!.
  - by rewrite lookup_app_r, Nat.sub_diag by lia.
  - done.
  - intros j y Hj Hlt Hy. apply H. apply list_elem_of_fmap. exists y. split; [done|].
    rewrite lookup_app_l in Hj by done. by eapply list_elem_of_lookup_2.
Qed.

Lemma answer_id (assistantMsgId : text) (now : Z) (fullContent : text) (end_ : outcome) :
  let answer :=
    match end_ with
    | Returned => stopped
    | Thrown name message =>
        if decide (name = lit "AbortError") then stopped
        else failed match message with
                    | [] => lit "Failed to generate response."
                    | _ :: _ => message
                    end
    end (streaming fullContent (assistantPlaceholder assistantMsgId now)) in
  Message.id answer = assistantMsgId ∧ Message.role answer = Assistant.
Proof. destruct end_ as [|name message]; [done|]. cbv zeta. by destruct (decide _). Qed.

(** Regenerating replaces the last answer: when the last message of the
    current session is a message of the assistant, the session afterwards
    is the messages before it followed by the new message of the
    assistant, whatever the outcome of the generation. *)
Theorem regenerate_replaces_answer (cur : text) (sessions : sessions_table)
    (session : ChatSession.t) (hist : list Message.t) (lastMsg : Message.t)
    (assistantMsgId : text) (now now' : Z) (chunks : list text) (end_ : outcome) :
  cur ≠ [] → sessions !! cur = Some session →
  ChatSession.messages session = hist ++ [lastMsg] →
  Message.role lastMsg = Assistant →
  assistantMsgId ∉ Message.id <$> hist →
  ∃ answer,
    then_generate (handleRegenerate true (Some cur) sessions)
      assistantMsgId now now' chunks end_
    = Some (<[cur := generating session hist answer now']> sessions)
    ∧ Message.id answer = assistantMsgId ∧ Message.role answer = Assistant.
Proof.
  intros Hcur Hs Hm Hrole Hfresh. unfold handleRegenerate.
  destruct cur as [|c cs]; [done|]. rewrite Hs, Hm, last_snoc, decide_True by done.
  rewrite removelast_snoc. unfold set_history. rewrite Hs. unfold then_generate.
  cbn [mbind option_bind].
  rewrite (generateResponse_store _ _ _ _ _ _ (with_messages hist session))
    by (by rewrite ?lookup_insert_eq).
  rewrite insert_insert_eq. eexists. split; [reflexivity|]. apply answer_id.
Qed.

(** Editing a message cuts the conversation at that message: the session
    afterwards is the messages before the edited one, the edited message
    with its new content and a new identifier, and the new message of the
    assistant.  The messages that followed the edited one are gone. *)
Theorem edit_truncates (cur : text) (sessions : sessions_table)
    (session : ChatSession.t) (before after : list Message.t) (m : Message.t)
    (newId messageId newContent : text)
    (assistantMsgId : text) (now now' : Z) (chunks : list text) (end_ : outcome) :
  cur ≠ [] → sessions !! cur = Some session →
  ChatSession.messages session = before ++ m :: after →
  Message.id m = messageId → messageId ∉ Message.id <$> before →
  assistantMsgId ∉ Message.id <$> before → assistantMsgId ≠ newId →
  ∃ answer,
    then_generate (handleEdit true (Some cur) newId messageId newContent sessions)
      assistantMsgId now now' chunks end_
    = Some (<[cur :=
                generating session
                  (before ++
                   [ {| Message.id := newId;
                        Message.role := Message.role m;
                        Message.content := newContent;
                        Message.timestamp := Message.timestamp m;
                        Message.attachments := Message.attachments m;
                        Message.thought := Message.thought m;
                        Message.isError := Message.isError m;
                        Message.isThinking := Message.isThinking m |} ])
                  answer now']> sessions)
    ∧ Message.id answer = assistantMsgId ∧ Message.role answer = Assistant.
Proof.
  intros Hcur Hs Hm Hid Hfirst Hfresh Hnew. unfold handleEdit.
  destruct cur as [|c cs]; [done|]. rewrite Hs, Hm, (find_first _ _ _ _ Hid Hfirst).
  rewrite take_app_length. unfold set_history. rewrite Hs. unfold then_generate.
  cbn [mbind option_bind].
  erewrite generateResponse_store; cycle 1.
  - by rewrite lookup_insert_eq.
  - rewrite fmap_app, not_elem_of_app. split; [done|].
    cbn. by intros ->%list_elem_of_singleton.
  - rewrite insert_insert_eq. eexists. split; [reflexivity|]. apply answer_id.
Qed.

Lemma send_guard (inputMessage : text) (attachments : list Attachment.t) :
  ¬ all_space inputMessage ∨ attachments ≠ [] →
  bool_decide (trim inputMessage = []) && Nat.eqb (length attachments) 0 || negb true
  = false.
Proof.
  intros [H | H].
  - rewrite bool_decide_eq_false_2; [done|]. by rewrite trim_nil_iff.
  - destruct attachments; [done|]. by rewrite andb_false_r.
Qed.

(** The first message of a conversation creates the session and names it:
    the title is the first thirty characters of the message, and
    [Image Chat] when the message has no text.  The session holds the
    message and the selected model, and becomes the current session. *)
Theorem first_message_names_session (inputMessage : text)
    (attachments : list Attachment.t) (selectedModelId : text)
    (newSessionId userMsgId : text) (now now' : Z)
    (sessions : sessions_table) (currentSessionId : option text) :
  ¬ all_space inputMessage ∨ attachments ≠ [] →
  (∀ c, currentSessionId = Some c → sessions !! c = None) →
  sessions !! newSessionId = None →
  let userMsg :=
    {| Message.id := userMsgId;
       Message.role := User;
       Message.content := inputMessage;
       Message.timestamp := now';
       Message.attachments := Some attachments;
       Message.thought := None;
       Message.isError := None;
       Message.isThinking := None |} in
  handleSendMessage true inputMessage attachments selectedModelId
    newSessionId userMsgId now now' (sessions, currentSessionId)
  = Some (<[newSessionId :=
              {| ChatSession.id := newSessionId;
                 ChatSession.title :=
                   match take 30 inputMessage with
                   | [] => lit "Image Chat"
                   | t => t
                   end;
                 ChatSession.messages := [userMsg];
                 ChatSession.modelId := selectedModelId;
                 ChatSession.lastModified := now |}]> sessions,
          Some newSessionId, newSessionId, [userMsg]).
Proof.
  intros Hguard Hcur Hnew userMsg. unfold handleSendMessage.
  rewrite send_guard by done.
  assert (match currentSessionId with
          | Some ((_ :: _) as id) =>
              match sessions !! id with Some s => Some (id, s) | None => None end
          | _ => None
          end = None) as ->.
  { destruct currentSessionId as [[|c cs]|]; [done| |done]. by rewrite Hcur. }
  cbv zeta. rewrite lookup_insert_eq. cbn [ChatSession.messages].
  rewrite Hnew. unfold set_history. rewrite lookup_insert_eq.
  by rewrite !insert_insert_eq.
Qed.

(** A message sent in a conversation that has messages is appended to
    them; the title of the session stays, and the model of the session
    becomes the selected model. *)
Theorem later_message_is_appended (inputMessage : text)
    (attachments : list Attachment.t) (selectedModelId : text)
    (newSessionId userMsgId : text) (now now' : Z)
    (sessions : sessions_table) (cur : text) (session : ChatSession.t) :
  ¬ all_space inputMessage ∨ attachments ≠ [] →
  cur ≠ [] → sessions !! cur = Some session →
  ChatSession.messages session ≠ [] →
  let userMsg :=
    {| Message.id := userMsgId;
       Message.role := User;
       Message.content := inputMessage;
       Message.timestamp := now';
       Message.attachments := Some attachments;
       Message.thought := None;
       Message.isError := None;
       Message.isThinking := None |} in
  handleSendMessage true inputMessage attachments selectedModelId
    newSessionId userMsgId now now' (sessions, Some cur)
  = Some (<[cur :=
              {| ChatSession.id := ChatSession.id session;
                 ChatSession.title := ChatSession.title session;
                 ChatSession.messages := ChatSession.messages session ++ [userMsg];
                 ChatSession.modelId := selectedModelId;
                 ChatSession.lastModified := ChatSession.lastModified session |}]>
            sessions,
          Some cur, cur, ChatSession.messages session ++ [userMsg]).
Proof.
  intros Hguard Hcur Hs Hne userMsg. unfold handleSendMessage.
  rewrite send_guard by done. destruct cur as [|c cs]; [done|].
  rewrite Hs. cbv zeta. rewrite Hs.
  destruct (ChatSession.messages session) as [|m0 ms] eqn:Em; [done|].
  unfold set_history. rewrite lookup_insert_eq.
  by rewrite insert_insert_eq.
Qed.

(** *** The theorems about the application, on examples *)

Lemma normalize_key_bearer_witness :
  toLowerCase (lit "BEARER ") = lit "bearer "
  ∧ normalize_key (lit "BEARER " ++ lit "  sk-or-v1-abc ") = lit "sk-or-v1-abc"
  ∧ normalize_key (lit "BEARER " ++ lit "  ") = lit "BEARER".
Proof.
  assert (toLowerCase (lit "BEARER ") = lit "bearer ") as H by reflexivity.
  split; [exact H|]. split.
  - rewrite (normalize_key_bearer (lit "BEARER ") (lit "  sk-or-v1-abc ") H).
    rewrite bool_decide_eq_false_2 by not_blank. reflexivity.
  - rewrite (normalize_key_bearer (lit "BEARER ") (lit "  ") H).
    rewrite bool_decide_eq_true_2 by (by repeat constructor). reflexivity.
Defined.

Lemma deleteSession_spec_witness :
  let sessions : sessions_table :=
    {[ lit "s1" := example_session (lit "s1") [] 100;
       lit "s2" := example_session (lit "s2") [] 200 ]} in
  let after := deleteSession (lit "s1") (sessions, Some (lit "s1")) in
  (∀ c, Some (lit "s1") = Some c → is_Some (sessions !! c))
  ∧ after.1 !! lit "s1" = None
  ∧ after.1 !! lit "s2" = sessions !! lit "s2"
  ∧ after.2 = None.
Proof.
  intros sessions after.
  assert (∀ c, Some (lit "s1") = Some c → is_Some (sessions !! c)) as H.
  { intros c [= <-]. exists (example_session (lit "s1") [] 100). by vm_compute. }
  split; [exact H|].
  destruct (deleteSession_spec (lit "s1") sessions (Some (lit "s1")) H) as (H1 & H2 & _).
  split; [exact H1|]. split; [by apply H2|]. reflexivity.
Defined.

Lemma sortedSessions_spec_witness :
  let m := example_message (lit "m1") User (lit "hi") None in
  let values :=
    [ example_session (lit "s1") [m] 100;
      example_session (lit "s2") [] 300;
      example_session (lit "s3") [m] 200 ] in
  sortedSessions values
    = [ example_session (lit "s3") [m] 200; example_session (lit "s1") [m] 100 ]
  ∧ sortedSessions values ≡ₚ filter (λ s, 0 < length (ChatSession.messages s)) values
  ∧ (ChatSession.lastModified (example_session (lit "s1") [m] 100)
     ≤ ChatSession.lastModified (example_session (lit "s3") [m] 200))%Z.
Proof.
  intros m values.
  assert (sortedSessions values
          = [ example_session (lit "s3") [m] 200; example_session (lit "s1") [m] 100 ])
    as E by reflexivity.
  destruct (sortedSessions_spec values) as [H1 H2].
  split; [exact E|]. split; [exact H1|].
  apply (H2 0 1); [by rewrite E..|lia].
Defined.

Lemma streaming_store_witness :
  let history := [example_message (lit "m1") User (lit "hi") None] in
  let session := example_session (lit "s1") history 100 in
  let prev : sessions_table := {[ lit "s1" := session ]} in
  (prev !! lit "s1" = Some session ∧ lit "a1" ∉ Message.id <$> history)
  ∧ ChatSession.messages
      <$> (streamed (lit "s1") history (lit "a1") 500 501
             [lit "<think>"; lit "Hm"] prev !! lit "s1")
    = Some (history ++
            [ {| Message.id := lit "a1";
                 Message.role := Assistant;
                 Message.content := lit "<think>Hm";
                 Message.timestamp := 501;
                 Message.attachments := None;
                 Message.thought := None;
                 Message.isError := None;
                 Message.isThinking := Some true |} ]).
Proof.
  intros history session prev.
  assert (prev !! lit "s1" = Some session) as H1 by (by vm_compute).
  assert (lit "a1" ∉ Message.id <$> history) as H2
    by (by intros [=]%list_elem_of_singleton).
  split; [done|].
  rewrite (streaming_store (lit "s1") history (lit "a1") 500 501 prev session
             [lit "<think>"; lit "Hm"] H1 H2).
  by rewrite lookup_insert_eq.
Defined.

Lemma generation_completed_witness :
  let history := [example_message (lit "m1") User (lit "hi") None] in
  let session := example_session (lit "s1") history 100 in
  let prev : sessions_table := {[ lit "s1" := session ]} in
  (prev !! lit "s1" = Some session ∧ lit "a1" ∉ Message.id <$> history)
  ∧ ChatSession.messages
      <$> (generateResponse (lit "s1") history (lit "a1") 500 501
             [lit "Hel"; lit "lo"] (Thrown (lit "AbortError") (lit "aborted")) prev
           !! lit "s1")
    = Some (history ++
            [ {| Message.id := lit "a1";
                 Message.role := Assistant;
                 Message.content := lit "Hello";
                 Message.timestamp := 501;
                 Message.attachments := None;
                 Message.thought := None;
                 Message.isError := None;
                 Message.isThinking := Some false |} ]).
Proof.
  intros history session prev.
  assert (prev !! lit "s1" = Some session) as H1 by (by vm_compute).
  assert (lit "a1" ∉ Message.id <$> history) as H2
    by (by intros [=]%list_elem_of_singleton).
  split; [done|].
  rewrite (generation_completed (lit "s1") history (lit "a1") 500 501 prev session
             [lit "Hel"; lit "lo"] (Thrown (lit "AbortError") (lit "aborted")) H1 H2)
    by (right; by eexists).
  by rewrite lookup_insert_eq.
Defined.

Lemma generation_failed_witness :
  let history := [example_message (lit "m1") User (lit "hi") None] in
  let session := example_session (lit "s1") history 100 in
  let prev : sessions_table := {[ lit "s1" := session ]} in
  (prev !! lit "s1" = Some session ∧ (lit "a1" ∉ Message.id <$> history)
   ∧ lit "TypeError" ≠ lit "AbortError")
  ∧ ChatSession.messages
      <$> (generateResponse (lit "s1") history (lit "a1") 500 501
             [lit "Hel"; lit "lo"] (Thrown (lit "TypeError") (lit "network error")) prev
           !! lit "s1")
    = Some (history ++
            [ {| Message.id := lit "a1";
                 Message.role := Assistant;
                 Message.content := lit "Error: network error";
                 Message.timestamp := 501;
                 Message.attachments := None;
                 Message.thought := None;
                 Message.isError := Some true;
                 Message.isThinking := Some false |} ]).
Proof.
  intros history session prev.
  assert (prev !! lit "s1" = Some session) as H1 by (by vm_compute).
  assert (lit "a1" ∉ Message.id <$> history) as H2
    by (by intros [=]%list_elem_of_singleton).
  assert (lit "TypeError" ≠ lit "AbortError") as H3 by done.
  split; [done|].
  rewrite (generation_failed (lit "s1") history (lit "a1") 500 501 prev session
             [lit "Hel"; lit "lo"] (lit "TypeError") (lit "network error") H1 H2 H3).
  by rewrite lookup_insert_eq.
Defined.

Lemma generation_elsewhere_witness :
  let prev : sessions_table := {[ lit "s2" := example_session (lit "s2") [] 100 ]} in
  prev !! lit "s1" = None
  ∧ generateResponse (lit "s1") [] (lit "a1") 500 501 [lit "Hello"] Returned prev
      !! lit "s1" = None
  ∧ generateResponse (lit "s1") [] (lit "a1") 500 501 [lit "Hello"] Returned prev
      !! lit "s2" = prev !! lit "s2".
Proof.
  intros prev.
  assert (prev !! lit "s1" = None) as H by (by vm_compute).
  split; [exact H|]. split.
  - rewrite (generation_elsewhere (lit "s1") [] (lit "a1") 500 501 prev
               [lit "Hello"] Returned (lit "s1")); [exact H | by right].
  - apply generation_elsewhere. by right.
Defined.

Lemma stopped_while_reasoning_witness :
  let history := [example_message (lit "m1") User (lit "hi") None] in
  let session := example_session (lit "s1") history 100 in
  let prev : sessions_table := {[ lit "s1" := session ]} in
  let rs := [lit "Let me "; lit "think. "] in
  (prev !! lit "s1" = Some session ∧ (lit "a1" ∉ Message.id <$> history)
   ∧ ("("%char ∉ mjoin rs) ∧ ¬ occurs (lit "</think>") (mjoin rs)
   ∧ ¬ all_space (mjoin rs))
  ∧ ∃ answer,
      generateResponse (lit "s1") history (lit "a1") 500 501 (lit "<think>" :: rs)
        (Thrown (lit "AbortError") []) prev
        = <[lit "s1" := generating session history answer 501]> prev
      ∧ message_view Platform.URL_hostname answer
        = Sections
            (Some {| spinner := false;
                     status := lit "Thought Process";
                     feed := [];
                     reasoning := lit "Let me think." |})
            None.
Proof.
  intros history session prev rs.
  assert (prev !! lit "s1" = Some session) as H1 by (by vm_compute).
  assert (lit "a1" ∉ Message.id <$> history) as H2
    by (by intros [=]%list_elem_of_singleton).
  assert ("("%char ∉ mjoin rs) as H3 by (apply not_in_true; by vm_compute).
  assert (¬ occurs (lit "</think>") (mjoin rs)) as H4 by not_found.
  assert (¬ all_space (mjoin rs)) as H5 by not_blank.
  split; [done|].
  destruct (stopped_while_reasoning Platform.URL_hostname (lit "s1") history (lit "a1")
              500 501 prev session rs (Thrown (lit "AbortError") []) H1 H2)
    as (answer & E1 & E2); [right; by eexists|done..|].
  exists answer. split; [exact E1|]. rewrite E2. reflexivity.
Defined.

Lemma stored_content_is_fullContent_witness :
  let history := [example_message (lit "m1") User (lit "hi") None] in
  let session := example_session (lit "s1") history 100 in
  let prev : sessions_table := {[ lit "s1" := session ]} in
  let reads :=
    [Chunk (q "data: {'choices':[{'delta':{'reasoning':'hm'}}]}" ++ [LF]);
     Rejected (lit "AbortError")] in
  let tokens := [OpenTag; Reasoning (JStr (lit "hm"))] in
  let chunks := [lit "<think>"; lit "hm"] in
  streamChat Platform.JSON_parse reads = (tokens, Threw (lit "AbortError"))
  ∧ yielded <$> tokens = JStr <$> chunks
  ∧ prev !! lit "s1" = Some session
  ∧ (lit "a1" ∉ Message.id <$> history)
  ∧ ∃ answer,
      generateResponse (lit "s1") history (lit "a1") 500 501 chunks
        (Thrown (lit "AbortError") []) prev
        = <[lit "s1" := generating session history answer 501]> prev
      ∧ fullContent tokens = Some (Message.content answer)
      ∧ Message.content answer = lit "<think>hm".
Proof.
  intros history session prev reads tokens chunks.
  assert (yielded <$> tokens = JStr <$> chunks) as H0 by reflexivity.
  assert (prev !! lit "s1" = Some session) as H1 by (by vm_compute).
  assert (lit "a1" ∉ Message.id <$> history) as H2
    by (by intros [=]%list_elem_of_singleton).
  split; [by vm_compute|]. split; [exact H0|]. split; [exact H1|]. split; [exact H2|].
  destruct (stored_content_is_fullContent tokens chunks (lit "s1") history (lit "a1")
              500 501 prev session (Thrown (lit "AbortError") []) H0 H1 H2)
    as (answer & E1 & E2 & _); [right; by eexists|].
  exists answer. split; [exact E1|]. split; [exact E2|].
  assert (fullContent tokens = Some (lit "<think>hm")) as E3 by reflexivity.
  rewrite E3 in E2. by injection E2.
Defined.

Lemma regenerate_replaces_answer_witness :
  let question := example_message (lit "m1") User (lit "hi") None in
  let old := example_message (lit "m2") Assistant (lit "Hello") None in
  let session := example_session (lit "s1") [question; old] 100 in
  let sessions : sessions_table := {[ lit "s1" := session ]} in
  (lit "s1" ≠ [] ∧ sessions !! lit "s1" = Some session
   ∧ ChatSession.messages session = [question] ++ [old]
   ∧ Message.role old = Assistant ∧ lit "a1" ∉ Message.id <$> [question])
  ∧ ∃ answer,
      then_generate (handleRegenerate true (Some (lit "s1")) sessions)
        (lit "a1") 500 501 [lit "Hi!"] Returned
      = Some (<[lit "s1" := generating session [question] answer 501]> sessions)
      ∧ Message.id answer = lit "a1" ∧ Message.role answer = Assistant.
Proof.
  intros question old session sessions.
  assert (lit "s1" ≠ []) as H0 by done.
  assert (sessions !! lit "s1" = Some session) as H1 by (by vm_compute).
  assert (ChatSession.messages session = [question] ++ [old]) as H2 by reflexivity.
  assert (Message.role old = Assistant) as H3 by reflexivity.
  assert (lit "a1" ∉ Message.id <$> [question]) as H4
    by (by intros [=]%list_elem_of_singleton).
  split; [done|].
  exact (regenerate_replaces_answer (lit "s1") sessions session [question] old
           (lit "a1") 500 501 [lit "Hi!"] Returned H0 H1 H2 H3 H4).
Defined.

Lemma edit_truncates_witness :
  let first := example_message (lit "m1") User (lit "hi") None in
  let reply := example_message (lit "m2") Assistant (lit "Hello") None in
  let second := example_message (lit "m3") User (lit "wether?") None in
  let reply' := example_message (lit "m4") Assistant (lit "What?") None in
  let session := example_session (lit "s1") [first; reply; second; reply'] 100 in
  let sessions : sessions_table := {[ lit "s1" := session ]} in
  (lit "s1" ≠ [] ∧ sessions !! lit "s1" = Some session
   ∧ ChatSession.messages session = [first; reply] ++ second :: [reply']
   ∧ Message.id second = lit "m3" ∧ (lit "m3" ∉ Message.id <$> [first; reply])
   ∧ (lit "a1" ∉ Message.id <$> [first; reply]) ∧ lit "a1" ≠ lit "m5")
  ∧ ∃ answer,
      then_generate
        (handleEdit true (Some (lit "s1")) (lit "m5") (lit "m3") (lit "weather?") sessions)
        (lit "a1") 500 501 [lit "Sunny."] Returned
      = Some (<[lit "s1" :=
                  generating session
                    ([first; reply] ++ [example_message (lit "m5") User (lit "weather?") None])
                    answer 501]> sessions)
      ∧ Message.id answer = lit "a1" ∧ Message.role answer = Assistant.
Proof.
  intros first reply second reply' session sessions.
  assert (lit "s1" ≠ []) as H0 by done.
  assert (sessions !! lit "s1" = Some session) as H1 by (by vm_compute).
  assert (ChatSession.messages session = [first; reply] ++ second :: [reply']) as H2
    by reflexivity.
  assert (Message.id second = lit "m3") as H3 by reflexivity.
  assert (lit "m3" ∉ Message.id <$> [first; reply]) as H4.
  { intros [[=] | [=]%list_elem_of_singleton]%elem_of_cons. }
  assert (lit "a1" ∉ Message.id <$> [first; reply]) as H5.
  { intros [[=] | [=]%list_elem_of_singleton]%elem_of_cons. }
  assert (lit "a1" ≠ lit "m5") as H6 by done.
  split; [done|].
  exact (edit_truncates (lit "s1") sessions session [first; reply] [reply'] second
           (lit "m5") (lit "m3") (lit "weather?") (lit "a1") 500 501 [lit "Sunny."]
           Returned H0 H1 H2 H3 H4 H5 H6).
Defined.

Lemma first_message_names_session_witness :
  let input := lit "Explain the difference between TCP and UDP" in
  (¬ all_space input ∨ @nil Attachment.t ≠ [])
  ∧ (∀ c, @None text = Some c → (∅ : sessions_table) !! c = None)
  ∧ (∅ : sessions_table) !! lit "s1" = None
  ∧ ∃ table history,
      handleSendMessage true input [] (lit "openai/gpt-4o") (lit "s1") (lit "m1")
        500 501 (∅, None)
      = Some (table, Some (lit "s1"), lit "s1", history)
      ∧ ChatSession.title <$> table !! lit "s1"
        = Some (lit "Explain the difference between")
      ∧ length history = 1.
Proof.
  intros input.
  assert (¬ all_space input ∨ @nil Attachment.t ≠ []) as H1 by (left; not_blank).
  assert (∀ c, @None text = Some c → (∅ : sessions_table) !! c = None) as H2 by done.
  assert ((∅ : sessions_table) !! lit "s1" = None) as H3 by done.
  split; [exact H1|]. split; [exact H2|]. split; [exact H3|].
  eexists _, _. split.
  - exact (first_message_names_session input [] (lit "openai/gpt-4o") (lit "s1")
             (lit "m1") 500 501 ∅ None H1 H2 H3).
  - split; [by rewrite lookup_insert_eq | reflexivity].
Defined.

Lemma later_message_is_appended_witness :
  let first := example_message (lit "m1") User (lit "hi") None in
  let session := example_session (lit "s1") [first] 100 in
  let sessions : sessions_table := {[ lit "s1" := session ]} in
  (¬ all_space (lit "more") ∨ @nil Attachment.t ≠ [])
  ∧ lit "s1" ≠ [] ∧ sessions !! lit "s1" = Some session
  ∧ ChatSession.messages session ≠ []
  ∧ ∃ table history,
      handleSendMessage true (lit "more") [] (lit "x/y") (lit "s9") (lit "m2")
        500 501 (sessions, Some (lit "s1"))
      = Some (table, Some (lit "s1"), lit "s1", history)
      ∧ ChatSession.title <$> table !! lit "s1" = Some (lit "Chat")
      ∧ ChatSession.modelId <$> table !! lit "s1" = Some (lit "x/y")
      ∧ length history = 2.
Proof.
  intros first session sessions.
  assert (¬ all_space (lit "more") ∨ @nil Attachment.t ≠ []) as H1 by (left; not_blank).
  assert (lit "s1" ≠ []) as H2 by done.
  assert (sessions !! lit "s1" = Some session) as H3 by (by vm_compute).
  assert (ChatSession.messages session ≠ []) as H4 by done.
  split; [exact H1|]. split; [exact H2|]. split; [exact H3|]. split; [exact H4|].
  eexists _, _. split.
  - exact (later_message_is_appended (lit "more") [] (lit "x/y") (lit "s9") (lit "m2")
             500 501 sessions (lit "s1") session H1 H2 H3 H4).
  - split; [by rewrite lookup_insert_eq|]. split; [by rewrite lookup_insert_eq|].
    reflexivity.
Defined.

End AppFacts.

(** ** The model selector *)

Lemma includes_occurs (m s : text) : includes m s = true ↔ occurs m s.
Proof.
  unfold includes. destruct (split_at_first m s) as [[x y]|] eqn:E.
  - split; [|done]. intros _. apply split_at_first_Some in E. by exists x, y.
  - apply split_at_first_None in E. by split.
Qed.

Lemma occurs_refl (s : text) : occurs s s.
Proof. exists [], []. by rewrite (right_id_L [] (++)). Qed.

Lemma occurs_trans (x y z : text) : occurs x y → occurs y z → occurs x z.
Proof.
  intros (a & b & ->) (c & d & ->). exists (c ++ a), (b ++ d).
  by rewrite <- !(assoc_L (++)).
Qed.

Lemma filter_sublist_impl {A} (P Q : A → Prop) `{∀ x, Decision (P x)}
    `{∀ x, Decision (Q x)} (l : list A) :
  (∀ x, P x → Q x) → filter P l `sublist_of` filter Q l.
Proof.
  intros HPQ. induction l as [|x l IH]; [done|]. rewrite !filter_cons.
  destruct (decide (P x)) as [HP | HP].
  - rewrite decide_True by auto. by constructor.
  - destruct (decide (Q x)); [by constructor | done].
Qed.

Module SelectorFacts.
Import Types Selector.

Section FilterProperties.

Context (toLowerCase : text → text).

Abbreviation filteredModels' := (filteredModels toLowerCase).

Lemma filter_pass (lower : text) (m : OpenRouterModel.t) :
  includes lower (toLowerCase (OpenRouterModel.name m))
  || includes lower (toLowerCase (OpenRouterModel.id m))
  ↔ occurs lower (toLowerCase (OpenRouterModel.name m))
    ∨ occurs lower (toLowerCase (OpenRouterModel.id m)).
Proof. by rewrite orb_True, !Is_true_true, !includes_occurs. Qed.

(** A model is always found by its own identifier and by its own name,
    whatever the letter case mapping does. *)
Theorem filteredModels_finds (models : list OpenRouterModel.t) (m : OpenRouterModel.t) :
  m ∈ models →
  m ∈ filteredModels' models (OpenRouterModel.id m)
  ∧ m ∈ filteredModels' models (OpenRouterModel.name m).
Proof.
  intros Hm. unfold filteredModels. split.
  - destruct (OpenRouterModel.id m) as [|c t] eqn:E; [done|]. rewrite <- E.
    apply list_elem_of_filter. split; [|done]. apply filter_pass. right. apply occurs_refl.
  - destruct (OpenRouterModel.name m) as [|c t] eqn:E; [done|]. rewrite <- E.
    apply list_elem_of_filter. split; [|done]. apply filter_pass. left. apply occurs_refl.
Qed.

(** Typing more narrows the list: when the lowered search text occurs in
    the lowered longer search text, the models found for the longer text
    are among the models found for the shorter one, in the same order. *)
Theorem filteredModels_narrows (models : list OpenRouterModel.t)
    (search1 search2 : text) :
  search2 ≠ [] → occurs (toLowerCase search1) (toLowerCase search2) →
  filteredModels' models search2 `sublist_of` filteredModels' models search1.
Proof.
  intros Hne Hocc. unfold filteredModels.
  destruct search2 as [|c2 t2]; [done|].
  destruct search1 as [|c1 t1]; [apply sublist_filter|].
  apply filter_sublist_impl. intros m [H|H]%filter_pass; apply filter_pass;
    [left|right]; by apply (occurs_trans _ _ _ Hocc).
Qed.

End FilterProperties.

Lemma filteredModels_finds_witness :
  let models :=
    [ example_model (lit "openai/gpt-4o") (lit "GPT-4o");
      example_model (lit "anthropic/claude") (lit "Claude") ] in
  let m := example_model (lit "anthropic/claude") (lit "Claude") in
  m ∈ models
  ∧ m ∈ filteredModels App.toLowerCase models (lit "anthropic/claude")
  ∧ m ∈ filteredModels App.toLowerCase models (lit "Claude").
Proof.
  intros models m.
  assert (m ∈ models) as H by (right; left).
  split; [exact H|].
  exact (filteredModels_finds App.toLowerCase models m H).
Defined.

Lemma filteredModels_narrows_witness :
  let models :=
    [ example_model (lit "openai/gpt-4o") (lit "GPT-4o");
      example_model (lit "openai/gpt-4o-mini") (lit "GPT-4o mini");
      example_model (lit "anthropic/claude") (lit "Claude") ] in
  (lit "GPT-4o M" ≠ []
   ∧ occurs (App.toLowerCase (lit "gpt")) (App.toLowerCase (lit "GPT-4o M")))
  ∧ filteredModels App.toLowerCase models (lit "GPT-4o M")
      = [example_model (lit "openai/gpt-4o-mini") (lit "GPT-4o mini")]
  ∧ filteredModels App.toLowerCase models (lit "GPT-4o M")
      `sublist_of` filteredModels App.toLowerCase models (lit "gpt").
Proof.
  intros models.
  assert (lit "GPT-4o M" ≠ []) as H1 by done.
  assert (occurs (App.toLowerCase (lit "gpt")) (App.toLowerCase (lit "GPT-4o M"))) as H2
    by (by exists [], (lit "-4o m")).
  split; [done|]. split; [reflexivity|].
  exact (filteredModels_narrows App.toLowerCase models (lit "gpt") (lit "GPT-4o M") H1 H2).
Defined.

(** The provider shown under the name of the model is the identifier up
    to its first slash, and the whole identifier when it has no slash. *)
Theorem provider_spec (id : text) :
  ("/"%char ∉ provider id)
  ∧ (id = provider id ∨ ∃ rest, id = provider id ++ "/"%char :: rest).
Proof.
  unfold provider. induction id as [|c id [IH1 IH2]]; simpl.
  - split; [apply not_elem_of_nil | by left].
  - destruct (Ascii.eqb c "/") eqn:Ec.
    + apply Ascii.eqb_eq in Ec as ->. simpl. split; [apply not_elem_of_nil|].
      right. by exists id.
    + assert (c ≠ "/"%char) as Hc.
      { intros ->. by rewrite Ascii.eqb_refl in Ec. }
      destruct (split_on "/" id) as [|first others] eqn:E.
      * by destruct (split_on_nonempty "/" id).
      * simpl in *. split.
        -- rewrite not_elem_of_cons. by split.
        -- destruct IH2 as [IH2 | [rest IH2]]; [left | right; exists rest];
             by rewrite IH2 at 1.
Qed.

End SelectorFacts.
